(** * dagraph: a directed graph with Tarjan cycle detection

    Shallow embedding of [dagraph.py] (classes [UniqueStack],
    [DAGraphVertex], [DAGraph]) and the properties of its specification.

    Conventions of the embedding.
    - A Python [dict] is a [gmap], a Python [set] a [gset]; iterating one
      goes through [elements], whose order is left unspecified, as the
      iteration order of a hash table is.  The keys of [vertices], which
      Python lists in insertion order, are listed in that unspecified
      order too; every property of [tarjans] and [is_cyclic] below is
      proved for all orders of the roots (the permutation [rng]), the
      insertion order being one of them.
    - A [deque] or [list] used as a stack is kept with its right end (the
      end [append], [extend] and [pop] work on) at the head of the Rocq
      list.  Lists that are only appended to and returned ([scc],
      [scc_list]) are kept in their Python order.
    - A method that mutates its receiver is a function from the state
      before to an outcome and the state after; [raise] leaves the state
      as it is at the point of the [raise].
    - Python's bound on nested calls is the [depth] argument of the
      recursive [strongconnect]; a [while] loop with no bound of its own
      takes [fuel], and running out of it is the outcome [OutOfFuel]. *)

From stdpp Require Import gmap strings relations.

Set Warnings "-clear-no-such-hyp".

(** ** Outcomes and exceptions *)

Inductive error (K : Type) : Type :=
  | DuplicateKey (k : K)     (* Exception(f"{key} already in graph") *)
  | NotPresent (k : K)       (* Exception(f"{k} not present in graph.") *)
  | KeyError (k : K)         (* subscript of a dict with an absent key *)
  | NotUnique                (* Exception("Stack requires unique elements") *)
  | IndexError               (* pop or [-1] on an empty deque *)
  | RecursionError.          (* more nested calls than the interpreter allows *)
Arguments DuplicateKey {K} k.
Arguments NotPresent {K} k.
Arguments KeyError {K} k.
Arguments NotUnique {K}.
Arguments IndexError {K}.
Arguments RecursionError {K}.

Inductive result (K A : Type) : Type :=
  | Return (a : A)
  | Raise (e : error K)
  | OutOfFuel.
Arguments Return {K A} a.
Arguments Raise {K A} e.
Arguments OutOfFuel {K A}.

Definition result_bind {K A B} (m : result K A) (f : A → result K B) : result K B :=
  match m with
  | Return a => f a
  | Raise e => Raise e
  | OutOfFuel => OutOfFuel
  end.

Notation "x ←r m ; k" := (result_bind m (λ x, k))
  (at level 20, m at level 100, k at level 200, right associativity,
   format "x  ←r  m ;  '/' k").
Notation "' p ←r m ; k" := (result_bind m (λ p, k))
  (at level 20, p pattern, m at level 100, k at level 200, right associativity,
   format "' p  ←r  m ;  '/' k").

(** A method with receiver state [S]. *)
Definition method (K S A : Type) : Type := S → result K A * S.

Definition m_ret {K S A} (a : A) : method K S A := λ s, (Return a, s).
Definition m_raise {K S A} (e : error K) : method K S A := λ s, (Raise e, s).
Definition m_bind {K S A B} (m : method K S A) (f : A → method K S B) : method K S B :=
  λ s, match m s with
       | (Return a, s') => f a s'
       | (Raise e, s') => (Raise e, s')
       | (OutOfFuel, s') => (OutOfFuel, s')
       end.
Definition m_get {K S} : method K S S := λ s, (Return s, s).
Definition m_modify {K S} (f : S → S) : method K S unit := λ s, (Return tt, f s).

Notation "x ←m m ; k" := (m_bind m (λ x, k))
  (at level 20, m at level 100, k at level 200, right associativity,
   format "x  ←m  m ;  '/' k").
Notation "m ;;m k" := (m_bind m (λ _, k))
  (at level 100, k at level 200, right associativity,
   format "m  ;;m  '/' k").

(** [for x in l: body x] *)
Fixpoint m_for {K S A} (l : list A) (body : A → method K S unit) : method K S unit :=
  match l with
  | [] => m_ret tt
  | x :: l' => body x ;;m m_for l' body
  end.

(** The state a method leaves, and what it returns or raises. *)
Definition outcome {K S A} (r : result K A * S) : result K A := r.1.
Definition after {K S A} (r : result K A * S) : S := r.2.

(** Python's [collections.abc.Iterable] seen on a key object: [Some l]
    when the key is itself iterable and iterating it yields [l] (a [str]
    yields its characters), [None] when it is not (an [int]). *)
Class KeyIter (K : Type) := key_iter : K → option (list K).

Section dagraph.
Context {K : Type} {eqK : EqDecision K} {cntK : Countable K} {iterK : KeyIter K} {V : Type}.

Local Abbreviation error := (error K).
Local Abbreviation result := (result K).

(** ** class UniqueStack *)

Record UniqueStack : Type := mkUniqueStack {
  stack : list K;       (* the deque, right end first *)
  stackset : gset K;
}.

Definition with_stack (f : list K → list K) (s : UniqueStack) : UniqueStack :=
  mkUniqueStack (f (stack s)) (stackset s).
Definition with_stackset (f : gset K → gset K) (s : UniqueStack) : UniqueStack :=
  mkUniqueStack (stack s) (f (stackset s)).

(** [UniqueStack(iterable)]: [None] is the default argument; [if iterable]
    is false for [None] and for an empty list. *)
Definition UniqueStack_init (iterable : option (list K)) : result UniqueStack :=
  let self := mkUniqueStack [] ∅ in
  let self :=
    match iterable with
    | Some (x :: l) =>
        let self := with_stack (λ d, reverse (x :: l) ++ d) self in
        with_stackset (λ s, list_to_set (x :: l) ∪ s) self
    | _ => self
    end in
  if decide (length (stack self) ≠ size (stackset self))
  then Raise NotUnique
  else Return self.

Definition UniqueStack_len (self : UniqueStack) : nat := length (stack self).

Definition UniqueStack_contains (self : UniqueStack) (key : K) : bool :=
  bool_decide (key ∈ stackset self).

Definition pop : method K UniqueStack K := λ self,
  match stack self with
  | [] => (Raise IndexError, self)
  | to_return :: d =>
      let self := with_stack (λ _, d) self in
      let self := with_stackset (λ s, s ∖ {[to_return]}) self in
      (Return to_return, self)
  end.

Definition push (item : K) : method K UniqueStack unit := λ self,
  if decide (item ∈ stackset self) then (Raise NotUnique, self)
  else
    let self := with_stack (λ d, item :: d) self in
    let self := with_stackset (λ s, {[item]} ∪ s) self in
    (Return tt, self).

Definition peek (self : UniqueStack) : result K :=
  match stack self with
  | [] => Raise IndexError
  | x :: _ => Return x
  end.

(** ** class DAGraphVertex *)

Record DAGraphVertex : Type := mkVertex {
  key : K;
  value : option V;           (* [None] is Python's [None] *)
  successors : gset K;
  predecessors : gset K;
}.

Definition DAGraphVertex_init (key : K) (value : option V) : DAGraphVertex :=
  mkVertex key value ∅ ∅.

Definition with_successors (f : gset K → gset K) (v : DAGraphVertex) :=
  mkVertex (key v) (value v) (f (successors v)) (predecessors v).
Definition with_predecessors (f : gset K → gset K) (v : DAGraphVertex) :=
  mkVertex (key v) (value v) (successors v) (f (predecessors v)).

(** ** class DAGraph *)

Record DAGraph : Type := mkDAGraph {
  direct_cyclic : bool;
  vertices : gmap K DAGraphVertex;
}.

Definition DAGraph_init : DAGraph := mkDAGraph false ∅.

Definition with_direct_cyclic (b : bool) (g : DAGraph) : DAGraph :=
  mkDAGraph b (vertices g).
Definition with_vertices (f : gmap K DAGraphVertex → gmap K DAGraphVertex)
    (g : DAGraph) : DAGraph :=
  mkDAGraph (direct_cyclic g) (f (vertices g)).

Definition DAGraph_len (self : DAGraph) : nat := size (vertices self).

Definition DAGraph_contains (self : DAGraph) (key : K) : bool :=
  bool_decide (key ∈ dom (vertices self)).

(** [self.vertices[key]] *)
Definition vertex_at (self : DAGraph) (key : K) : result DAGraphVertex :=
  match vertices self !! key with
  | Some vx => Return vx
  | None => Raise (KeyError key)
  end.

Definition getitem (self : DAGraph) (key : K) : result (option V) :=
  vx ←r vertex_at self key; Return (value vx).

Definition items (self : DAGraph) : list K := elements (dom (vertices self)).

Definition add_vertex (key : K) (value : option V) : method K DAGraph unit :=
  self ←m m_get;
  if decide (key ∈ dom (vertices self)) then m_raise (DuplicateKey key)
  else m_modify (with_vertices <[key := DAGraphVertex_init key value]>).

Definition setitem (key : K) (value : option V) : method K DAGraph unit :=
  add_vertex key value.

(** [DAGraphVertex.add_edge_to], on the two vertex objects that the
    graph stores under [self_] and [other]: both statements update the
    stored objects, so that with [self_ = other] they hit the same one.  The
    receiver of the method is an entry of the dict; the state it runs on
    is therefore the graph. *)
Definition add_edge_to (self_ other : K) : method K DAGraph unit :=
  g ←m m_get;
  match vertices g !! self_, vertices g !! other with
  | Some vs, Some vo =>
      m_modify (with_vertices (alter (with_successors (λ s, {[key vo]} ∪ s)) self_)) ;;m
      m_modify (with_vertices (alter (with_predecessors (λ s, {[key vs]} ∪ s)) other))
  | None, _ => m_raise (KeyError self_)
  | _, None => m_raise (KeyError other)
  end.

Definition add_edge (dst src : K) : method K DAGraph unit :=
  self ←m m_get;
  if decide (src ∉ dom (vertices self)) then m_raise (NotPresent src)
  else if decide (dst ∉ dom (vertices self)) then m_raise (NotPresent dst)
  else
    (if decide (src = dst) then m_modify (with_direct_cyclic true) else m_ret tt) ;;m
    add_edge_to src dst.

(** One positional argument of [add_edges]: a key, or a list of keys. *)
Inductive src_arg : Type :=
  | ArgKey (k : K)
  | ArgList (ks : list K).

(** [isinstance(src, Iterable)] holds of every list, and of a key when
    [key_iter] says so. *)
Definition add_edges (dst : K) (srcs : list src_arg) : method K DAGraph unit :=
  m_for srcs (λ src,
    match src with
    | ArgList es => m_for es (λ e, add_edge dst e)
    | ArgKey k =>
        match key_iter k with
        | Some es => m_for es (λ e, add_edge dst e)
        | None => add_edge dst k
        end
    end).

(** *** Traversal queries *)

Fixpoint all_successors_loop (fuel : nat) (self : DAGraph)
    (stk : list K) (succs : gset K) : result (gset K) :=
  match stk with
  | [] => Return succs
  | elem :: stk' =>
      match fuel with
      | 0 => OutOfFuel
      | S fuel' =>
          vx ←r vertex_at self elem;
          all_successors_loop fuel' self
            (reverse (elements (successors vx)) ++ stk') ({[elem]} ∪ succs)
      end
  end.

Definition get_all_successors (fuel : nat) (self : DAGraph) (key : K)
    : result (list K) :=
  vx ←r vertex_at self key;
  succs ←r all_successors_loop fuel self (reverse (elements (successors vx))) ∅;
  Return (elements succs).

Definition get_direct_successors (self : DAGraph) (key : K) : result (list K) :=
  vx ←r vertex_at self key; Return (elements (successors vx)).

Definition get_direct_predecessors (self : DAGraph) (key : K) : result (list K) :=
  vx ←r vertex_at self key; Return (elements (predecessors vx)).

Fixpoint all_predecessors_loop (fuel : nat) (self : DAGraph)
    (stk : list K) (deps : gset K) : result (gset K) :=
  match stk with
  | [] => Return deps
  | elem :: stk' =>
      match fuel with
      | 0 => OutOfFuel
      | S fuel' =>
          vx ←r vertex_at self elem;
          all_predecessors_loop fuel' self
            (reverse (elements (predecessors vx)) ++ stk') ({[elem]} ∪ deps)
      end
  end.

Definition get_all_predecessors (fuel : nat) (self : DAGraph) (key : K)
    : result (list K) :=
  vx ←r vertex_at self key;
  deps ←r all_predecessors_loop fuel self (reverse (elements (predecessors vx))) ∅;
  Return (elements deps).

(** *** Tarjan's strongly connected components *)

(** The variables that [strongconnect] shares with [tarjans] through
    [nonlocal]. *)
Record tarjan_state : Type := mkTarjan {
  node_st : gmap K (nat * nat);     (* key ↦ (index, low-link) *)
  idx : nat;
  tstack : UniqueStack;             (* the local [stack] *)
  scc_list : list (list K);
}.

Definition with_node_st (f : gmap K (nat * nat) → gmap K (nat * nat))
    (st : tarjan_state) : tarjan_state :=
  mkTarjan (f (node_st st)) (idx st) (tstack st) (scc_list st).
Definition with_idx (f : nat → nat) (st : tarjan_state) : tarjan_state :=
  mkTarjan (node_st st) (f (idx st)) (tstack st) (scc_list st).
Definition with_tstack (s : UniqueStack) (st : tarjan_state) : tarjan_state :=
  mkTarjan (node_st st) (idx st) s (scc_list st).
Definition with_scc_list (f : list (list K) → list (list K))
    (st : tarjan_state) : tarjan_state :=
  mkTarjan (node_st st) (idx st) (tstack st) (f (scc_list st)).

(** A method of the stack, run on the stack of the state. *)
Definition on_stack {A} (m : method K UniqueStack A) : method K tarjan_state A :=
  λ st, let '(r, s) := m (tstack st) in (r, with_tstack s st).

(** [node_st[k]] *)
Definition node_at (k : K) : method K tarjan_state (nat * nat) := λ st,
  match node_st st !! k with
  | Some p => (Return p, st)
  | None => (Raise (KeyError k), st)
  end.

Definition m_lift {S A} (r : result A) : method K S A := λ s, (r, s).

(** [while True: w = stack.pop(); scc.append(w); if w == v: break].
    Every round pops, so [fuel] above the height of the stack is never
    used up. *)
Fixpoint pop_scc (fuel : nat) (v : K) (scc : list K) : method K tarjan_state (list K) :=
  match fuel with
  | 0 => m_lift OutOfFuel
  | S fuel' =>
      w ←m on_stack pop;
      let scc := scc ++ [w] in
      if decide (w = v) then m_ret scc else pop_scc fuel' v scc
  end.

(** The body of [for w in self.vertices[v].successors], with the
    recursive call as [strongconnect]. *)
Definition visit_successor (strongconnect : K → method K tarjan_state unit)
    (v w : K) : method K tarjan_state unit :=
  st ←m m_get;
  if decide (w ∉ dom (node_st st)) then
    strongconnect w ;;m
    p ←m node_at v;
    q ←m node_at w;
    let '(v_idx, v_ll) := p in
    let '(w_idx, w_ll) := q in
    m_modify (with_node_st <[v := (v_idx, v_ll `min` w_ll)]>)
  else if UniqueStack_contains (tstack st) w then
    p ←m node_at v;
    q ←m node_at w;
    let '(v_idx, v_ll) := p in
    let '(w_idx, w_ll) := q in
    m_modify (with_node_st <[v := (v_idx, v_ll `min` w_idx)]>)
  else m_ret tt.

(** The end of [strongconnect]: [v] closes a component when its low-link
    is its own index. *)
Definition close_component (v : K) : method K tarjan_state unit :=
  p ←m node_at v;
  let '(v_idx, v_ll) := p in
  if decide (v_idx = v_ll) then
    st ←m m_get;
    scc ←m pop_scc (S (UniqueStack_len (tstack st))) v [];
    m_modify (with_scc_list (λ l, l ++ [scc]))
  else m_ret tt.

Fixpoint strongconnect (depth : nat) (self : DAGraph) (v : K)
    : method K tarjan_state unit :=
  match depth with
  | 0 => m_raise RecursionError
  | S depth' =>
      m_modify (λ st, with_node_st <[v := (idx st, idx st)]> st) ;;m
      m_modify (with_idx S) ;;m
      on_stack (push v) ;;m
      vx ←m m_lift (vertex_at self v);
      m_for (elements (successors vx))
        (visit_successor (strongconnect depth' self) v) ;;m
      close_component v
  end.

(** [rng] is what [random.shuffle] does to the list in this call. *)
Definition tarjans (limit : nat) (rng : list K → list K)
    (self : DAGraph) (use_rng : bool) : result (list (list K)) :=
  stack0 ←r UniqueStack_init None;
  let st := mkTarjan ∅ 0 stack0 [] in
  let elems := elements (dom (vertices self)) in
  let elems := if use_rng then rng elems else elems in
  let run :=
    m_for elems (λ e,
      st ←m m_get;
      if decide (e ∉ dom (node_st st)) then strongconnect limit self e
      else m_ret tt) in
  _ ←r outcome (run st);
  Return (scc_list (after (run st))).

Definition is_cyclic (limit : nat) (rng : list K → list K)
    (self : DAGraph) (use_rng : bool) : result bool :=
  if direct_cyclic self then Return true
  else
    sccs ←r tarjans limit rng self use_rng;
    Return (bool_decide (length sccs ≠ DAGraph_len self)).

End dagraph.

Arguments UniqueStack K {_ _}.
Arguments DAGraphVertex K {_ _} V.
Arguments DAGraph K {_ _} V.
Arguments tarjan_state K {_ _}.
Arguments src_arg K : clear implicits.
Arguments DAGraph_init {K _ _ V}.

(** ** The notions the properties are stated with *)

Section notions.
Context {K : Type} {eqK : EqDecision K} {cntK : Countable K} {iterK : KeyIter K} {V : Type}.
Implicit Types (g : DAGraph K V) (s : UniqueStack K).

(** The adjacency sets of a key; empty for a key that is not in the graph. *)
Definition succs_of g (k : K) : gset K :=
  match vertices g !! k with Some vx => successors vx | None => ∅ end.
Definition preds_of g (k : K) : gset K :=
  match vertices g !! k with Some vx => predecessors vx | None => ∅ end.

(** [edge g a b]: the graph has the edge a → b. *)
Definition edge g (a b : K) : Prop := b ∈ succs_of g a.
(** The same edge seen from its target: [back_edge g b a]. *)
Definition back_edge g (b a : K) : Prop := a ∈ preds_of g b.

#[export] Instance edge_dec g a b : Decision (edge g a b).
Proof. unfold edge. apply _. Defined.

Definition has_self_loop g : Prop := ∃ k, edge g k k.
Definition no_edges g : Prop := ∀ a b, ¬ edge g a b.

(** What every graph built through the methods satisfies. *)
Record graph_inv g : Prop := mk_graph_inv {
  inv_key : ∀ k vx, vertices g !! k = Some vx → key vx = k;
  inv_sym : ∀ a b, a ∈ dom (vertices g) → b ∈ dom (vertices g) →
              (b ∈ succs_of g a ↔ a ∈ preds_of g b);
  inv_closed : ∀ k x, x ∈ succs_of g k ∪ preds_of g k → x ∈ dom (vertices g);
  inv_flag : direct_cyclic g = true ↔ has_self_loop g;
}.

(** The graphs a caller can build: any sequence of calls, failed ones
    included, from the empty graph. *)
Inductive built : DAGraph K V → Prop :=
  | built_init : built DAGraph_init
  | built_add_vertex g k v : built g → built (after (add_vertex k v g))
  | built_setitem g k v : built g → built (after (setitem k v g))
  | built_add_edge g dst src : built g → built (after (add_edge dst src g))
  | built_add_edges g dst srcs : built g → built (after (add_edges dst srcs g)).

(** A call of one of the mutating methods, and a sequence of them. *)
Inductive call : Type :=
  | AddVertex (k : K) (v : option V)
  | SetItem (k : K) (v : option V)
  | AddEdge (dst src : K)
  | AddEdges (dst : K) (srcs : list (src_arg K)).

Definition perform (c : call) : method K (DAGraph K V) unit :=
  match c with
  | AddVertex k v => add_vertex k v
  | SetItem k v => setitem k v
  | AddEdge dst src => add_edge dst src
  | AddEdges dst srcs => add_edges dst srcs
  end.

Definition build (cs : list call) (g : DAGraph K V) : DAGraph K V :=
  foldl (λ g c, after (perform c g)) g cs.

Definition stack_inv s : Prop :=
  stackset s = list_to_set (stack s) ∧ NoDup (stack s).

(** The keys [add_edges] hands to [add_edge] for one argument, in order. *)
Definition arg_keys (src : src_arg K) : list K :=
  match src with
  | ArgList es => es
  | ArgKey k => match key_iter k with Some es => es | None => [k] end
  end.

(** Mutual reachability, the relation whose classes are the strongly
    connected components. *)
Definition mutual g (a b : K) : Prop := rtc (edge g) a b ∧ rtc (edge g) b a.

(** No cycle can be reached from [k]. *)
Definition acyclic_from g (k : K) : Prop :=
  ∀ x, rtc (edge g) k x → ¬ tc (edge g) x x.
(** No cycle can reach [k]. *)
Definition acyclic_to g (k : K) : Prop :=
  ∀ x, rtc (edge g) x k → ¬ tc (edge g) x x.

(** The loop of the two transitive queries, over either adjacency. *)
Fixpoint walk (adj : K → result K (gset K)) (fuel : nat)
    (stk : list K) (acc : gset K) : result K (gset K) :=
  match stk with
  | [] => Return acc
  | elem :: stk' =>
      match fuel with
      | 0 => OutOfFuel
      | S fuel' =>
          nb ←r adj elem;
          walk adj fuel' (reverse (elements nb) ++ stk') ({[elem]} ∪ acc)
      end
  end.

Definition succ_adj g (k : K) : result K (gset K) :=
  vx ←r vertex_at g k; Return (successors vx).
Definition pred_adj g (k : K) : result K (gset K) :=
  vx ←r vertex_at g k; Return (predecessors vx).

(** One step of [walk]: from a key to a member of its adjacency set. *)
Definition step (adj : K → result K (gset K)) (a b : K) : Prop :=
  ∃ nb, adj a = Return nb ∧ b ∈ nb.

(** [x] and [y] lie in one list of [sccs]. *)
Definition together (sccs : list (list K)) (x y : K) : Prop :=
  ∃ c, c ∈ sccs ∧ x ∈ c ∧ y ∈ c.

(** [explored adj v n D]: with the key [v] on top of the work list, [n]
    rounds of [walk] later what was below it is on top and [D], the keys
    reachable from [v], have been added. *)
Definition explored (adj : K → result K (gset K)) (v : K) (n : nat) (D : gset K)
    : Prop :=
  (∀ x, x ∈ D ↔ rtc (step adj) v x) ∧
  ∀ fuel stk acc, walk adj (n + fuel) (v :: stk) acc = walk adj fuel stk (D ∪ acc).

(** The steps taken from keys that [k] reaches. *)
Definition step_from (adj : K → result K (gset K)) (k a b : K) : Prop :=
  rtc (step adj) k a ∧ step adj a b.

(** The graph after a successful [add_edge(dst, src)]. *)
Definition edge_added (vs vd : DAGraphVertex K V) dst src g : DAGraph K V :=
  mkDAGraph (if decide (src = dst) then true else direct_cyclic g)
    (alter (with_predecessors (λ ks, {[key vs]} ∪ ks)) dst
       (alter (with_successors (λ ks, {[key vd]} ∪ ks)) src (vertices g))).

End notions.

(** ** Tarjan's algorithm: the notions of its proof *)

Section tarjan_notions.
Context {K : Type} {eqK : EqDecision K} {cntK : Countable K} {V : Type}.
Implicit Types (g : DAGraph K V) (st : tarjan_state K) (v w x y : K).

(** The open path, the keys of the closed components, and the two numbers
    of a key. *)
Definition stk st : list K := stack (tstack st).
Definition done st : list K := concat (scc_list st).
Definition idx_of st x : option nat := fst <$> node_st st !! x.
Definition ll_of st x : option nat := snd <$> node_st st !! x.

(** A list of keys that is one class of mutual reachability. *)
Definition is_scc g (c : list K) : Prop :=
  c ≠ [] ∧ ∀ x, x ∈ c → ∀ y, y ∈ c ↔ mutual g x y.

(** What holds of the shared variables between any two statements. *)
Record tinv g st : Prop := mk_tinv {
  ti_stack : stack_inv (tstack st);
  ti_bound : ∀ x ix lx, node_st st !! x = Some (ix, lx) → lx ≤ ix < idx st;
  ti_visited : ∀ x, x ∈ dom (node_st st) ↔ x ∈ stk st ∨ x ∈ done st;
  ti_nodup : NoDup (stk st ++ done st);
  ti_dom : ∀ x, x ∈ dom (node_st st) → x ∈ dom (vertices g);
  ti_closed : ∀ x y, x ∈ done st → edge g x y → y ∈ done st;
  ti_sccs : ∀ c, c ∈ scc_list st → is_scc g c;
}.

(** A key whose call has returned and that is still on the stack: its
    low-link is below its index and is the index of a key on the stack
    that it reaches, and each of its successors is in a closed component
    or on the stack with an index that is not below the low-link. *)
Definition settled g st x : Prop :=
  ∃ ix lx, node_st st !! x = Some (ix, lx) ∧ lx < ix ∧
    (∃ y, y ∈ stk st ∧ idx_of st y = Some lx ∧ rtc (edge g) x y) ∧
    (∀ y, edge g x y →
       y ∈ done st ∨ (y ∈ stk st ∧ ∃ iy, idx_of st y = Some iy ∧ lx ≤ iy)).

(** The state in which a call [strongconnect(v)] made in [st] returns. *)
Record sc_post g v st st' : Prop := mk_sc_post {
  sp_inv : tinv g st';
  sp_ext : node_st st ⊆ node_st st';
  sp_idx : idx st < idx st';
  sp_new : ∀ x, x ∈ dom (node_st st') → x ∉ dom (node_st st) →
             rtc (edge g) v x ∧ ∃ ix, idx_of st' x = Some ix ∧ idx st ≤ ix;
  sp_v : idx_of st' v = Some (idx st);
  sp_sccs : ∃ newL, scc_list st' = scc_list st ++ newL;
  sp_case :
    (stk st' = stk st ∧ ll_of st' v = Some (idx st)) ∨
    (∃ above lv, stk st' = above ++ v :: stk st ∧
       ll_of st' v = Some lv ∧ lv < idx st ∧
       ∀ x, x ∈ above ++ [v] →
         rtc (edge g) v x ∧ settled g st' x ∧
         ∃ lx, ll_of st' x = Some lx ∧ lv ≤ lx);
}.

(** The state between two rounds of the loop of [strongconnect(v)], which
    was called in [st0]: [above] is what lies over [v] on the stack, [lv]
    the low-link of [v], [seen] the successors looked at so far. *)
Record loop_inv g v st0 (above : list K) (lv : nat) st (seen : list K) : Prop :=
  mk_loop_inv {
  li_inv : tinv g st;
  li_ext : node_st st0 ⊆ node_st st;
  li_idx : idx st0 < idx st;
  li_new : ∀ x, x ∈ dom (node_st st) → x ∉ dom (node_st st0) →
             rtc (edge g) v x ∧ ∃ ix, idx_of st x = Some ix ∧ idx st0 ≤ ix;
  li_v : node_st st !! v = Some (idx st0, lv);
  li_sccs : ∃ newL, scc_list st = scc_list st0 ++ newL;
  li_stk : stk st = above ++ v :: stk st0;
  li_above : ∀ x, x ∈ above →
               rtc (edge g) v x ∧ settled g st x ∧
               ∃ lx, ll_of st x = Some lx ∧ lv ≤ lx;
  li_low : ∃ y, y ∈ stk st ∧ idx_of st y = Some lv ∧ rtc (edge g) v y;
  li_seen : ∀ w, w ∈ seen →
              w ∈ done st ∨ (w ∈ stk st ∧ ∃ iw, idx_of st w = Some iw ∧ lv ≤ iw);
}.

(** The state [strongconnect(v)] starts its loop in. *)
Definition entered v st : tarjan_state K :=
  mkTarjan (<[v := (idx st, idx st)]> (node_st st)) (S (idx st))
    (mkUniqueStack (v :: stk st) ({[v]} ∪ stackset (tstack st))) (scc_list st).

(** [node_st[v] = (v_idx, l)] *)
Definition relinked v (p : nat * nat) st : tarjan_state K :=
  with_node_st <[v := p]> st.

(** How a call [strongconnect(v)] made in [st] with [depth] nested calls
    allowed ends: it returns in a state described by [sc_post], or there
    are more keys not yet visited than calls allowed and it raises
    [RecursionError]. *)
Definition sc_ends g depth v st : Prop :=
  (∃ st', strongconnect depth g v st = (Return tt, st') ∧ sc_post g v st st') ∨
  (depth < size (dom (vertices g) ∖ dom (node_st st)) ∧
   ∃ st', strongconnect depth g v st = (Raise RecursionError, st')).

(** The body of [for e in elems] in [tarjans]. *)
Definition root g (limit : nat) (e : K) : method K (tarjan_state K) unit :=
  st ←m m_get;
  if decide (e ∉ dom (node_st st)) then strongconnect limit g e else m_ret tt.

(** What [tarjans] returns on a graph that satisfies the invariant. *)
Definition components g (sccs : list (list K)) : Prop :=
  NoDup (concat sccs) ∧
  (∀ x, x ∈ concat sccs ↔ x ∈ dom (vertices g)) ∧
  ∀ c, c ∈ sccs → is_scc g c.

End tarjan_notions.


(** ** Key types of the tests: [str] and [int] *)

(** Iterating a [str] yields its characters, each a [str] of length one. *)
Fixpoint chars (s : string) : list string :=
  match s with
  | EmptyString => []
  | String c s' => String c EmptyString :: chars s'
  end.

#[export] Instance string_key_iter : KeyIter string := λ s, Some (chars s).

#[export] Instance Z_key_iter : KeyIter Z := λ _, None.

(** The graphs of the examples; the payload is never looked at. *)
Definition vertex (k : string) : call (K:=string) (V:=unit) := AddVertex k None.

(** a → b → c and a → c: no cycle. *)
Definition g_dag : DAGraph string unit :=
  build [vertex "a"; vertex "b"; vertex "c";
         AddEdge "b" "a"; AddEdge "c" "b"; AddEdge "c" "a"] DAGraph_init.

(** a → b → c → a, as in [test_simple_cyclic]. *)
Definition g_cycle : DAGraph string unit :=
  build [vertex "a"; vertex "b"; vertex "c";
         AddEdge "b" "a"; AddEdge "c" "b"; AddEdge "a" "c"] DAGraph_init.

(** a → b → a. *)
Definition g_two : DAGraph string unit :=
  build [vertex "a"; vertex "b"; AddEdge "b" "a"; AddEdge "a" "b"] DAGraph_init.

(** a → a, as in [test_simple_errors]. *)
Definition g_loop : DAGraph string unit :=
  build [vertex "a"; AddEdge "a" "a"] DAGraph_init.

(** a → b → d and a → c → d: no cycle, two paths to d. *)
Definition g_diamond : DAGraph string unit :=
  build [vertex "a"; vertex "b"; vertex "c"; vertex "d";
         AddEdge "b" "a"; AddEdge "c" "a"; AddEdge "d" "b"; AddEdge "d" "c"]
    DAGraph_init.

(** Three vertices whose keys are "a", "b" and "ab", no edge. *)
Definition g_ab : DAGraph string unit :=
  build [vertex "a"; vertex "b"; vertex "ab"] DAGraph_init.

(** Two of the keys of [test_c_source]. *)
Definition g_build : DAGraph string unit :=
  build [vertex "binary"; vertex "source1.o"] DAGraph_init.

(** A ranking of the keys of [g_dag] that every edge lowers. *)
Definition rank_dag (k : string) : nat :=
  if decide (k = "a") then 2 else if decide (k = "b") then 1 else 0.

(** The stack holding "a" below "b". *)
Definition s_ab : UniqueStack string := mkUniqueStack ["b"; "a"] {["a"; "b"]}.

Ltac by_compute :=
  lazymatch goal with
  | |- ?G => apply (bool_decide_unpack G); vm_compute; exact I
  end.

(** ** Notions of the further properties *)

Section more_notions.
Context {K : Type} {eqK : EqDecision K} {cntK : Countable K} {V : Type}.
Implicit Types (g : DAGraph K V).

(** [g'] has everything [g] has: its keys with their values, its edges,
    and the self-loop flag if it was set. *)
Definition grows g g' : Prop :=
  (∀ k, DAGraph_contains g k = true →
        DAGraph_contains g' k = true ∧ getitem g' k = getitem g k) ∧
  (∀ a b, edge g a b → edge g' a b) ∧
  (direct_cyclic g = true → direct_cyclic g' = true).

(** Every edge that leaves a list of [sccs] stays in it or leads into a
    list before it. *)
Definition dependencies_first g (sccs : list (list K)) : Prop :=
  ∀ before c later x y,
    sccs = before ++ c :: later → x ∈ c → edge g x y →
    y ∈ c ∨ y ∈ concat before.

(** The keys of the lists up to any place of [sccs] are closed under the
    edges: what [tarjans] has closed so far never points to a key that is
    not closed yet. *)
Definition prefix_closed g (sccs : list (list K)) : Prop :=
  ∀ before later x y,
    sccs = before ++ later → x ∈ concat before → edge g x y → y ∈ concat before.

(** From [v] the only way on is along [path]: every key has the next one
    as its only successor. *)
Fixpoint only_path g (v : K) (path : list K) : Prop :=
  match path with
  | [] => True
  | w :: path' => succs_of g v = {[w]} ∧ only_path g w path'
  end.

End more_notions.

(** * Properties *)

Section mutation.
Context {K : Type} {eqK : EqDecision K} {cntK : Countable K} {iterK : KeyIter K} {V : Type}.
Implicit Types (g : DAGraph K V) (s : UniqueStack K) (k dst src : K).

(** ** The unique stack *)

Lemma size_list_to_set_le (l : list K) : size (list_to_set (C:=gset K) l) ≤ length l.
Proof.
  induction l as [|x l IH].
  - by rewrite list_to_set_nil, size_empty.
  - rewrite list_to_set_cons. cbn [length]. rewrite size_union_alt.
    rewrite size_singleton.
    assert (size (list_to_set (C:=gset K) l ∖ {[x]}) ≤ size (list_to_set (C:=gset K) l))
      by (apply subseteq_size; set_solver).
    lia.
Qed.

Lemma size_list_to_set_NoDup (l : list K) :
  size (list_to_set (C:=gset K) l) = length l ↔ NoDup l.
Proof.
  split; [|apply size_list_to_set].
  induction l as [|x l IH]; [constructor|].
  rewrite list_to_set_cons. cbn [length].
  intros Hsz. pose proof (size_list_to_set_le l) as Hle.
  destruct (decide (x ∈ l)) as [Hin|Hin].
  - replace ({[x]} ∪ list_to_set l) with (list_to_set (C:=gset K) l) in Hsz
      by (apply set_eq; set_solver).
    lia.
  - rewrite size_union in Hsz by set_solver.
    rewrite size_singleton in Hsz.
    constructor; [done|]. apply IH. lia.
Qed.

Lemma push_fresh s x :
  x ∉ stackset s →
  push x s = (Return tt, mkUniqueStack (x :: stack s) ({[x]} ∪ stackset s)).
Proof. intros Hx. unfold push. by rewrite decide_False. Qed.

Lemma push_present s x : x ∈ stackset s → push x s = (Raise NotUnique, s).
Proof. intros Hx. unfold push. by rewrite decide_True. Qed.

Lemma stack_inv_elem s x : stack_inv s → x ∈ stackset s ↔ x ∈ stack s.
Proof. intros [-> _]. apply elem_of_list_to_set. Qed.

Lemma stack_inv_push s x : stack_inv s → stack_inv (after (push x s)).
Proof.
  intros Hs. destruct (decide (x ∈ stackset s)) as [Hx|Hx].
  - by rewrite push_present.
  - rewrite push_fresh by done. destruct Hs as [Hset Hnd]. split; simpl.
    + by rewrite Hset.
    + constructor; [|done]. rewrite Hset in Hx. by rewrite elem_of_list_to_set in Hx.
Qed.

Lemma stack_inv_pop s : stack_inv s → stack_inv (after (pop s)).
Proof.
  intros [Hset Hnd]. unfold pop. destruct (stack s) as [|x d] eqn:Hd; simpl.
  - split; [by rewrite Hd|by rewrite Hd].
  - apply NoDup_cons in Hnd as [Hx Hnd]. split; simpl; [|done].
    rewrite Hset. simpl. apply set_eq. intros y.
    rewrite elem_of_difference, elem_of_union, elem_of_singleton, !elem_of_list_to_set.
    split; [naive_solver|]. intros Hy. split; [by right|]. by intros ->.
Qed.

Lemma UniqueStack_init_Some (l : list K) :
  UniqueStack_init (Some l) =
    if decide (NoDup l) then Return (mkUniqueStack (reverse l) (list_to_set l))
    else Raise NotUnique.
Proof.
  unfold UniqueStack_init, with_stack, with_stackset. destruct l as [|x l].
  - cbn [stack stackset length]. rewrite size_empty, decide_False by lia.
    by rewrite decide_True by constructor.
  - cbn [stack stackset].
    rewrite app_nil_r, length_reverse, union_empty_r_L.
    destruct (decide (NoDup (x :: l))) as [Hnd|Hnd].
    + rewrite decide_False; [done|]. rewrite size_list_to_set by done. lia.
    + rewrite decide_True; [done|]. intros Heq. apply Hnd.
      by apply size_list_to_set_NoDup.
Qed.

(** C8: the membership set mirrors the sequence and the elements are
    distinct; [push] and [pop] keep it so; [push] of an element that is
    present raises and leaves the stack as it was; building the stack from
    a sequence with a repeated element raises, and from one without
    repeats gives the stack of that sequence. *)
Theorem C8_unique_stack_invariant s x :
  stack_inv s →
  stack_inv (after (push x s)) ∧
  stack_inv (after (pop s)) ∧
  (x ∈ stack s → push x s = (Raise NotUnique, s)) ∧
  (x ∉ stack s →
     push x s = (Return tt, mkUniqueStack (x :: stack s) ({[x]} ∪ stackset s))) ∧
  (∀ l : list K, ¬ NoDup l → UniqueStack_init (Some l) = Raise NotUnique) ∧
  (∀ l : list K, NoDup l →
     ∃ s', UniqueStack_init (Some l) = Return s' ∧ stack_inv s' ∧
           stack s' = reverse l) ∧
  (∃ s', UniqueStack_init None = Return s' ∧ stack_inv s' ∧ stack s' = []).
Proof.
  intros Hs. split_and!.
  - by apply stack_inv_push.
  - by apply stack_inv_pop.
  - intros Hx. apply push_present. by apply stack_inv_elem.
  - intros Hx. apply push_fresh. by rewrite stack_inv_elem.
  - intros l Hl. rewrite UniqueStack_init_Some. by rewrite decide_False.
  - intros l Hl. rewrite UniqueStack_init_Some, decide_True by done.
    eexists; split; [done|]. split; [|done]. split; simpl.
    + apply set_eq. intros y. by rewrite !elem_of_list_to_set, elem_of_reverse.
    + by rewrite reverse_Permutation.
  - eexists. split; [reflexivity|]. split; [|done]. split; [done|constructor].
Qed.

(** ** Vertices and edges *)

Lemma add_vertex_present g k v :
  k ∈ dom (vertices g) → add_vertex k v g = (Raise (DuplicateKey k), g).
Proof. intros Hk. unfold add_vertex, m_bind, m_get. by rewrite decide_True. Qed.

Lemma add_vertex_absent g k v :
  k ∉ dom (vertices g) →
  add_vertex k v g =
    (Return tt, mkDAGraph (direct_cyclic g) (<[k := mkVertex k v ∅ ∅]> (vertices g))).
Proof. intros Hk. unfold add_vertex, m_bind, m_get. by rewrite decide_False. Qed.

Lemma add_edge_no_src g dst src :
  src ∉ dom (vertices g) → add_edge dst src g = (Raise (NotPresent src), g).
Proof. intros Hk. unfold add_edge, m_bind, m_get. by rewrite decide_True. Qed.

Lemma add_edge_no_dst g dst src :
  src ∈ dom (vertices g) → dst ∉ dom (vertices g) →
  add_edge dst src g = (Raise (NotPresent dst), g).
Proof.
  intros Hs Hd. unfold add_edge, m_bind, m_get.
  rewrite decide_False by (by intros ?). by rewrite decide_True.
Qed.

Lemma add_edge_present g dst src vs vd :
  vertices g !! src = Some vs → vertices g !! dst = Some vd →
  add_edge dst src g = (Return tt, edge_added vs vd dst src g).
Proof.
  intros Hs Hd. unfold add_edge, m_bind, m_get.
  rewrite decide_False by (intros Hn; apply Hn, elem_of_dom; eauto).
  rewrite decide_False by (intros Hn; apply Hn, elem_of_dom; eauto).
  unfold edge_added, add_edge_to, m_bind, m_get, m_modify, m_ret.
  destruct (decide (src = dst)) as [->|Hne];
    cbn [with_direct_cyclic with_vertices vertices direct_cyclic];
    rewrite ?Hs, ?Hd; cbn [with_direct_cyclic with_vertices vertices direct_cyclic].
  all: by simplify_eq.
Qed.

Section edge_added.
Context g dst src vs vd
  (Hs : vertices g !! src = Some vs) (Hd : vertices g !! dst = Some vd)
  (Hks : key vs = src) (Hkd : key vd = dst).

Lemma edge_added_dom : dom (vertices (edge_added vs vd dst src g)) = dom (vertices g).
Proof using Type.
  clear. unfold edge_added. cbn [vertices]. by rewrite !dom_alter_L. Qed.

Lemma edge_added_succs k :
  succs_of (edge_added vs vd dst src g) k =
    if decide (k = src) then {[dst]} ∪ succs_of g k else succs_of g k.
Proof using Hs Hd Hks Hkd.
  unfold succs_of, edge_added. cbn [vertices]. rewrite !lookup_alter, Hkd.
  clear Hks Hkd.
  repeat case_decide; simplify_eq; rewrite ?Hs, ?Hd; try done.
  all: by destruct (vertices g !! _).
Qed.

Lemma edge_added_preds k :
  preds_of (edge_added vs vd dst src g) k =
    if decide (k = dst) then {[src]} ∪ preds_of g k else preds_of g k.
Proof using Hs Hd Hks Hkd.
  unfold preds_of, edge_added. cbn [vertices]. rewrite !lookup_alter, Hks.
  clear Hks Hkd.
  repeat case_decide; simplify_eq; rewrite ?Hs, ?Hd; try done.
  all: by destruct (vertices g !! _).
Qed.

Lemma edge_added_key k vx :
  vertices (edge_added vs vd dst src g) !! k = Some vx →
  ∃ vx', vertices g !! k = Some vx' ∧ key vx = key vx'.
Proof using Hs Hd.
  clear Hks Hkd. unfold edge_added. cbn [vertices]. rewrite !lookup_alter.
  repeat case_decide; simplify_eq; rewrite ?Hs, ?Hd; cbn; intros; simplify_eq; eauto.
Qed.
End edge_added.

Lemma graph_inv_init : graph_inv (DAGraph_init (K:=K) (V:=V)).
Proof.
  split.
  - intros k vx. cbn. by rewrite lookup_empty.
  - intros a b Ha. cbn in Ha. by rewrite dom_empty_L in Ha.
  - intros k x. unfold succs_of, preds_of. cbn. rewrite lookup_empty. set_solver.
  - split; [done|]. intros [k Hk]. unfold edge, succs_of in Hk. cbn in Hk.
    rewrite lookup_empty in Hk. set_solver.
Qed.

Lemma succs_of_insert g k vx k' :
  succs_of (mkDAGraph (direct_cyclic g) (<[k := vx]> (vertices g))) k' =
    if decide (k = k') then successors vx else succs_of g k'.
Proof. unfold succs_of. cbn. rewrite lookup_insert. by case_decide. Qed.

Lemma preds_of_insert g k vx k' :
  preds_of (mkDAGraph (direct_cyclic g) (<[k := vx]> (vertices g))) k' =
    if decide (k = k') then predecessors vx else preds_of g k'.
Proof. unfold preds_of. cbn. rewrite lookup_insert. by case_decide. Qed.

Lemma succs_of_absent g k : k ∉ dom (vertices g) → succs_of g k = ∅.
Proof. intros Hk. apply not_elem_of_dom in Hk. unfold succs_of. by rewrite Hk. Qed.
Lemma preds_of_absent g k : k ∉ dom (vertices g) → preds_of g k = ∅.
Proof. intros Hk. apply not_elem_of_dom in Hk. unfold preds_of. by rewrite Hk. Qed.

Lemma graph_inv_add_vertex g k v : graph_inv g → graph_inv (after (add_vertex k v g)).
Proof.
  intros Hg. destruct (decide (k ∈ dom (vertices g))) as [Hk|Hk].
  { by rewrite add_vertex_present. }
  rewrite add_vertex_absent by done. cbn [after snd].
  assert (∀ x, k ∉ succs_of g x ∪ preds_of g x) as Hfresh.
  { intros x Hx. by apply (inv_closed _ Hg) in Hx. }
  split.
  - intros k' vx. cbn. rewrite lookup_insert. case_decide; [by intros [= <-]|].
    apply (inv_key _ Hg).
  - intros a b. cbn [vertices]. rewrite dom_insert_L, !succs_of_insert, !preds_of_insert.
    intros Ha Hb. repeat case_decide; simplify_eq; cbn.
    + done.
    + split; [set_solver|]. intros Hin. destruct (Hfresh b). set_solver.
    + split; [|set_solver]. intros Hin. destruct (Hfresh a). set_solver.
    + apply (inv_sym _ Hg); set_solver.
  - intros k' x. cbn [vertices]. rewrite dom_insert_L, succs_of_insert, preds_of_insert.
    case_decide; cbn; [set_solver|]. intros Hx. apply (inv_closed _ Hg) in Hx. set_solver.
  - cbn [direct_cyclic]. rewrite (inv_flag _ Hg). unfold has_self_loop, edge.
    split; intros [x Hx]; exists x.
    + rewrite succs_of_insert. case_decide; [|done]. subst.
      rewrite succs_of_absent in Hx by done. set_solver.
    + rewrite succs_of_insert in Hx. case_decide; [set_solver|done].
Qed.

Lemma graph_inv_add_edge g dst src : graph_inv g → graph_inv (after (add_edge dst src g)).
Proof.
  intros Hg. destruct (decide (src ∈ dom (vertices g))) as [Hs|Hs];
    [|by rewrite add_edge_no_src].
  destruct (decide (dst ∈ dom (vertices g))) as [Hd|Hd];
    [|by rewrite add_edge_no_dst].
  pose proof Hs as Hs'. pose proof Hd as Hd'.
  apply elem_of_dom in Hs as [vs Hs]. apply elem_of_dom in Hd as [vd Hd].
  rewrite (add_edge_present _ _ _ _ _ Hs Hd). cbn [after snd].
  pose proof (inv_key _ Hg _ _ Hs) as Hks. pose proof (inv_key _ Hg _ _ Hd) as Hkd.
  split.
  - intros k vx Hk. apply (edge_added_key _ _ _ _ _ Hs Hd) in Hk as (vx' & Hk & ->).
    by apply (inv_key _ Hg k).
  - intros a b. rewrite edge_added_dom. intros Ha Hb.
    rewrite (edge_added_succs _ _ _ _ _ Hs Hd Hks Hkd),
            (edge_added_preds _ _ _ _ _ Hs Hd Hks Hkd).
    pose proof (inv_sym _ Hg a b Ha Hb).
    repeat case_decide; simplify_eq; set_solver.
  - intros k x. rewrite edge_added_dom.
    rewrite (edge_added_succs _ _ _ _ _ Hs Hd Hks Hkd),
            (edge_added_preds _ _ _ _ _ Hs Hd Hks Hkd).
    pose proof (inv_closed _ Hg k x).
    repeat case_decide; simplify_eq; set_solver.
  - unfold has_self_loop, edge. cbn [edge_added direct_cyclic].
    pose proof (inv_flag _ Hg) as Hf. unfold has_self_loop, edge in Hf.
    split.
    + case_decide as Heq.
      * intros _. exists src. rewrite (edge_added_succs _ _ _ _ _ Hs Hd Hks Hkd).
        rewrite decide_True by done. set_solver.
      * intros [k Hk]%Hf. exists k. rewrite (edge_added_succs _ _ _ _ _ Hs Hd Hks Hkd).
        case_decide; set_solver.
    + intros [k Hk]. rewrite (edge_added_succs _ _ _ _ _ Hs Hd Hks Hkd) in Hk.
      destruct (decide (src = dst)) as [Heq|Heq]; [done|]. apply Hf. exists k.
      destruct (decide (k = src)) as [->|]; [|done]. set_solver.
Qed.

Lemma m_for_after {S A} (P : S → Prop) (l : list A) (body : A → method K S unit) :
  (∀ x st, P st → P (after (body x st))) →
  ∀ st, P st → P (after (m_for l body st)).
Proof.
  intros Hbody. induction l as [|x l IH]; intros st Hst; [done|].
  cbn [m_for]. unfold m_bind. specialize (Hbody x st Hst).
  destruct (body x st) as [[[]| |] st']; cbn in *; auto.
Qed.

Lemma m_for_app {S A} (l1 l2 : list A) (body : A → method K S unit) st :
  m_for (l1 ++ l2) body st = (m_for l1 body ;;m m_for l2 body) st.
Proof.
  revert st. induction l1 as [|x l1 IH]; intros st; cbn [app m_for]; [done|].
  unfold m_bind. by destruct (body x st) as [[[]| |] st'].
Qed.

Lemma m_for_singleton {S A} (x : A) (body : A → method K S unit) st :
  m_for [x] body st = body x st.
Proof. cbn. unfold m_bind, m_ret. by destruct (body x st) as [[[]| |] ?]. Qed.

Lemma add_edges_flat dst (srcs : list (src_arg K)) g :
  add_edges dst srcs g = m_for (concat (arg_keys <$> srcs)) (add_edge dst) g.
Proof.
  unfold add_edges. revert g. induction srcs as [|src srcs IH]; intros g; [done|].
  cbn [m_for fmap list_fmap concat]. rewrite m_for_app. unfold m_bind.
  replace (match src with
      | ArgKey k => match key_iter k with
                    | Some es => m_for es (λ e, add_edge dst e)
                    | None => add_edge dst k
                    end
      | ArgList es => m_for es (λ e, add_edge dst e)
      end g) with (m_for (arg_keys src) (add_edge dst) g).
  - destruct (m_for (arg_keys src) (add_edge dst) g) as [[[]| |] g']; [|done|done].
    apply IH.
  - destruct src as [k|es]; cbn; [|done]. destruct (key_iter k); [done|].
    apply m_for_singleton.
Qed.

Lemma add_edges_list dst (es : list K) g :
  add_edges dst [ArgList es] g = m_for es (add_edge dst) g.
Proof. rewrite add_edges_flat. cbn. by rewrite app_nil_r. Qed.

Lemma add_edges_key dst k g :
  key_iter k = None → add_edges dst [ArgKey k] g = add_edge dst k g.
Proof.
  intros Hk. rewrite add_edges_flat. cbn. rewrite Hk. cbn. apply m_for_singleton.
Qed.

Lemma built_build (cs : list (call (K:=K) (V:=V))) g : built g → built (build cs g).
Proof.
  revert g. induction cs as [|c cs IH]; intros g Hg; [done|].
  cbn. apply IH. destruct c; by constructor.
Qed.

Lemma graph_inv_add_edges g dst srcs : graph_inv g → graph_inv (after (add_edges dst srcs g)).
Proof.
  intros Hg. rewrite add_edges_flat. apply m_for_after; [|done].
  intros x st. apply graph_inv_add_edge.
Qed.

Lemma built_graph_inv g : built g → graph_inv g.
Proof.
  induction 1; auto using graph_inv_init, graph_inv_add_vertex, graph_inv_add_edge,
    graph_inv_add_edges.
Qed.

Lemma add_edge_grows g dst src :
  graph_inv g →
  ∀ k, succs_of g k ⊆ succs_of (after (add_edge dst src g)) k ∧
       preds_of g k ⊆ preds_of (after (add_edge dst src g)) k.
Proof.
  intros Hg k. destruct (decide (src ∈ dom (vertices g))) as [Hs|Hs];
    [|by rewrite add_edge_no_src].
  destruct (decide (dst ∈ dom (vertices g))) as [Hd|Hd];
    [|by rewrite add_edge_no_dst].
  apply elem_of_dom in Hs as [vs Hs]. apply elem_of_dom in Hd as [vd Hd].
  rewrite (add_edge_present _ _ _ _ _ Hs Hd). cbn [after snd].
  pose proof (inv_key _ Hg _ _ Hs) as Hks. pose proof (inv_key _ Hg _ _ Hd) as Hkd.
  rewrite (edge_added_succs _ _ _ _ _ Hs Hd Hks Hkd),
          (edge_added_preds _ _ _ _ _ Hs Hd Hks Hkd).
  repeat case_decide; set_solver.
Qed.

Lemma add_edge_returns g dst src :
  graph_inv g → outcome (add_edge dst src g) = Return tt →
  edge (after (add_edge dst src g)) src dst ∧
  back_edge (after (add_edge dst src g)) dst src.
Proof.
  intros Hg. destruct (decide (src ∈ dom (vertices g))) as [Hs|Hs];
    [|by rewrite add_edge_no_src].
  destruct (decide (dst ∈ dom (vertices g))) as [Hd|Hd];
    [|by rewrite add_edge_no_dst].
  apply elem_of_dom in Hs as [vs Hs]. apply elem_of_dom in Hd as [vd Hd].
  rewrite (add_edge_present _ _ _ _ _ Hs Hd). cbn [after snd]. intros _.
  pose proof (inv_key _ Hg _ _ Hs) as Hks. pose proof (inv_key _ Hg _ _ Hd) as Hkd.
  unfold edge, back_edge.
  rewrite (edge_added_succs _ _ _ _ _ Hs Hd Hks Hkd),
          (edge_added_preds _ _ _ _ _ Hs Hd Hks Hkd).
  rewrite !decide_True by done. set_solver.
Qed.

Lemma add_edge_raises g dst src e :
  outcome (add_edge dst src g) = Raise e → after (add_edge dst src g) = g.
Proof.
  destruct (decide (src ∈ dom (vertices g))) as [Hs|Hs];
    [|by rewrite add_edge_no_src].
  destruct (decide (dst ∈ dom (vertices g))) as [Hd|Hd];
    [|by rewrite add_edge_no_dst].
  apply elem_of_dom in Hs as [vs Hs]. apply elem_of_dom in Hd as [vd Hd].
  by rewrite (add_edge_present _ _ _ _ _ Hs Hd).
Qed.

(** Where a loop that raises stopped. *)
Lemma m_for_raises {S A} (l : list A) (body : A → method K S unit) st e :
  outcome (m_for l body st) = Raise e →
  ∃ pre x post, l = pre ++ x :: post ∧
    outcome (m_for pre body st) = Return tt ∧
    outcome (body x (after (m_for pre body st))) = Raise e ∧
    after (m_for l body st) = after (body x (after (m_for pre body st))).
Proof.
  revert st. induction l as [|x l IH]; intros st; [done|].
  cbn [m_for]. unfold m_bind.
  destruct (body x st) as [[[]| |] st'] eqn:Hx; cbn [outcome after fst snd].
  - intros (pre & y & post & -> & Hpre & Hy & Hst)%IH.
    exists (x :: pre), y, post. cbn [m_for]. unfold m_bind. rewrite Hx.
    split; [done|]. done.
  - intros [= ->]. exists [], x, l. cbn. by rewrite Hx.
  - done.
Qed.

Lemma edges_of_loop g dst (pre : list K) :
  graph_inv g → outcome (m_for pre (add_edge dst) g) = Return tt →
  ∀ x, x ∈ pre →
    edge (after (m_for pre (add_edge dst) g)) x dst ∧
    back_edge (after (m_for pre (add_edge dst) g)) dst x.
Proof.
  revert g. induction pre as [|y pre IH]; intros g Hg Hret x Hx.
  { by apply elem_of_nil in Hx. }
  cbn [m_for] in *. unfold m_bind in *.
  pose proof (graph_inv_add_edge g dst y Hg) as Hg'.
  pose proof (add_edge_returns g dst y Hg) as Hy.
  destruct (add_edge dst y g) as [[[]| |] g'] eqn:Hcall; cbn in Hret; try done.
  cbn [after snd] in *.
  assert (∀ k, succs_of g' k ⊆ succs_of (after (m_for pre (add_edge dst) g')) k ∧
               preds_of g' k ⊆ preds_of (after (m_for pre (add_edge dst) g')) k)
    as Hgrow.
  { clear -Hg'. revert g' Hg'. induction pre as [|z pre IH]; intros g' Hg' k; [done|].
    cbn [m_for]. unfold m_bind.
    pose proof (add_edge_grows g' dst z Hg' k) as [Hs Hp].
    pose proof (graph_inv_add_edge g' dst z Hg') as Hg''.
    destruct (add_edge dst z g') as [[[]| |] g''] eqn:Hcall; cbn [after snd] in *;
      [|done|done].
    destruct (IH g'' Hg'' k). split; set_solver. }
  apply elem_of_cons in Hx as [->|Hx].
  - destruct (Hy eq_refl) as [He Hb]. unfold edge, back_edge in *.
    destruct (Hgrow y), (Hgrow dst). set_solver.
  - by apply IH.
Qed.

(** C6: a call of [add_vertex] or [add_edge] that raises leaves the vertex
    map, every adjacency set and the self-loop flag as they were; a
    duplicate key makes [add_vertex] raise and an absent end makes
    [add_edge] raise. *)
Theorem C6_failed_call_leaves_graph g k v dst src :
  (∀ e, outcome (add_vertex k v g) = Raise e → after (add_vertex k v g) = g) ∧
  (∀ e, outcome (add_edge dst src g) = Raise e → after (add_edge dst src g) = g) ∧
  (k ∈ dom (vertices g) → outcome (add_vertex k v g) = Raise (DuplicateKey k)) ∧
  (src ∉ dom (vertices g) ∨ dst ∉ dom (vertices g) →
     ∃ e, outcome (add_edge dst src g) = Raise e).
Proof.
  split_and!.
  - intros e. destruct (decide (k ∈ dom (vertices g))) as [Hk|Hk].
    + by rewrite add_vertex_present.
    + by rewrite add_vertex_absent.
  - intros e. destruct (decide (src ∈ dom (vertices g))) as [Hs|Hs];
      [|by rewrite add_edge_no_src].
    destruct (decide (dst ∈ dom (vertices g))) as [Hd|Hd];
      [|by rewrite add_edge_no_dst].
    apply elem_of_dom in Hs as [vs Hs]. apply elem_of_dom in Hd as [vd Hd].
    by rewrite (add_edge_present _ _ _ _ _ Hs Hd).
  - intros Hk. by rewrite add_vertex_present.
  - destruct (decide (src ∈ dom (vertices g))) as [Hs|Hs].
    + intros [?|Hd]; [done|]. rewrite add_edge_no_dst by done. eauto.
    + intros _. rewrite add_edge_no_src by done. eauto.
Qed.

(** C9: [graph[key] = value] is [add_vertex(key, value)]: an absent key
    gets a new vertex with that value and empty adjacency sets, a present
    key raises the duplicate-key exception and nothing changes; reading
    [graph[key]] for an absent key raises [KeyError]. *)
Theorem C9_setitem_is_add_vertex g k v :
  setitem k v g = add_vertex k v g ∧
  (k ∉ dom (vertices g) →
     setitem k v g =
       (Return tt,
        mkDAGraph (direct_cyclic g) (<[k := mkVertex k v ∅ ∅]> (vertices g)))) ∧
  (k ∈ dom (vertices g) → setitem k v g = (Raise (DuplicateKey k), g)) ∧
  (k ∉ dom (vertices g) → getitem g k = Raise (KeyError k)).
Proof.
  split_and!; [done|apply add_vertex_absent|apply add_vertex_present|].
  intros Hk. apply not_elem_of_dom in Hk. unfold getitem, vertex_at. by rewrite Hk.
Qed.

(** C7: in every graph built from the empty one by [add_vertex],
    [add_edge], [add_edges] and [graph[key] = value], for any two vertices
    [vsrc] and [vdst] of the graph, [vdst.key] is in [vsrc.successors] exactly
    when [vsrc.key] is in [vdst.predecessors], and every key in an adjacency
    set is the key of a vertex of the graph. *)
Theorem C7_edge_symmetry g :
  built g →
  (∀ ks kd (vsrc vdst : DAGraphVertex K V),
     vertices g !! ks = Some vsrc → vertices g !! kd = Some vdst →
     (key vdst ∈ successors vsrc ↔ key vsrc ∈ predecessors vdst)) ∧
  (∀ k vx x,
     vertices g !! k = Some vx → x ∈ successors vx ∨ x ∈ predecessors vx →
     ∃ vx', vertices g !! x = Some vx' ∧ key vx' = x).
Proof.
  intros Hg%built_graph_inv. split.
  - intros ks kd vsrc vdst Hs Hd.
    rewrite (inv_key _ Hg _ _ Hs), (inv_key _ Hg _ _ Hd).
    pose proof (inv_sym _ Hg ks kd) as Hsym. unfold succs_of, preds_of in Hsym.
    rewrite Hs, Hd in Hsym. apply Hsym; apply elem_of_dom; eauto.
  - intros k vx x Hk Hx.
    pose proof (inv_closed _ Hg k x) as Hc. unfold succs_of, preds_of in Hc.
    rewrite Hk in Hc.
    assert (x ∈ dom (vertices g)) as [vx' Hx']%elem_of_dom by (apply Hc; set_solver).
    exists vx'. split; [done|]. by apply (inv_key _ Hg).
Qed.

(** C10: when [add_edges(dst, *srcs)] raises at some element, the edges
    added for the elements before it are in the graph the call leaves:
    nothing is rolled back. *)
Theorem C10_add_edges_keeps_earlier_edges g dst srcs err :
  built g →
  outcome (add_edges dst srcs g) = Raise err →
  ∃ pre e post,
    concat (arg_keys <$> srcs) = pre ++ e :: post ∧
    outcome (add_edge dst e (after (m_for pre (add_edge dst) g))) = Raise err ∧
    after (add_edges dst srcs g) = after (m_for pre (add_edge dst) g) ∧
    ∀ x, x ∈ pre →
      edge (after (add_edges dst srcs g)) x dst ∧
      back_edge (after (add_edges dst srcs g)) dst x.
Proof.
  intros Hg%built_graph_inv. rewrite add_edges_flat.
  intros (pre & e & post & Hsplit & Hpre & He & Hafter)%m_for_raises.
  exists pre, e, post. split; [done|]. split; [done|].
  rewrite Hafter, (add_edge_raises _ _ _ _ He). split; [done|].
  by apply edges_of_loop.
Qed.

End mutation.

Section traversal.
Context {K : Type} {eqK : EqDecision K} {cntK : Countable K} {iterK : KeyIter K} {V : Type}.
Implicit Types (g : DAGraph K V) (k : K) (stk : list K) (acc : gset K).

Lemma all_successors_loop_walk fuel g stk acc :
  all_successors_loop fuel g stk acc = walk (succ_adj g) fuel stk acc.
Proof.
  revert stk acc. induction fuel as [|fuel IH]; intros [|elem stk] acc; try done.
  cbn [all_successors_loop walk]. unfold succ_adj.
  destruct (vertex_at g elem); cbn; [apply IH|done|done].
Qed.

Lemma all_predecessors_loop_walk fuel g stk acc :
  all_predecessors_loop fuel g stk acc = walk (pred_adj g) fuel stk acc.
Proof.
  revert stk acc. induction fuel as [|fuel IH]; intros [|elem stk] acc; try done.
  cbn [all_predecessors_loop walk]. unfold pred_adj.
  destruct (vertex_at g elem); cbn; [apply IH|done|done].
Qed.

Section walk.
Context (adj : K → result K (gset K)).
Local Abbreviation R := (step adj).

Lemma walk_all_explored (l : list K) :
  (∀ w, w ∈ l → ∃ n D, explored adj w n D) →
  ∃ n D, (∀ x, x ∈ D ↔ ∃ w, w ∈ l ∧ rtc R w x) ∧
    ∀ fuel stk acc, walk adj (n + fuel) (l ++ stk) acc = walk adj fuel stk (D ∪ acc).
Proof.
  induction l as [|w l IH]; intros Hl.
  - exists 0, ∅. split.
    + intros x. split; [set_solver|]. intros (w & Hw & _). by apply elem_of_nil in Hw.
    + intros fuel stk acc. by rewrite union_empty_l_L.
  - destruct (Hl w) as (n1 & D1 & HD1 & Hw); [left|].
    destruct IH as (n2 & D2 & HD2 & Hrest); [intros; apply Hl; by right|].
    exists (n1 + n2), (D2 ∪ D1). split.
    + intros x. rewrite elem_of_union, HD1, HD2. split.
      * intros [(w' & ? & ?)|?]; [exists w'; split; [by right|done]|].
        exists w. split; [by left|done].
      * intros (w' & [->|?]%elem_of_cons & ?); [by right|left; eauto].
    + intros fuel stk acc. cbn [app].
      replace (n1 + n2 + fuel) with (n1 + (n2 + fuel)) by lia.
      rewrite Hw, Hrest. f_equal. set_solver.
Qed.

Lemma walk_sn k v :
  (∀ x, rtc R k x → ∃ nb, adj x = Return nb) →
  sn (step_from adj k) v → rtc R k v → ∃ n D, explored adj v n D.
Proof.
  intros Hdef. induction 1 as [v _ IH]. intros Hkv.
  destruct (Hdef v Hkv) as [nb Hnb].
  destruct (walk_all_explored (reverse (elements nb))) as (n & D & HD & Hwalk).
  { intros w Hw%elem_of_reverse%elem_of_elements.
    assert (R v w) by (exists nb; done).
    apply IH; [done|]. by eapply rtc_r. }
  exists (S n), ({[v]} ∪ D). split.
  - intros x. rewrite elem_of_union, elem_of_singleton, HD. split.
    + intros [->|(w & Hw%elem_of_reverse%elem_of_elements & Hwx)]; [done|].
      eapply rtc_l; [|done]. by exists nb.
    + intros [->|(w & (nb' & Hnb' & Hw) & Hwx)]%rtc_inv; [by left|].
      right. exists w. split; [|done]. rewrite Hnb in Hnb'. simplify_eq.
      by apply elem_of_reverse, elem_of_elements.
  - intros fuel stk acc. cbn [Nat.add walk]. rewrite Hnb. cbn [result_bind].
    rewrite Hwalk. f_equal. set_solver.
Qed.

Lemma tc_step_from k x y : tc (step_from adj k) x y → rtc R k x ∧ tc R x y.
Proof.
  induction 1 as [x y [? ?]|x y z [? ?] _ [? ?]].
  - split; [done|]. by apply tc_once.
  - split; [done|]. by eapply tc_l.
Qed.

Lemma acyclic_sn k (xs : list K) :
  (∀ x, tc R k x → x ∈ xs) →
  (∀ x, rtc R k x → ¬ tc R x x) →
  sn (step_from adj k) k.
Proof.
  intros Hfin Hacyc. apply tc_finite_sn.
  - intros x [Hkx Hxx]%tc_step_from. by apply (Hacyc x).
  - exists xs. intros x [_ Hx]%tc_step_from. by apply Hfin.
Qed.

(** On a key set without a reachable cycle the walk from the adjacency
    set of [k] ends, with the keys reachable in one step or more. *)
Lemma walk_acyclic k nb (xs : list K) :
  adj k = Return nb →
  (∀ x, tc R k x → x ∈ xs) →
  (∀ x, rtc R k x → ∃ nb, adj x = Return nb) →
  (∀ x, rtc R k x → ¬ tc R x x) →
  ∃ n D, (∀ x, x ∈ D ↔ tc R k x) ∧
    ∀ fuel, n ≤ fuel → walk adj fuel (reverse (elements nb)) ∅ = Return D.
Proof.
  intros Hnb Hfin Hdef Hacyc.
  pose proof (acyclic_sn k xs Hfin Hacyc) as Hsn.
  destruct (walk_all_explored (reverse (elements nb))) as (n & D & HD & Hwalk).
  { intros w Hw%elem_of_reverse%elem_of_elements.
    assert (step_from adj k k w) by (split; [done|by exists nb]).
    apply (walk_sn k); [done| |by apply rtc_once; exists nb].
    eapply sn_step; [exact Hsn|done]. }
  exists n, D. split.
  - intros x. rewrite HD. split.
    + intros (w & Hw%elem_of_reverse%elem_of_elements & Hwx).
      eapply tc_rtc_r; [|done]. apply tc_once. by exists nb.
    + intros Hx. apply tc_nsteps in Hx as (m & Hm & Hx).
      destruct m as [|m]; [lia|]. inversion Hx as [|? ? w ? Hkw Hwx]; subst.
      exists w. split; [|by eapply rtc_nsteps_2].
      destruct Hkw as (nb' & Hnb' & Hw). rewrite Hnb in Hnb'. simplify_eq.
      by apply elem_of_reverse, elem_of_elements.
  - intros fuel Hfuel. replace fuel with (n + (fuel - n)) by lia.
    specialize (Hwalk (fuel - n) [] ∅). rewrite app_nil_r in Hwalk.
    rewrite Hwalk. destruct (fuel - n); cbn; f_equal; set_solver.
Qed.

(** A walk that returns met no key from which a cycle can be reached. *)
Lemma walk_returns_acyclic fuel stk acc r :
  walk adj fuel stk acc = Return r →
  ∀ v x, v ∈ stk → rtc R v x → ¬ tc R x x.
Proof.
  revert stk acc. induction fuel as [|fuel IH]; intros [|elem stk] acc Hret v x Hv Hvx Hxx;
    try done; try (by apply elem_of_nil in Hv).
  cbn [walk] in Hret. destruct (adj elem) as [nb| |] eqn:Hnb; try done.
  cbn [result_bind] in Hret.
  apply elem_of_cons in Hv as [->|Hv].
  - assert (∃ w, R elem w ∧ rtc R w x) as (w & Hew & Hwx).
    { apply rtc_inv in Hvx as [->|?]; [|done].
      apply tc_nsteps in Hxx as (m & Hm & Hx).
      destruct m as [|m]; [lia|]. inversion Hx as [|? ? w ? Hkw Hwx]; subst.
      exists w. split; [done|]. by eapply rtc_nsteps_2. }
    eapply (IH _ _ Hret w x); [|done|done].
    apply elem_of_app. left. destruct Hew as (nb' & ? & ?).
    assert (nb' = nb) as -> by congruence.
    by apply elem_of_reverse, elem_of_elements.
  - eapply (IH _ _ Hret v x); [|done|done]. apply elem_of_app. by right.
Qed.

Lemma walk_never_raises fuel stk acc e :
  (∀ v x, v ∈ stk → rtc R v x → ∃ nb, adj x = Return nb) →
  walk adj fuel stk acc ≠ Raise e.
Proof.
  revert stk acc. induction fuel as [|fuel IH]; intros [|elem stk] acc Hdef; try done.
  cbn [walk]. destruct (Hdef elem elem) as [nb Hnb]; [by left|done|].
  rewrite Hnb. cbn [result_bind]. apply IH.
  intros v x [Hv%elem_of_reverse%elem_of_elements|Hv]%elem_of_app Hvx.
  - apply (Hdef elem x); [by left|]. eapply rtc_l; [|done]. by exists nb.
  - apply (Hdef v x); [by right|done].
Qed.

Lemma walk_cyclic k nb x fuel :
  adj k = Return nb →
  (∀ x, rtc R k x → ∃ nb, adj x = Return nb) →
  rtc R k x → tc R x x →
  walk adj fuel (reverse (elements nb)) ∅ = OutOfFuel.
Proof.
  intros Hnb Hdef Hkx Hxx.
  destruct (walk adj fuel (reverse (elements nb)) ∅) as [r|e|] eqn:Hw; [| |done].
  - exfalso.
    assert (∃ w, R k w ∧ rtc R w x) as (w & Hew & Hwx).
    { apply rtc_inv in Hkx as [->|?]; [|done].
      apply tc_nsteps in Hxx as (m & Hm & Hx).
      destruct m as [|m]; [lia|]. inversion Hx as [|? ? w ? Hkw Hwx]; subst.
      exists w. split; [done|]. by eapply rtc_nsteps_2. }
    eapply (walk_returns_acyclic _ _ _ _ Hw w x); [|done|done].
    destruct Hew as (nb' & ? & ?). assert (nb' = nb) as -> by congruence.
    by apply elem_of_reverse, elem_of_elements.
  - exfalso. eapply walk_never_raises; [|done].
    intros v y Hv%elem_of_reverse%elem_of_elements Hvy. apply Hdef.
    eapply rtc_l; [|done]. by exists nb.
Qed.
End walk.

Lemma rtc_iff {A} (R1 R2 : relation A) x y :
  (∀ a b, R1 a b ↔ R2 a b) → rtc R1 x y ↔ rtc R2 x y.
Proof.
  intros HR. split; induction 1; try done; (eapply rtc_l; [|done]); by apply HR.
Qed.

Lemma tc_iff {A} (R1 R2 : relation A) x y :
  (∀ a b, R1 a b ↔ R2 a b) → tc R1 x y ↔ tc R2 x y.
Proof.
  intros HR. split; induction 1.
  all: try (apply tc_once; by apply HR).
  all: eapply tc_l; [|done]; by apply HR.
Qed.

Lemma rtc_flip {A} (R : relation A) x y : rtc (flip R) x y ↔ rtc R y x.
Proof.
  split; induction 1; try done; (eapply rtc_r; [done|]); done.
Qed.

Lemma tc_flip {A} (R : relation A) x y : tc (flip R) x y ↔ tc R y x.
Proof.
  split; induction 1.
  all: try (by apply tc_once).
  all: eapply tc_r; [done|]; done.
Qed.

Lemma step_succ_adj g a b : step (succ_adj g) a b ↔ edge g a b.
Proof.
  unfold step, succ_adj, vertex_at, edge, succs_of.
  destruct (vertices g !! a); cbn; [|set_solver].
  split; [by intros (? & [= <-] & ?)|eauto].
Qed.

Lemma step_pred_adj g a b : step (pred_adj g) a b ↔ back_edge g a b.
Proof.
  unfold step, pred_adj, vertex_at, back_edge, preds_of.
  destruct (vertices g !! a); cbn; [|set_solver].
  split; [by intros (? & [= <-] & ?)|eauto].
Qed.

Lemma edge_dom g a b : graph_inv g → edge g a b → a ∈ dom (vertices g) ∧ b ∈ dom (vertices g).
Proof.
  intros Hg Hab. split.
  - destruct (decide (a ∈ dom (vertices g))) as [|Ha]; [done|].
    unfold edge in Hab. rewrite succs_of_absent in Hab by done. set_solver.
  - apply (inv_closed _ Hg a). unfold edge in Hab. set_solver.
Qed.

Lemma back_edge_edge g a b : graph_inv g → back_edge g a b ↔ edge g b a.
Proof.
  intros Hg. split.
  - intros Hab. assert (a ∈ dom (vertices g)).
    { destruct (decide (a ∈ dom (vertices g))) as [|Ha]; [done|].
      unfold back_edge in Hab. rewrite preds_of_absent in Hab by done. set_solver. }
    assert (b ∈ dom (vertices g)).
    { apply (inv_closed _ Hg a). unfold back_edge in Hab. set_solver. }
    by apply (inv_sym _ Hg).
  - intros Hba. destruct (edge_dom _ _ _ Hg Hba). by apply (inv_sym _ Hg).
Qed.

Lemma rtc_edge_dom g a b :
  graph_inv g → a ∈ dom (vertices g) → rtc (edge g) a b → b ∈ dom (vertices g).
Proof.
  intros Hg Ha. induction 1 as [|x y z Hxy _ IH]; [done|].
  apply IH. by destruct (edge_dom _ _ _ Hg Hxy).
Qed.

Lemma rtc_edge_dom_r g a b :
  graph_inv g → b ∈ dom (vertices g) → rtc (edge g) a b → a ∈ dom (vertices g).
Proof.
  intros Hg Hb. induction 1 as [|x y z Hxy _ IH]; [done|].
  by destruct (edge_dom _ _ _ Hg Hxy).
Qed.

Lemma succ_adj_defined g x :
  x ∈ dom (vertices g) → ∃ nb, succ_adj g x = Return nb.
Proof.
  intros [vx Hx]%elem_of_dom. unfold succ_adj, vertex_at. rewrite Hx. eauto.
Qed.

Lemma pred_adj_defined g x :
  x ∈ dom (vertices g) → ∃ nb, pred_adj g x = Return nb.
Proof.
  intros [vx Hx]%elem_of_dom. unfold pred_adj, vertex_at. rewrite Hx. eauto.
Qed.

Lemma pred_step_edge g a b :
  graph_inv g → step (pred_adj g) a b ↔ flip (edge g) a b.
Proof. intros Hg. rewrite step_pred_adj. by apply back_edge_edge. Qed.

Lemma rtc_pred_adj g a b :
  graph_inv g → rtc (step (pred_adj g)) a b ↔ rtc (edge g) b a.
Proof.
  intros Hg. rewrite <-rtc_flip. apply rtc_iff. intros. by apply pred_step_edge.
Qed.

Lemma tc_pred_adj g a b :
  graph_inv g → tc (step (pred_adj g)) a b ↔ tc (edge g) b a.
Proof.
  intros Hg. rewrite <-tc_flip. apply tc_iff. intros. by apply pred_step_edge.
Qed.

Lemma rtc_succ_adj g a b : rtc (step (succ_adj g)) a b ↔ rtc (edge g) a b.
Proof. apply rtc_iff. intros. apply step_succ_adj. Qed.

Lemma tc_succ_adj g a b : tc (step (succ_adj g)) a b ↔ tc (edge g) a b.
Proof. apply tc_iff. intros. apply step_succ_adj. Qed.

(** The reachability queries on a graph that satisfies the invariant. *)
Lemma get_all_successors_acyclic g k :
  graph_inv g → k ∈ dom (vertices g) → acyclic_from g k →
  ∃ n l, (∀ fuel, n ≤ fuel → get_all_successors fuel g k = Return l) ∧
         NoDup l ∧ (k ∉ l) ∧ ∀ x, x ∈ l ↔ tc (edge g) k x.
Proof.
  intros Hg Hk Hacyc. pose proof Hk as [vx Hvx]%elem_of_dom.
  destruct (walk_acyclic (succ_adj g) k (successors vx) (elements (dom (vertices g))))
    as (n & D & HD & Hwalk).
  - unfold succ_adj, vertex_at. by rewrite Hvx.
  - intros x Hx%tc_succ_adj%tc_rtc. apply elem_of_elements. by eapply rtc_edge_dom.
  - intros x Hx%rtc_succ_adj. apply succ_adj_defined. by eapply rtc_edge_dom.
  - intros x Hx%rtc_succ_adj Hxx%tc_succ_adj. by apply (Hacyc x).
  - exists n, (elements D). split_and!.
    + intros fuel Hfuel. unfold get_all_successors, vertex_at. rewrite Hvx. cbn.
      rewrite all_successors_loop_walk, Hwalk by done. done.
    + apply NoDup_elements.
    + rewrite elem_of_elements, HD, tc_succ_adj. by apply Hacyc.
    + intros x. by rewrite elem_of_elements, HD, tc_succ_adj.
Qed.

Lemma get_all_predecessors_acyclic g k :
  graph_inv g → k ∈ dom (vertices g) → acyclic_to g k →
  ∃ n l, (∀ fuel, n ≤ fuel → get_all_predecessors fuel g k = Return l) ∧
         NoDup l ∧ (k ∉ l) ∧ ∀ x, x ∈ l ↔ tc (edge g) x k.
Proof.
  intros Hg Hk Hacyc. pose proof Hk as [vx Hvx]%elem_of_dom.
  destruct (walk_acyclic (pred_adj g) k (predecessors vx) (elements (dom (vertices g))))
    as (n & D & HD & Hwalk).
  - unfold pred_adj, vertex_at. by rewrite Hvx.
  - intros x Hx%tc_pred_adj%tc_rtc; [|done]. apply elem_of_elements.
    by eapply rtc_edge_dom_r.
  - intros x Hx%rtc_pred_adj; [|done]. apply pred_adj_defined. by eapply rtc_edge_dom_r.
  - intros x Hx%rtc_pred_adj Hxx%tc_pred_adj; try done. by apply (Hacyc x).
  - exists n, (elements D). split_and!.
    + intros fuel Hfuel. unfold get_all_predecessors, vertex_at. rewrite Hvx. cbn.
      rewrite all_predecessors_loop_walk, Hwalk by done. done.
    + apply NoDup_elements.
    + rewrite elem_of_elements, HD, tc_pred_adj by done. by apply Hacyc.
    + intros x. by rewrite elem_of_elements, HD, tc_pred_adj.
Qed.

Lemma get_all_successors_cyclic g k x fuel :
  graph_inv g → k ∈ dom (vertices g) →
  rtc (edge g) k x → tc (edge g) x x →
  get_all_successors fuel g k = OutOfFuel.
Proof.
  intros Hg Hk Hkx Hxx. pose proof Hk as [vx Hvx]%elem_of_dom.
  unfold get_all_successors, vertex_at. rewrite Hvx. cbn.
  rewrite all_successors_loop_walk, (walk_cyclic (succ_adj g) k (successors vx) x); [done|..].
  - unfold succ_adj, vertex_at. by rewrite Hvx.
  - intros y Hy%rtc_succ_adj. apply succ_adj_defined. by eapply rtc_edge_dom.
  - by apply rtc_succ_adj.
  - by apply tc_succ_adj.
Qed.

Lemma get_all_predecessors_cyclic g k x fuel :
  graph_inv g → k ∈ dom (vertices g) →
  rtc (edge g) x k → tc (edge g) x x →
  get_all_predecessors fuel g k = OutOfFuel.
Proof.
  intros Hg Hk Hkx Hxx. pose proof Hk as [vx Hvx]%elem_of_dom.
  unfold get_all_predecessors, vertex_at. rewrite Hvx. cbn.
  rewrite all_predecessors_loop_walk, (walk_cyclic (pred_adj g) k (predecessors vx) x); [done|..].
  - unfold pred_adj, vertex_at. by rewrite Hvx.
  - intros y Hy%rtc_pred_adj; [|done]. apply pred_adj_defined. by eapply rtc_edge_dom_r.
  - by apply rtc_pred_adj.
  - by apply tc_pred_adj.
Qed.

(** C2, as the code has it: for every graph and every key [k] in it from
    which no cycle can be reached, [get_all_successors(k)] returns a list
    without repeats whose elements are exactly the keys reachable from [k]
    along one or more edges, and [k] is not among them; likewise
    [get_all_predecessors(k)] for a [k] that no cycle can reach, with the
    keys that reach [k] along one or more edges. *)
Theorem C2_transitive_queries_on_acyclic_part g k :
  built g → k ∈ dom (vertices g) →
  (acyclic_from g k →
     ∃ n l, (∀ fuel, n ≤ fuel → get_all_successors fuel g k = Return l) ∧
            NoDup l ∧ (k ∉ l) ∧ ∀ x, x ∈ l ↔ tc (edge g) k x) ∧
  (acyclic_to g k →
     ∃ n l, (∀ fuel, n ≤ fuel → get_all_predecessors fuel g k = Return l) ∧
            NoDup l ∧ (k ∉ l) ∧ ∀ x, x ∈ l ↔ tc (edge g) x k).
Proof.
  intros Hg%built_graph_inv Hk. split.
  - by apply get_all_successors_acyclic.
  - by apply get_all_predecessors_acyclic.
Qed.

(** C3, as the code has it: the two transitive queries keep no visited
    set.  For every graph and key [k] in it, [get_all_successors(k)] ends
    when no cycle can be reached from [k] and runs forever when one can;
    [get_all_predecessors(k)] ends when no cycle can reach [k] and runs
    forever when one can. *)
Theorem C3_transitive_queries_termination g k :
  built g → k ∈ dom (vertices g) →
  (acyclic_from g k →
     ∃ n, ∀ fuel, n ≤ fuel → ∃ l, get_all_successors fuel g k = Return l) ∧
  (acyclic_to g k →
     ∃ n, ∀ fuel, n ≤ fuel → ∃ l, get_all_predecessors fuel g k = Return l) ∧
  (∀ x, rtc (edge g) k x → tc (edge g) x x →
     ∀ fuel, get_all_successors fuel g k = OutOfFuel) ∧
  (∀ x, rtc (edge g) x k → tc (edge g) x x →
     ∀ fuel, get_all_predecessors fuel g k = OutOfFuel).
Proof.
  intros Hg%built_graph_inv Hk. split_and!.
  - intros (n & l & Hl & _)%get_all_successors_acyclic; eauto.
  - intros (n & l & Hl & _)%get_all_predecessors_acyclic; eauto.
  - intros x ? ? fuel. by eapply get_all_successors_cyclic.
  - intros x ? ? fuel. by eapply get_all_predecessors_cyclic.
Qed.

End traversal.

Section tarjan.
Context {K : Type} {eqK : EqDecision K} {cntK : Countable K} {V : Type}.
Context (g : DAGraph K V) (Hg : graph_inv g).
Implicit Types (st : tarjan_state K) (v w x y : K).

Lemma node_idx_ll st x ix lx :
  node_st st !! x = Some (ix, lx) ↔ idx_of st x = Some ix ∧ ll_of st x = Some lx.
Proof.
  unfold idx_of, ll_of. destruct (node_st st !! x) as [[i l]|]; cbn; naive_solver.
Qed.

Lemma idx_of_Some st x ix : idx_of st x = Some ix → ∃ lx, node_st st !! x = Some (ix, lx).
Proof. unfold idx_of. destruct (node_st st !! x) as [[i l]|]; cbn; naive_solver. Qed.

Lemma idx_of_dom st x : x ∈ dom (node_st st) ↔ ∃ ix, idx_of st x = Some ix.
Proof.
  rewrite elem_of_dom. unfold idx_of.
  destruct (node_st st !! x) as [[i l]|]; cbn; split; naive_solver.
Qed.

Lemma idx_of_weaken st st' x ix :
  node_st st ⊆ node_st st' → idx_of st x = Some ix → idx_of st' x = Some ix.
Proof.
  intros Hsub [lx Hx]%idx_of_Some. unfold idx_of.
  by rewrite (lookup_weaken _ _ _ _ Hx Hsub).
Qed.

(** Changing the low-link of [v] changes no index. *)
Lemma idx_of_relinked st v iv lv l x :
  node_st st !! v = Some (iv, lv) →
  idx_of (relinked v (iv, l) st) x = idx_of st x.
Proof.
  intros Hv. unfold idx_of, relinked. cbn. rewrite lookup_insert.
  case_decide; [subst; by rewrite Hv|done].
Qed.

Lemma node_relinked_ne st v p x :
  x ≠ v → node_st (relinked v p st) !! x = node_st st !! x.
Proof. intros Hx. unfold relinked. cbn. by rewrite lookup_insert_ne. Qed.

Lemma settled_mono st st' x :
  node_st st' !! x = node_st st !! x →
  (∀ y i, idx_of st y = Some i → idx_of st' y = Some i) →
  (∀ y, y ∈ stk st → y ∈ stk st') →
  (∀ y, y ∈ done st → y ∈ done st') →
  settled g st x → settled g st' x.
Proof.
  intros Hx Hidx Hstk Hdone (ix & lx & Hn & Hlt & (y & Hy & Hiy & Hxy) & Hsucc).
  exists ix, lx. split; [by rewrite Hx|]. split; [done|]. split.
  - exists y. eauto.
  - intros z Hz. destruct (Hsucc z Hz) as [?|(? & iz & ? & ?)]; [left; eauto|].
    right. split; [eauto|]. exists iz. eauto.
Qed.

Lemma tinv_relinked st v iv lv l :
  tinv g st → node_st st !! v = Some (iv, lv) → l ≤ iv →
  tinv g (relinked v (iv, l) st).
Proof.
  intros [H1 H2 H3 H4 H5 H6 H7] Hv Hl.
  assert (dom (node_st (relinked v (iv, l) st)) = dom (node_st st)) as Hdom.
  { unfold relinked. cbn. rewrite dom_insert_L.
    assert (v ∈ dom (node_st st)) by (apply elem_of_dom; eauto). set_solver. }
  split; try done.
  - intros x ix lx. unfold relinked. cbn. rewrite lookup_insert.
    case_decide; [|apply H2]. intros [= <- <-]. specialize (H2 _ _ _ Hv). lia.
  - intros x. rewrite Hdom. apply H3.
  - intros x. rewrite Hdom. apply H5.
Qed.

Lemma tinv_entered st v :
  tinv g st → v ∈ dom (vertices g) → v ∉ dom (node_st st) →
  tinv g (entered v st).
Proof.
  intros [H1 H2 H3 H4 H5 H6 H7] Hv Hnew.
  assert ((v ∉ stk st) ∧ (v ∉ done st)) as [Hvs Hvd].
  { split; intros ?; apply Hnew, H3; eauto. }
  split; try done.
  - destruct H1 as [Hset Hnd]. split; cbn; [by rewrite Hset|].
    constructor; [done|]. done.
  - intros x ix lx. unfold entered. cbn. rewrite lookup_insert.
    case_decide; [intros [= <- <-]; lia|]. intros Hx. specialize (H2 _ _ _ Hx). lia.
  - intros x. unfold entered, stk. cbn. rewrite dom_insert_L, elem_of_union,
      elem_of_singleton, elem_of_cons, H3. unfold stk, done. cbn. naive_solver.
  - unfold entered, stk, done in *. cbn. constructor; [|done].
    rewrite elem_of_app. naive_solver.
  - intros x. unfold entered. cbn. rewrite dom_insert_L, elem_of_union, elem_of_singleton.
    intros [->|?]; [done|by apply H5].
Qed.

(** *** What the statements of [strongconnect] compute *)

Lemma strongconnect_enter depth v st vx :
  v ∉ stackset (tstack st) → vertices g !! v = Some vx →
  strongconnect (S depth) g v st =
    (m_for (elements (successors vx)) (visit_successor (strongconnect depth g) v) ;;m
     close_component v) (entered v st).
Proof.
  intros Hv Hvx. cbn [strongconnect].
  unfold m_bind at 1 2 3 4, m_modify, on_stack, m_lift, vertex_at.
  cbn [with_node_st with_idx tstack]. rewrite push_fresh by done. by rewrite Hvx.
Qed.

Lemma visit_unvisited rec v w st st1 iv lv iw lw :
  w ∉ dom (node_st st) → rec w st = (Return tt, st1) →
  node_st st1 !! v = Some (iv, lv) → node_st st1 !! w = Some (iw, lw) →
  visit_successor rec v w st = (Return tt, relinked v (iv, lv `min` lw) st1).
Proof.
  intros Hw Hrec Hv1 Hw1. unfold visit_successor, m_bind, m_get, node_at, m_modify.
  rewrite decide_True by done. by rewrite Hrec, Hv1, Hw1.
Qed.

Lemma visit_on_stack rec v w st iv lv iw lw :
  w ∈ dom (node_st st) → w ∈ stackset (tstack st) →
  node_st st !! v = Some (iv, lv) → node_st st !! w = Some (iw, lw) →
  visit_successor rec v w st = (Return tt, relinked v (iv, lv `min` iw) st).
Proof.
  intros Hw Hin Hv1 Hw1.
  unfold visit_successor, m_bind, m_get, node_at, m_modify, UniqueStack_contains.
  rewrite decide_False by (by intros ?). rewrite bool_decide_eq_true_2 by done.
  by rewrite Hv1, Hw1.
Qed.

Lemma visit_closed rec v w st :
  w ∈ dom (node_st st) → w ∉ stackset (tstack st) →
  visit_successor rec v w st = (Return tt, st).
Proof.
  intros Hw Hin.
  unfold visit_successor, m_bind, m_get, m_ret, UniqueStack_contains.
  rewrite decide_False by (by intros ?). by rewrite bool_decide_eq_false_2.
Qed.

Lemma pop_scc_spec fuel v acc st above below :
  stk st = above ++ v :: below → v ∉ above → length above < fuel →
  stack_inv (tstack st) →
  ∃ s', stack s' = below ∧ stack_inv s' ∧
    pop_scc fuel v acc st = (Return (acc ++ above ++ [v]), with_tstack s' st).
Proof.
  revert fuel acc st. induction above as [|x above IH]; intros fuel acc st Hstk Hv Hfuel Hinv.
  - destruct fuel as [|fuel]; [cbn in Hfuel; lia|].
    exists (after (pop (tstack st))). unfold stk in Hstk. cbn in Hstk.
    split_and!.
    + unfold pop. by rewrite Hstk.
    + by apply stack_inv_pop.
    + cbn [pop_scc]. unfold m_bind, on_stack, pop, m_ret. rewrite Hstk.
      cbn. by rewrite decide_True.
  - destruct fuel as [|fuel]; [cbn in Hfuel; lia|].
    apply not_elem_of_cons in Hv as [Hvx Hv].
    unfold stk in Hstk. cbn in Hstk.
    pose proof (stack_inv_pop _ Hinv) as Hinv'.
    destruct (IH fuel (acc ++ [x]) (with_tstack (after (pop (tstack st))) st))
      as (s' & Hs' & Hinvs' & Hrun).
    + unfold stk, pop. rewrite Hstk. done.
    + done.
    + cbn in Hfuel. lia.
    + done.
    + exists s'. split; [done|]. split; [done|].
      cbn [pop_scc]. unfold m_bind at 1, on_stack, pop. rewrite Hstk.
      cbn. rewrite decide_False by done.
      unfold pop in Hrun. rewrite Hstk in Hrun. cbn in Hrun. rewrite Hrun.
      by rewrite <-app_assoc.
Qed.

(** *** Closing a component *)

Lemma rtc_closed (P : K → Prop) x y :
  (∀ a b, P a → edge g a b → P b) → P x → rtc (edge g) x y → P y.
Proof. intros HP Hx. induction 1; eauto. Qed.

Section closing.
Context (v : K) (st0 st : tarjan_state K) (above : list K) (lv : nat) (seen : list K).
Context (Hinv0 : tinv g st0) (Hloop : loop_inv g v st0 above lv st seen).

(** A key on the stack whose index is not below the counter at the call
    lies above [v] or is [v]. *)
Lemma stacked_high y iy :
  y ∈ stk st → idx_of st y = Some iy → idx st0 ≤ iy → y ∈ above ++ [v].
Proof using Hinv0 Hloop.
  rewrite (li_stk _ _ _ _ _ _ _ Hloop). intros Hy Hiy Hle.
  apply elem_of_app in Hy as [Hy|Hy]; [apply elem_of_app; by left|].
  apply elem_of_cons in Hy as [->|Hy]; [apply elem_of_app; right; by left|].
  exfalso. assert (y ∈ dom (node_st st0)) as [[iy' ly'] Hy']%elem_of_dom.
  { apply (ti_visited _ _ Hinv0). by left. }
  pose proof (ti_bound _ _ Hinv0 _ _ _ Hy') as Hb.
  pose proof (lookup_weaken _ _ _ _ Hy' (li_ext _ _ _ _ _ _ _ Hloop)) as Hy''.
  unfold idx_of in Hiy. rewrite Hy'' in Hiy. cbn in Hiy. simplify_eq. lia.
Qed.

Lemma v_not_above : v ∉ above.
Proof using Hloop.
  pose proof (ti_nodup _ _ (li_inv _ _ _ _ _ _ _ Hloop)) as Hnd.
  rewrite (li_stk _ _ _ _ _ _ _ Hloop) in Hnd.
  apply NoDup_app in Hnd as (Hnd & _ & _).
  apply NoDup_app in Hnd as (_ & Hdis & _).
  intros Hv. apply (Hdis v Hv). by left.
Qed.

Lemma v_not_done : v ∉ done st.
Proof using Hloop.
  pose proof (ti_nodup _ _ (li_inv _ _ _ _ _ _ _ Hloop)) as Hnd.
  rewrite (li_stk _ _ _ _ _ _ _ Hloop) in Hnd.
  apply NoDup_app in Hnd as (_ & Hdis & _).
  apply Hdis. apply elem_of_app. right. by left.
Qed.

Context (Hroot : lv = idx st0).

Lemma above_reaches_v x : x ∈ above → rtc (edge g) x v.
Proof using Hinv0 Hloop Hroot.
  intros Hx.
  destruct (li_above _ _ _ _ _ _ _ Hloop x Hx) as (_ & (ix & lx0 & Hnx0 & _) & _).
  assert (∃ l, node_st st !! x = Some (ix, l)) as Hnx by eauto.
  clear lx0 Hnx0. revert x Hx Hnx. induction (lt_wf ix) as [ix _ IH]. intros x Hx Hnx.
  destruct (li_above _ _ _ _ _ _ _ Hloop x Hx)
    as (_ & (ix' & lx & Hnx' & Hlt & (y & Hy & Hiy & Hxy) & _) & (lx' & Hlx' & Hle)).
  assert (lx' = lx) as ->.
  { unfold ll_of in Hlx'. rewrite Hnx' in Hlx'. by simplify_eq/=. }
  destruct Hnx as [lx0 Hnx]. assert (ix' = ix) as -> by congruence.
  assert (y ∈ above ++ [v]) as Hyc by (eapply stacked_high; [done|done|lia]).
  apply elem_of_app in Hyc as [Hya|Hyv].
  - etrans; [exact Hxy|]. apply idx_of_Some in Hiy as [ly Hny].
    apply (IH lx); [lia|done|eauto].
  - apply list_elem_of_singleton in Hyv as ->. done.
Qed.

(** Every edge from the component leads into it or into a closed one. *)
Lemma component_closed x y :
  (∀ w, edge g v w → w ∈ seen) →
  x ∈ above ++ [v] → edge g x y → y ∈ done st ∨ y ∈ above ++ [v].
Proof using Hinv0 Hloop Hroot.
  intros Hseen Hx Hxy. apply elem_of_app in Hx as [Hx|Hx].
  - destruct (li_above _ _ _ _ _ _ _ Hloop x Hx)
      as (_ & (ix' & lx & Hnx' & Hlt & _ & Hsucc) & (lx' & Hlx' & Hle)).
    assert (lx' = lx) as ->.
    { unfold ll_of in Hlx'. rewrite Hnx' in Hlx'. by simplify_eq/=. }
    destruct (Hsucc y Hxy) as [?|(Hy & iy & Hiy & Hly)]; [by left|].
    right. eapply stacked_high; [done|done|lia].
  - apply list_elem_of_singleton in Hx as ->.
    destruct (li_seen _ _ _ _ _ _ _ Hloop y (Hseen y Hxy)) as [?|(Hy & iy & Hiy & Hly)];
      [by left|].
    right. eapply stacked_high; [done|done|lia].
Qed.

Lemma component_is_scc :
  (∀ w, edge g v w → w ∈ seen) → is_scc g (above ++ [v]).
Proof using Hinv0 Hloop Hroot.
  intros Hseen. split; [by destruct above|].
  assert (∀ x, x ∈ above ++ [v] → mutual g v x) as Hmut.
  { intros x [Hx|Hx]%elem_of_app.
    - split; [|by apply above_reaches_v].
      by destruct (li_above _ _ _ _ _ _ _ Hloop x Hx) as (? & _).
    - apply list_elem_of_singleton in Hx as ->. by split. }
  intros x Hx y. split.
  - intros Hy. destruct (Hmut x Hx), (Hmut y Hy). split; by etrans.
  - intros [Hxy Hyx]. destruct (Hmut x Hx) as [Hvx Hxv].
    assert (y ∈ done st ∨ y ∈ above ++ [v]) as [Hy|Hy]; [|exfalso|done].
    { apply (rtc_closed (λ z, z ∈ done st ∨ z ∈ above ++ [v]) v y).
      - intros a b [Ha|Ha] Hab.
        + left. by apply (ti_closed _ _ (li_inv _ _ _ _ _ _ _ Hloop) a).
        + by apply (component_closed a).
      - right. apply elem_of_app. right. by left.
      - by etrans. }
    apply v_not_done.
    apply (rtc_closed (λ z, z ∈ done st) y v); [|done|by etrans].
    apply (ti_closed _ _ (li_inv _ _ _ _ _ _ _ Hloop)).
Qed.

End closing.

Lemma close_component_spec v st0 st above lv vx :
  tinv g st0 → vertices g !! v = Some vx →
  loop_inv g v st0 above lv st (elements (successors vx)) →
  ∃ st', close_component v st = (Return tt, st') ∧ sc_post g v st0 st'.
Proof.
  intros Hinv0 Hvx Hloop.
  pose proof Hloop as [Hinv Hext Hidx Hnew Hv Hsccs Hstk Habove Hlow Hseen].
  assert (∀ w, edge g v w → w ∈ elements (successors vx)) as Hall.
  { intros w. unfold edge, succs_of. rewrite Hvx. by rewrite elem_of_elements. }
  pose proof (ti_bound _ _ Hinv _ _ _ Hv) as Hb.
  assert (idx_of st v = Some (idx st0) ∧ ll_of st v = Some lv) as [Hiv Hlv].
  { by apply node_idx_ll. }
  unfold close_component, m_bind, node_at. rewrite Hv.
  destruct (decide (idx st0 = lv)) as [Heq|Hne].
  - destruct (pop_scc_spec (S (UniqueStack_len (tstack st))) v [] st above (stk st0))
      as (s' & Hs' & Hinvs' & Hrun).
    { done. }
    { by eapply v_not_above. }
    { unfold UniqueStack_len. fold (stk st). rewrite Hstk, length_app. cbn. lia. }
    { apply (ti_stack _ _ Hinv). }
    unfold m_get, m_modify. rewrite Hrun. cbn [app].
    eexists. split; [reflexivity|].
    pose proof (component_is_scc v st0 st above lv _ Hinv0 Hloop (eq_sym Heq) Hall) as Hscc.
    pose proof (component_closed v st0 st above lv _ Hinv0 Hloop (eq_sym Heq)) as Hclosed.
    assert (∀ x, x ∈ concat (scc_list st ++ [above ++ [v]]) ↔
                 x ∈ done st ∨ x ∈ above ++ [v]) as Hdone.
    { intros x. rewrite concat_app, elem_of_app. cbn. by rewrite app_nil_r. }
    assert (tinv g (with_scc_list (λ l, l ++ [above ++ [v]]) (with_tstack s' st))) as Hinv'.
    { split.
      - done.
      - apply (ti_bound _ _ Hinv).
      - intros x. unfold stk, done. cbn. rewrite Hs', Hdone.
        rewrite (ti_visited _ _ Hinv x), Hstk. rewrite !elem_of_app, elem_of_cons,
          list_elem_of_singleton. naive_solver.
      - unfold stk, done. cbn. rewrite Hs', concat_app. cbn. rewrite app_nil_r.
        pose proof (ti_nodup _ _ Hinv) as Hnd. rewrite Hstk in Hnd.
        fold (done st).
        assert (stk st0 ++ done st ++ above ++ [v] ≡ₚ (above ++ v :: stk st0) ++ done st)
          as ->; [|done].
        rewrite (app_assoc (stk st0)), (Permutation_app_comm (stk st0 ++ done st)).
        by rewrite <-!app_assoc.
      - apply (ti_dom _ _ Hinv).
      - intros x y. unfold done. cbn. rewrite !Hdone. intros [Hx|Hx] Hxy.
        + left. by apply (ti_closed _ _ Hinv x).
        + by apply (Hclosed x y Hall).
      - intros c. cbn. rewrite elem_of_app, list_elem_of_singleton.
        intros [Hc| ->]; [by apply (ti_sccs _ _ Hinv)|done]. }
    split; try done.
    + destruct Hsccs as [newL HnewL]. exists (newL ++ [above ++ [v]]). cbn.
      by rewrite HnewL, app_assoc.
    + left. split; [by unfold stk; cbn|]. unfold ll_of in *. cbn. by rewrite Hlv, Heq.
  - unfold m_ret. exists st. split; [done|].
    split; try done. right. exists above, lv. split; [done|]. split; [done|].
    split; [lia|]. intros x [Hx|Hx]%elem_of_app; [by apply Habove|].
    apply list_elem_of_singleton in Hx as ->. split; [done|]. split; [|eauto].
    exists (idx st0), lv. split; [done|]. split; [lia|]. split; [done|].
    intros y Hy. by apply Hseen, Hall.
Qed.

(** *** One round of the loop *)

Lemma settled_relinked st v iv lv l x :
  node_st st !! v = Some (iv, lv) → x ≠ v →
  settled g st x → settled g (relinked v (iv, l) st) x.
Proof.
  intros Hv Hx. apply settled_mono; try done.
  - by apply node_relinked_ne.
  - intros y i. by rewrite (idx_of_relinked _ _ _ _ _ _ Hv).
Qed.

Lemma settled_weaken st st' x :
  node_st st ⊆ node_st st' →
  (∀ y, y ∈ stk st → y ∈ stk st') →
  (∀ y, y ∈ done st → y ∈ done st') →
  settled g st x → settled g st' x.
Proof.
  intros Hsub Hstk Hdone Hset. eapply settled_mono; [| | | |exact Hset]; try done.
  - destruct Hset as (ix & lx & Hx & _). rewrite Hx. by eapply lookup_weaken.
  - intros y i. by apply idx_of_weaken.
Qed.

Lemma ll_of_relinked_ne st v p x : x ≠ v → ll_of (relinked v p st) x = ll_of st x.
Proof. intros Hx. unfold ll_of. by rewrite node_relinked_ne. Qed.

Lemma ll_of_weaken st st' x lx :
  node_st st ⊆ node_st st' → ll_of st x = Some lx → ll_of st' x = Some lx.
Proof.
  intros Hsub. unfold ll_of. destruct (node_st st !! x) as [[i l]|] eqn:Hx; [|done].
  by rewrite (lookup_weaken _ _ _ _ Hx Hsub).
Qed.

Lemma done_grows st st' newL :
  scc_list st' = scc_list st ++ newL → ∀ y, y ∈ done st → y ∈ done st'.
Proof. intros HL y. unfold done. rewrite HL, concat_app, elem_of_app. by left. Qed.

(** Lowering the low-link of [v] to the index of a key on the stack that
    [v] reaches. *)
Lemma loop_inv_relinked v st0 above lv st seen l :
  v ∉ dom (node_st st0) →
  loop_inv g v st0 above lv st seen → l ≤ lv →
  (∃ y, y ∈ stk st ∧ idx_of st y = Some l ∧ rtc (edge g) v y) →
  loop_inv g v st0 above l (relinked v (idx st0, l) st) seen.
Proof.
  intros Hfresh Hloop Hl Hlow'.
  pose proof Hloop as [Hinv Hext Hidx Hnew Hv Hsccs Hstk Habove Hlow Hseen].
  pose proof (ti_bound _ _ Hinv _ _ _ Hv) as Hb.
  pose proof (v_not_above _ _ _ _ _ _ Hloop) as Hva.
  split; try done.
  - apply tinv_relinked with lv; [done|done|lia].
  - unfold relinked. cbn. apply insert_subseteq_r; [|done]. by apply not_elem_of_dom.
  - intros x Hx Hx0. rewrite (idx_of_relinked _ _ _ _ _ _ Hv). apply Hnew; [|done].
    unfold relinked in Hx. cbn in Hx. rewrite dom_insert_L in Hx.
    apply elem_of_union in Hx as [->%elem_of_singleton|?]; [|done].
    apply elem_of_dom. eauto.
  - unfold relinked. cbn. by rewrite lookup_insert_eq.
  - intros x Hx. destruct (Habove x Hx) as (Hvx & Hset & lx & Hlx & Hle).
    assert (x ≠ v) by (by intros ->).
    split; [done|]. split; [by eapply settled_relinked|].
    exists lx. rewrite ll_of_relinked_ne by done. split; [done|lia].
  - destruct Hlow' as (y & Hy & Hiy & Hvy). exists y.
    by rewrite (idx_of_relinked _ _ _ _ _ _ Hv).
  - intros w Hw. destruct (Hseen w Hw) as [?|(? & iw & ? & ?)]; [by left|].
    right. split; [done|]. exists iw. rewrite (idx_of_relinked _ _ _ _ _ _ Hv).
    split; [done|lia].
Qed.

Lemma loop_inv_seen v st0 above lv st seen w :
  loop_inv g v st0 above lv st seen →
  w ∈ done st ∨ (w ∈ stk st ∧ ∃ iw, idx_of st w = Some iw ∧ lv ≤ iw) →
  loop_inv g v st0 above lv st (seen ++ [w]).
Proof.
  intros [Hinv Hext Hidx Hnew Hv Hsccs Hstk Habove Hlow Hseen] Hw.
  split; try done.
  intros w' [?|Hw']%elem_of_app; [by apply Hseen|].
  by apply list_elem_of_singleton in Hw' as ->.
Qed.

(** What a returned call [strongconnect(w)] leaves for the caller: the
    keys it put on the stack, a witness for the low-link of [w] when that is
    below the low-link of [v], and where [w] itself ended up. *)
Lemma sc_post_summary w st st1 lw :
  tinv g st → w ∉ dom (node_st st) →
  sc_post g w st st1 → node_st st1 !! w = Some (idx st, lw) →
  (∃ newS, stk st1 = newS ++ stk st ∧
     ∀ x, x ∈ newS →
       rtc (edge g) w x ∧ settled g st1 x ∧ ∃ lx, ll_of st1 x = Some lx ∧ lw ≤ lx) ∧
  (lw < idx st → ∃ y, y ∈ stk st1 ∧ idx_of st1 y = Some lw ∧ rtc (edge g) w y) ∧
  (w ∈ done st1 ∨ (w ∈ stk st1 ∧ lw < idx st)).
Proof.
  intros Hinv Hw [Hinv1 Hext1 Hidx1 Hnew1 Hv1 Hsccs1 Hcase1] Hw1.
  assert (ll_of st1 w = Some lw) as Hlw by (unfold ll_of; by rewrite Hw1).
  destruct Hcase1 as [[Hstk1 Hll]|(above_w & lw' & Hstk1 & Hll & Hlt & Hab)].
  - assert (lw = idx st) as -> by congruence. split_and!.
    + exists []. split; [done|]. intros x Hx. by apply elem_of_nil in Hx.
    + lia.
    + left. assert (w ∈ dom (node_st st1)) as Hd by (apply elem_of_dom; eauto).
      apply (ti_visited _ _ Hinv1) in Hd as [Hd|Hd]; [|done].
      exfalso. apply Hw, (ti_visited _ _ Hinv). left. by rewrite <-Hstk1.
  - assert (lw' = lw) as -> by congruence. split_and!.
    + exists (above_w ++ [w]). split; [by rewrite <-app_assoc|]. done.
    + intros _. destruct (Hab w) as (_ & (ix & lx & Hn & _ & Hy & _) & _).
      { apply elem_of_app. right. by left. }
      assert (lx = lw) as -> by congruence. done.
    + right. split; [|done]. rewrite Hstk1. apply elem_of_app. right. by left.
Qed.

Lemma loop_inv_after_call v w st0 above lv st seen st1 :
  tinv g st0 → v ∉ dom (node_st st0) →
  loop_inv g v st0 above lv st seen → edge g v w → w ∉ dom (node_st st) →
  sc_post g w st st1 →
  ∃ lw above',
    node_st st1 !! v = Some (idx st0, lv) ∧ node_st st1 !! w = Some (idx st, lw) ∧
    loop_inv g v st0 above' (lv `min` lw)
      (relinked v (idx st0, lv `min` lw) st1) (seen ++ [w]).
Proof.
  intros Hinv0 Hfresh Hloop Hvw Hw Hpost.
  pose proof Hloop as [Hinv Hext Hidx Hnew Hv Hsccs Hstk Habove Hlow Hseen].
  pose proof Hpost as [Hinv1 Hext1 Hidx1 Hnew1 Hv1 Hsccs1 _].
  pose proof (lookup_weaken _ _ _ _ Hv Hext1) as Hv'.
  destruct (idx_of_Some _ _ _ Hv1) as [lw Hw1].
  destruct (sc_post_summary w st st1 lw Hinv Hw Hpost Hw1)
    as ((newS & Hstk1 & HnewS) & Hwit & Hwhere).
  exists lw, (newS ++ above). split; [done|]. split; [done|].
  pose proof (ti_bound _ _ Hinv _ _ _ Hv) as Hb.
  pose proof (ti_bound _ _ Hinv1 _ _ _ Hw1) as Hbw.
  destruct Hsccs1 as [newL1 HL1].
  pose proof (done_grows _ _ _ HL1) as Hdone.
  assert (∀ y, y ∈ stk st → y ∈ stk st1) as Hstkin.
  { intros y Hy. rewrite Hstk1. apply elem_of_app. by right. }
  assert (∀ x, idx_of (relinked v (idx st0, lv `min` lw) st1) x = idx_of st1 x) as Hidx2.
  { intros x. by eapply idx_of_relinked. }
  assert (∀ x, x ∈ newS → x ≠ v) as HnewSv.
  { intros x Hx ->. pose proof (ti_nodup _ _ Hinv1) as Hnd.
    rewrite Hstk1 in Hnd. apply NoDup_app in Hnd as (Hnd & _ & _).
    apply NoDup_app in Hnd as (_ & Hdis & _). apply (Hdis v Hx).
    rewrite Hstk. apply elem_of_app. right. by left. }
  pose proof (v_not_above _ _ _ _ _ _ Hloop) as Hva.
  split.
  - apply tinv_relinked with lv; [done|done|lia].
  - unfold relinked. cbn. apply insert_subseteq_r; [by apply not_elem_of_dom|].
    by etrans.
  - unfold relinked. cbn. lia.
  - intros x Hx Hx0. rewrite Hidx2.
    assert (x ∈ dom (node_st st1)) as Hx1.
    { unfold relinked in Hx. cbn in Hx. rewrite dom_insert_L in Hx.
      apply elem_of_union in Hx as [->%elem_of_singleton|?]; [|done].
      apply elem_of_dom. eauto. }
    destruct (decide (x ∈ dom (node_st st))) as [Hxs|Hxs].
    + destruct (Hnew x Hxs Hx0) as (? & ix & ? & ?). split; [done|].
      exists ix. split; [by eapply idx_of_weaken|done].
    + destruct (Hnew1 x Hx1 Hxs) as (? & ix & ? & ?). split; [by eapply rtc_l|].
      exists ix. split; [done|lia].
  - unfold relinked. cbn. by rewrite lookup_insert_eq.
  - destruct Hsccs as [newL HL]. exists (newL ++ newL1). cbn.
    by rewrite HL1, HL, app_assoc.
  - unfold stk, relinked. cbn. fold (stk st1). by rewrite Hstk1, Hstk, app_assoc.
  - intros x [Hx|Hx]%elem_of_app.
    + destruct (HnewS x Hx) as (Hwx & Hset & lx & Hlx & Hle).
      split; [by eapply rtc_l|]. split; [eapply settled_relinked; eauto|].
      exists lx. rewrite ll_of_relinked_ne by eauto. split; [done|lia].
    + destruct (Habove x Hx) as (Hvx & Hset & lx & Hlx & Hle).
      assert (x ≠ v) by (by intros ->).
      split; [done|]. split.
      * eapply settled_relinked; [done|done|]. by eapply settled_weaken.
      * exists lx. rewrite ll_of_relinked_ne by done.
        split; [by eapply ll_of_weaken|lia].
  - destruct (decide (lv ≤ lw)) as [Hle|Hgt].
    + destruct Hlow as (y & Hy & Hiy & Hvy).
      exists y. rewrite Hidx2, Nat.min_l by done. split; [by apply Hstkin|].
      split; [by eapply idx_of_weaken|done].
    + destruct Hwit as (y & Hy & Hiy & Hwy); [lia|].
      exists y. rewrite Hidx2, Nat.min_r by lia.
      split; [done|]. split; [done|]. by eapply rtc_l.
  - intros w' [Hw'|Hw']%elem_of_app.
    + destruct (Hseen w' Hw') as [?|(? & iw & ? & ?)]; [left; by apply Hdone|].
      right. split; [by apply Hstkin|]. exists iw. rewrite Hidx2.
      split; [by eapply idx_of_weaken|lia].
    + apply list_elem_of_singleton in Hw' as ->.
      destruct Hwhere as [?|[? ?]]; [by left|]. right. split; [done|].
      exists (idx st). rewrite Hidx2. split; [done|lia].
Qed.

Lemma unvisited_shrinks v st0 st lv :
  node_st st0 ⊆ node_st st → v ∈ dom (vertices g) → v ∉ dom (node_st st0) →
  node_st st !! v = Some lv →
  size (dom (vertices g) ∖ dom (node_st st)) < size (dom (vertices g) ∖ dom (node_st st0)).
Proof.
  intros Hext Hvin Hfresh Hv. apply subset_size.
  assert (v ∈ dom (node_st st)) as Hvd by (apply elem_of_dom; eauto).
  apply subseteq_dom in Hext. split.
  - intros x. rewrite !elem_of_difference. intros [? Hx]. split; [done|].
    intros ?. by apply Hx, Hext.
  - intros Hsub. specialize (Hsub v). rewrite !elem_of_difference in Hsub.
    by destruct Hsub.
Qed.

Lemma visit_successor_spec depth v w st0 above lv st seen :
  (∀ w st, tinv g st → w ∈ dom (vertices g) → w ∉ dom (node_st st) →
     sc_ends g depth w st) →
  tinv g st0 → v ∈ dom (vertices g) → v ∉ dom (node_st st0) →
  loop_inv g v st0 above lv st seen → edge g v w →
  (∃ st' above' lv',
     visit_successor (strongconnect depth g) v w st = (Return tt, st') ∧
     loop_inv g v st0 above' lv' st' (seen ++ [w])) ∨
  (S depth < size (dom (vertices g) ∖ dom (node_st st0)) ∧
   ∃ st', visit_successor (strongconnect depth g) v w st = (Raise RecursionError, st')).
Proof.
  intros IH Hinv0 Hvin Hfresh Hloop Hvw.
  pose proof Hloop as [Hinv Hext Hidx Hnew Hv Hsccs Hstk Habove Hlow Hseen].
  destruct (edge_dom _ _ _ Hg Hvw) as [_ Hwin].
  pose proof (ti_bound _ _ Hinv _ _ _ Hv) as Hb.
  destruct (decide (w ∈ dom (node_st st))) as [Hw|Hw].
  - left. pose proof Hw as [[iw lw] Hnw]%elem_of_dom.
    destruct (decide (w ∈ stackset (tstack st))) as [Hon|Hoff].
    + exists (relinked v (idx st0, lv `min` iw) st), above, (lv `min` iw).
      split; [by eapply visit_on_stack|].
      assert (w ∈ stk st) as Hws.
      { by apply (stack_inv_elem _ _ (ti_stack _ _ Hinv)). }
      assert (idx_of st w = Some iw) as Hiw by (unfold idx_of; by rewrite Hnw).
      apply loop_inv_seen.
      * apply loop_inv_relinked with lv; [done|done|lia|].
        destruct (decide (lv ≤ iw)).
        -- rewrite Nat.min_l by done. done.
        -- rewrite Nat.min_r by lia. exists w. split; [done|]. split; [done|].
           by apply rtc_once.
      * right. split; [done|]. exists iw.
        rewrite (idx_of_relinked _ _ _ _ _ _ Hv). split; [done|lia].
    + exists st, above, lv. split; [by apply visit_closed|].
      apply loop_inv_seen; [done|]. left.
      apply (ti_visited _ _ Hinv) in Hw as [Hw|Hw]; [|done].
      exfalso. by apply Hoff, (stack_inv_elem _ _ (ti_stack _ _ Hinv)).
  - destruct (IH w st Hinv Hwin Hw) as [(st1 & Hrun & Hpost)|(Hdeep & st1 & Hrun)].
    + left. destruct (loop_inv_after_call v w st0 above lv st seen st1)
        as (lw & above' & Hv1 & Hw1 & Hloop'); try done.
      exists (relinked v (idx st0, lv `min` lw) st1), above', (lv `min` lw).
      split; [by eapply visit_unvisited|done].
    + right. pose proof (unvisited_shrinks v st0 st _ Hext Hvin Hfresh Hv).
      split; [lia|]. exists st1.
      unfold visit_successor, m_bind, m_get. rewrite decide_True by done.
      by rewrite Hrun.
Qed.

(** *** The loop and the call *)

Lemma loop_spec depth v st0 (l : list K) above lv st seen :
  (∀ w st, tinv g st → w ∈ dom (vertices g) → w ∉ dom (node_st st) →
     sc_ends g depth w st) →
  tinv g st0 → v ∈ dom (vertices g) → v ∉ dom (node_st st0) →
  loop_inv g v st0 above lv st seen → (∀ w, w ∈ l → edge g v w) →
  (∃ st' above' lv',
     m_for l (visit_successor (strongconnect depth g) v) st = (Return tt, st') ∧
     loop_inv g v st0 above' lv' st' (seen ++ l)) ∨
  (S depth < size (dom (vertices g) ∖ dom (node_st st0)) ∧
   ∃ st', m_for l (visit_successor (strongconnect depth g) v) st
          = (Raise RecursionError, st')).
Proof.
  intros IH Hinv0 Hvin Hfresh.
  revert above lv st seen. induction l as [|w l IHl]; intros above lv st seen Hloop Hl.
  - left. exists st, above, lv. rewrite app_nil_r. done.
  - destruct (visit_successor_spec depth v w st0 above lv st seen)
      as [(st1 & above1 & lv1 & Hrun1 & Hloop1)|(Hdeep & st1 & Hrun1)]; try done.
    { apply Hl. by left. }
    + destruct (IHl above1 lv1 st1 (seen ++ [w]) Hloop1)
        as [(st2 & above2 & lv2 & Hrun2 & Hloop2)|(Hdeep & st2 & Hrun2)].
      { intros w' Hw'. apply Hl. by right. }
      * left. exists st2, above2, lv2. split.
        -- cbn [m_for]. unfold m_bind. by rewrite Hrun1.
        -- by rewrite <-app_assoc in Hloop2.
      * right. split; [done|]. exists st2. cbn [m_for]. unfold m_bind. by rewrite Hrun1.
    + right. split; [done|]. exists st1. cbn [m_for]. unfold m_bind. by rewrite Hrun1.
Qed.

Lemma loop_inv_entered v st :
  tinv g st → v ∈ dom (vertices g) → v ∉ dom (node_st st) →
  loop_inv g v st [] (idx st) (entered v st) [].
Proof.
  intros Hinv Hvin Hfresh.
  assert (idx_of (entered v st) v = Some (idx st)) as Hiv.
  { unfold idx_of, entered. cbn. by rewrite lookup_insert_eq. }
  split.
  - by apply tinv_entered.
  - unfold entered. cbn. apply insert_subseteq. by apply not_elem_of_dom.
  - unfold entered. cbn. lia.
  - intros x Hx Hx0. unfold entered in Hx. cbn in Hx. rewrite dom_insert_L in Hx.
    apply elem_of_union in Hx as [->%elem_of_singleton|?]; [|done].
    split; [done|]. exists (idx st). by split.
  - unfold entered. cbn. by rewrite lookup_insert_eq.
  - exists []. unfold entered. cbn. by rewrite app_nil_r.
  - done.
  - intros x Hx. by apply elem_of_nil in Hx.
  - exists v. split; [by left|done].
  - intros x Hx. by apply elem_of_nil in Hx.
Qed.

(** A call [strongconnect(v)] for a key not yet visited returns, in a
    state that satisfies [sc_post], unless the nested calls allowed are
    fewer than the keys not yet visited, and then it may also raise
    [RecursionError]. *)
Lemma strongconnect_ends depth v st :
  tinv g st → v ∈ dom (vertices g) → v ∉ dom (node_st st) → sc_ends g depth v st.
Proof.
  revert v st. induction depth as [|depth IH]; intros v st Hinv Hvin Hfresh.
  - right. split; [|by exists st].
    assert (size (dom (vertices g) ∖ dom (node_st st)) ≠ 0); [|lia].
    apply size_non_empty_iff. intros Hempty. specialize (Hempty v).
    rewrite elem_of_difference in Hempty. set_solver.
  - pose proof Hvin as [vx Hvx]%elem_of_dom. unfold sc_ends.
    rewrite (strongconnect_enter depth v st vx); [|..|done].
    2:{ rewrite (stack_inv_elem _ _ (ti_stack _ _ Hinv)). intros Hs.
        apply Hfresh, (ti_visited _ _ Hinv). by left. }
    destruct (loop_spec depth v st (elements (successors vx)) [] (idx st) (entered v st) [])
      as [(st1 & above & lv & Hrun & Hloop)|(Hdeep & st1 & Hrun)]; try done.
    { by apply loop_inv_entered. }
    { intros w Hw%elem_of_elements. unfold edge, succs_of. by rewrite Hvx. }
    + left.
      destruct (close_component_spec v st st1 above lv vx Hinv Hvx Hloop)
        as (st2 & Hclose & Hpost).
      exists st2. split; [|done]. unfold m_bind. by rewrite Hrun.
    + right. split; [done|]. exists st1. unfold m_bind. by rewrite Hrun.
Qed.

Lemma strongconnect_spec depth v st :
  tinv g st → v ∈ dom (vertices g) → v ∉ dom (node_st st) →
  size (dom (vertices g) ∖ dom (node_st st)) ≤ depth →
  ∃ st', strongconnect depth g v st = (Return tt, st') ∧ sc_post g v st st'.
Proof.
  intros Hinv Hvin Hfresh Hsize.
  destruct (strongconnect_ends depth v st Hinv Hvin Hfresh) as [?|[? _]]; [done|lia].
Qed.

(** *** The loop over the roots *)

Lemma tinv_initial : tinv g (mkTarjan ∅ 0 (mkUniqueStack [] ∅) []).
Proof.
  split; cbn.
  - split; [done|constructor].
  - intros x ix lx. by rewrite lookup_empty.
  - intros x. rewrite dom_empty_L. unfold stk, done. cbn. set_solver.
  - constructor.
  - intros x. rewrite dom_empty_L. set_solver.
  - intros x y Hx. by apply elem_of_nil in Hx.
  - intros c Hc. by apply elem_of_nil in Hc.
Qed.

(** A call made with an empty stack returns with an empty stack. *)
Lemma sc_post_root v st st' :
  tinv g st → stk st = [] → sc_post g v st st' → stk st' = [].
Proof.
  intros Hinv Hemp [Hinv1 Hext1 Hidx1 Hnew1 Hv1 [newL HL] Hcase1].
  destruct Hcase1 as [[-> _]|(above & lv & Hstk1 & Hll & Hlt & Hab)]; [done|].
  exfalso. destruct (Hab v) as (_ & (ix & lx & Hn & _ & (y & Hy & Hiy & _) & _) & _).
  { apply elem_of_app. right. by left. }
  assert (lx = lv) as -> by (unfold ll_of in Hll; rewrite Hn in Hll; by simplify_eq/=).
  assert (y ∉ dom (node_st st)) as Hynew.
  { intros [Hys|Hyd]%(ti_visited _ _ Hinv).
    - rewrite Hemp in Hys. by apply elem_of_nil in Hys.
    - pose proof (ti_nodup _ _ Hinv1) as Hnd. apply NoDup_app in Hnd as (_ & Hdis & _).
      apply (Hdis y Hy). by eapply done_grows. }
  destruct (Hnew1 y) as (_ & iy & Hiy' & Hle); [|done|].
  - apply (ti_visited _ _ Hinv1). by left.
  - rewrite Hiy in Hiy'. simplify_eq. lia.
Qed.

Lemma roots_spec limit (l : list K) st :
  tinv g st → stk st = [] → (∀ e, e ∈ l → e ∈ dom (vertices g)) →
  (∃ st', m_for l (root g limit) st = (Return tt, st') ∧
     tinv g st' ∧ stk st' = [] ∧ node_st st ⊆ node_st st' ∧
     ∀ e, e ∈ l → e ∈ dom (node_st st')) ∨
  (limit < size (dom (vertices g)) ∧
   ∃ st', m_for l (root g limit) st = (Raise RecursionError, st')).
Proof.
  revert st. induction l as [|e l IH]; intros st Hinv Hemp Hl.
  - left. exists st. split_and!; try done. intros e He. by apply elem_of_nil in He.
  - assert ((∃ st1, root g limit e st = (Return tt, st1) ∧ tinv g st1 ∧ stk st1 = [] ∧
               node_st st ⊆ node_st st1 ∧ e ∈ dom (node_st st1)) ∨
            (limit < size (dom (vertices g)) ∧
             ∃ st1, root g limit e st = (Raise RecursionError, st1)))
      as [(st1 & Hrun1 & Hinv1 & Hemp1 & Hext1 & He1)|(Hdeep & st1 & Hrun1)].
    { unfold root, m_bind, m_get. destruct (decide (e ∉ dom (node_st st))) as [He|He].
      - destruct (strongconnect_ends limit e st) as [(st1 & Hrun & Hpost)|(Hdeep & st1 & Hrun)];
          try done.
        { apply Hl. by left. }
        + left. exists st1. split; [done|]. split; [apply Hpost|].
          split; [by eapply sc_post_root|]. split; [apply Hpost|].
          apply idx_of_dom. exists (idx st). apply Hpost.
        + right. split; [|by exists st1].
          eapply Nat.lt_le_trans; [exact Hdeep|]. apply subseteq_size. set_solver.
      - left. exists st. split; [done|]. split_and!; try done.
        destruct (decide (e ∈ dom (node_st st))); [done|]. by destruct He. }
    + destruct (IH st1 Hinv1 Hemp1)
        as [(st2 & Hrun2 & Hinv2 & Hemp2 & Hext2 & Hl2)|(Hdeep & st2 & Hrun2)].
      { intros e' He'. apply Hl. by right. }
      * left. exists st2. split_and!; try done.
        -- cbn [m_for]. unfold m_bind. by rewrite Hrun1.
        -- by etrans.
        -- intros e' [->|He']%elem_of_cons; [|by apply Hl2].
           by apply (subseteq_dom _ _ Hext2).
      * right. split; [done|]. exists st2. cbn [m_for]. unfold m_bind. by rewrite Hrun1.
    + right. split; [done|]. exists st1. cbn [m_for]. unfold m_bind. by rewrite Hrun1.
Qed.

(** [tarjans] returns the strongly connected components: lists of keys
    that are classes of mutual reachability, and that together hold every
    key of the graph once.  It can raise [RecursionError] only when fewer
    nested calls are allowed than the graph has keys. *)
Lemma tarjans_spec limit rng use_rng :
  rng (elements (dom (vertices g))) ≡ₚ elements (dom (vertices g)) →
  (∃ sccs, tarjans limit rng g use_rng = Return sccs ∧ components g sccs) ∨
  (limit < size (dom (vertices g)) ∧
   tarjans limit rng g use_rng = Raise RecursionError).
Proof.
  intros Hrng. unfold tarjans.
  assert (UniqueStack_init (K:=K) None = Return (mkUniqueStack [] ∅)) as ->.
  { unfold UniqueStack_init. cbn [stack stackset length].
    by rewrite size_empty, decide_False by lia. }
  cbn [result_bind].
  set (elems := if use_rng then rng (elements (dom (vertices g)))
                else elements (dom (vertices g))).
  assert (elems ≡ₚ elements (dom (vertices g))) as Hperm.
  { unfold elems. by destruct use_rng. }
  destruct (roots_spec limit elems (mkTarjan ∅ 0 (mkUniqueStack [] ∅) []))
    as [(st' & Hrun & Hinv & Hemp & _ & Hall)|(Hdeep & st' & Hrun)].
  - apply tinv_initial.
  - done.
  - intros e. rewrite Hperm. by rewrite elem_of_elements.
  - left. exists (scc_list st'). unfold root in Hrun. rewrite Hrun. split; [done|].
    pose proof (ti_nodup _ _ Hinv) as Hnd. rewrite Hemp in Hnd. split; [done|].
    split; [|apply (ti_sccs _ _ Hinv)].
    intros x. split.
    + intros Hx. apply (ti_dom _ _ Hinv), (ti_visited _ _ Hinv). by right.
    + intros Hx. assert (x ∈ dom (node_st st')) as Hd.
      { apply Hall. rewrite Hperm. by apply elem_of_elements. }
      apply (ti_visited _ _ Hinv) in Hd as [Hd|Hd]; [|done].
      rewrite Hemp in Hd. by apply elem_of_nil in Hd.
  - right. split; [done|]. unfold root in Hrun. by rewrite Hrun.
Qed.

End tarjan.

Section cycle_detection.
Context {K : Type} {eqK : EqDecision K} {cntK : Countable K} {iterK : KeyIter K} {V : Type}.
Implicit Types (g : DAGraph K V) (sccs : list (list K)) (c : list K).

Lemma concat_length_parts sccs :
  (∀ c, c ∈ sccs → c ≠ []) →
  length sccs ≤ length (concat sccs) ∧
  (length sccs = length (concat sccs) ↔ ∀ c, c ∈ sccs → length c = 1).
Proof.
  induction sccs as [|c sccs IH]; intros Hne.
  - split; [done|]. split; [|done]. intros _ c Hc. by apply elem_of_nil in Hc.
  - destruct IH as [IH1 IH2]; [intros; apply Hne; by right|].
    assert (1 ≤ length c).
    { destruct c; [|cbn; lia]. by destruct (Hne []); [left|]. }
    cbn [concat length]. rewrite length_app. split; [lia|]. split.
    + intros Heq c' [->|Hc']%elem_of_cons; [lia|]. apply IH2; [lia|done].
    + intros Hall. assert (length c = 1) as -> by (apply Hall; by left).
      cbn. f_equal. apply IH2. intros; apply Hall; by right.
Qed.

Lemma NoDup_concat_part sccs c : NoDup (concat sccs) → c ∈ sccs → NoDup c.
Proof.
  induction sccs as [|c' sccs IH]; intros Hnd Hc; [by apply elem_of_nil in Hc|].
  cbn in Hnd. apply NoDup_app in Hnd as (? & _ & ?).
  apply elem_of_cons in Hc as [->|?]; eauto.
Qed.

Lemma elem_of_concat_part sccs x : x ∈ concat sccs ↔ ∃ c, c ∈ sccs ∧ x ∈ c.
Proof.
  induction sccs as [|c' sccs IH]; cbn.
  - split; [by intros ?%elem_of_nil|]. by intros (c & ?%elem_of_nil & _).
  - rewrite elem_of_app, IH. split.
    + intros [?|(c & ? & ?)]; [exists c'; split; [by left|done]|].
      exists c. split; [by right|done].
    + intros (c & [->|?]%elem_of_cons & ?); [by left|right; eauto].
Qed.

Lemma components_length g sccs :
  components g sccs → length (concat sccs) = DAGraph_len g.
Proof.
  intros (Hnd & Hall & _). unfold DAGraph_len.
  rewrite <-size_dom. unfold size at 1, set_size. cbn. apply Permutation_length.
  apply NoDup_Permutation; [done|apply NoDup_elements|].
  intros x. by rewrite Hall, elem_of_elements.
Qed.

Lemma components_count g sccs :
  components g sccs →
  length sccs ≤ DAGraph_len g ∧
  (length sccs < DAGraph_len g ↔ ∃ c, c ∈ sccs ∧ 1 < length c).
Proof.
  intros Hc. pose proof (components_length _ _ Hc) as Hlen.
  destruct Hc as (Hnd & Hall & Hscc).
  destruct (concat_length_parts sccs) as [Hle Heq].
  { intros c Hc. by destruct (Hscc c Hc). }
  rewrite Hlen in Hle, Heq. split; [done|]. split.
  - rewrite <-Hlen. clear. induction sccs as [|c sccs IH]; cbn; [lia|].
    rewrite length_app. intros Hlt.
    destruct (decide (1 < length c)) as [|Hshort]; [exists c; split; [by left|done]|].
    destruct IH as (c' & ? & ?); [lia|]. exists c'. split; [by right|done].
  - intros (c & Hc & Hlong). assert (length sccs ≠ DAGraph_len g); [|lia].
    intros Hsame. destruct Heq as [Heq _]. specialize (Heq Hsame c Hc). lia.
Qed.

Lemma together_mutual g sccs x y :
  components g sccs → together sccs x y ↔ x ∈ dom (vertices g) ∧ mutual g x y.
Proof.
  intros (Hnd & Hall & Hscc). split.
  - intros (c & Hc & Hx & Hy). split.
    + apply Hall, elem_of_concat_part. eauto.
    + destruct (Hscc c Hc) as [_ Hcls]. by apply (Hcls x Hx).
  - intros [Hx Hxy]. apply Hall, elem_of_concat_part in Hx as (c & Hc & Hx).
    exists c. split; [done|]. split; [done|].
    destruct (Hscc c Hc) as [_ Hcls]. by apply (Hcls x Hx).
Qed.

Lemma components_same g s1 s2 c1 :
  components g s1 → components g s2 → c1 ∈ s1 → ∃ c2, c2 ∈ s2 ∧ c1 ≡ₚ c2.
Proof.
  intros H1 H2 Hc1. pose proof H1 as (Hnd1 & Hall1 & Hscc1).
  pose proof H2 as (Hnd2 & Hall2 & Hscc2).
  destruct (Hscc1 c1 Hc1) as [Hne Hcls1]. destruct c1 as [|x c1]; [done|].
  assert (x ∈ concat s2) as (c2 & Hc2 & Hx2)%elem_of_concat_part.
  { apply Hall2, Hall1, elem_of_concat_part. exists (x :: c1). split; [done|by left]. }
  exists c2. split; [done|]. destruct (Hscc2 c2 Hc2) as [_ Hcls2].
  apply NoDup_Permutation;
    [by apply (NoDup_concat_part s1)|by apply (NoDup_concat_part s2)|].
  intros y. rewrite (Hcls1 x) by (by left). by rewrite (Hcls2 x).
Qed.

(** A component of more than one key, or a self-loop, is a cycle. *)
Lemma components_cycle g sccs :
  graph_inv g → components g sccs →
  (has_self_loop g ∨ ∃ c, c ∈ sccs ∧ 1 < length c) ↔ ∃ x, tc (edge g) x x.
Proof.
  intros Hg Hc. pose proof Hc as (Hnd & Hall & Hscc). split.
  - intros [[x Hx]|(c & Hc' & Hlong)]; [exists x; by apply tc_once|].
    destruct c as [|x [|y c]]; [cbn in Hlong; lia..|].
    assert (x ≠ y) as Hxy.
    { apply (NoDup_concat_part _ _ Hnd) in Hc'. apply NoDup_cons in Hc' as [Hx _].
      intros ->. apply Hx. by left. }
    destruct (Hscc _ Hc') as [_ Hcls].
    destruct (Hcls x) with y as [[Hfwd Hbwd] _]; [by left|right; by left|].
    exists x. apply rtc_tc in Hfwd as [?|Hfwd]; [done|]. by eapply tc_rtc_r.
  - intros [x Hx]. apply tc_nsteps in Hx as (n & Hn & Hx).
    destruct n as [|n]; [lia|]. inversion Hx as [|? ? y ? Hxy Hyx]; subst.
    apply rtc_nsteps_2 in Hyx.
    destruct (decide (x = y)) as [->|Hne]; [left; by exists y|].
    right. destruct (edge_dom _ _ _ Hg Hxy) as [Hxin _].
    assert (together sccs x y) as (c & Hc' & Hxc & Hyc).
    { apply (together_mutual g); [done|]. split; [done|]. split; [by apply rtc_once|done]. }
    exists c. split; [done|].
    pose proof (NoDup_concat_part _ _ Hnd Hc') as Hndc.
    destruct c as [|a [|b c]]; [by apply elem_of_nil in Hxc| |cbn; lia].
    apply list_elem_of_singleton in Hxc, Hyc. congruence.
Qed.

Lemma tarjans_ends g limit rng use_rng :
  graph_inv g → (∀ l, rng l ≡ₚ l) →
  (∃ sccs, tarjans limit rng g use_rng = Return sccs ∧ components g sccs) ∨
  (limit < DAGraph_len g ∧ tarjans limit rng g use_rng = Raise RecursionError).
Proof.
  intros Hg Hrng. unfold DAGraph_len. rewrite <-size_dom.
  apply (tarjans_spec g Hg limit rng use_rng (Hrng _)).
Qed.

Lemma tarjans_components g limit rng use_rng :
  graph_inv g → DAGraph_len g ≤ limit → (∀ l, rng l ≡ₚ l) →
  ∃ sccs, tarjans limit rng g use_rng = Return sccs ∧ components g sccs.
Proof.
  intros Hg Hlimit Hrng.
  destruct (tarjans_ends g limit rng use_rng Hg Hrng) as [?|[? _]]; [done|lia].
Qed.

Lemma tarjans_returns g limit rng use_rng sccs :
  graph_inv g → (∀ l, rng l ≡ₚ l) →
  tarjans limit rng g use_rng = Return sccs → components g sccs.
Proof.
  intros Hg Hrng Hrun.
  destruct (tarjans_ends g limit rng use_rng Hg Hrng) as [(sccs' & Hrun' & ?)|[_ Hrun']];
    congruence.
Qed.

Lemma is_cyclic_unfold g limit rng use_rng sccs :
  tarjans limit rng g use_rng = Return sccs →
  is_cyclic limit rng g use_rng =
    Return (if direct_cyclic g then true
            else bool_decide (length sccs ≠ DAGraph_len g)).
Proof. intros Hrun. unfold is_cyclic. rewrite Hrun. by destruct (direct_cyclic g). Qed.

Lemma is_cyclic_true g sccs :
  graph_inv g → components g sccs →
  (if direct_cyclic g then true else bool_decide (length sccs ≠ DAGraph_len g)) = true ↔
  has_self_loop g ∨ length sccs < DAGraph_len g.
Proof.
  intros Hg Hc. destruct (components_count _ _ Hc) as [Hle _].
  rewrite <-(inv_flag _ Hg). destruct (direct_cyclic g); [naive_solver|].
  rewrite bool_decide_eq_true. split; [intros; right; lia|].
  intros [?|?]; [done|lia].
Qed.

(** Whatever [is_cyclic] returns says whether the graph has a cycle. *)
Lemma is_cyclic_returns g limit rng use_rng b :
  graph_inv g → (∀ l, rng l ≡ₚ l) →
  is_cyclic limit rng g use_rng = Return b →
  b = true ↔ ∃ x, tc (edge g) x x.
Proof.
  intros Hg Hrng. unfold is_cyclic. destruct (direct_cyclic g) eqn:Hflag.
  - intros [= <-]. split; [|done]. intros _.
    apply (inv_flag _ Hg) in Hflag as [x Hx]. exists x. by apply tc_once.
  - destruct (tarjans limit rng g use_rng) as [sccs| |] eqn:Hrun; cbn; [|done..].
    intros [= <-]. pose proof (tarjans_returns _ _ _ _ _ Hg Hrng Hrun) as Hc.
    pose proof (is_cyclic_true g sccs Hg Hc) as Htrue. rewrite Hflag in Htrue.
    rewrite Htrue, <-(components_cycle g sccs Hg Hc).
    destruct (components_count g sccs Hc) as [_ Hcount]. by rewrite Hcount.
Qed.

Lemma is_cyclic_false_acyclic g limit rng use_rng :
  graph_inv g → (∀ l, rng l ≡ₚ l) →
  is_cyclic limit rng g use_rng = Return false →
  ∀ k, acyclic_from g k ∧ acyclic_to g k.
Proof.
  intros Hg Hrng Hfalse.
  assert (∀ x, ¬ tc (edge g) x x) as Hno.
  { intros x Hx. assert (false = true); [|done].
    apply (is_cyclic_returns g limit rng use_rng false Hg Hrng Hfalse). eauto. }
  intros k. split; intros x _; apply Hno.
Qed.

(** C1: when [tarjans] returns, what it returns are the strongly
    connected components of the graph (lists that are the classes of mutual
    reachability and together hold every key once), and [is_cyclic] returns
    true exactly when the graph has a cycle, which is exactly when the
    graph has a self-loop or [tarjans] produced fewer components than
    there are vertices, which is when some component has more than one
    member, and it returns false for a graph without edges; [tarjans]
    returns whenever at least as many nested calls are allowed as the graph
    has vertices, and with fewer it returns or raises [RecursionError];
    with the self-loop flag set [is_cyclic] returns true at once, whatever
    the bound on nested calls. *)
Theorem C1_is_cyclic_counts_components g limit rng use_rng :
  built g → (∀ l, rng l ≡ₚ l) →
  (∀ sccs, tarjans limit rng g use_rng = Return sccs →
     components g sccs ∧
     (∀ x y, together sccs x y ↔ x ∈ dom (vertices g) ∧ mutual g x y) ∧
     ∃ b, is_cyclic limit rng g use_rng = Return b ∧
       (b = true ↔ ∃ x, tc (edge g) x x) ∧
       (b = true ↔ has_self_loop g ∨ length sccs < DAGraph_len g) ∧
       (length sccs < DAGraph_len g ↔ ∃ c, c ∈ sccs ∧ 1 < length c) ∧
       (no_edges g → b = false)) ∧
  (DAGraph_len g ≤ limit → ∃ sccs, tarjans limit rng g use_rng = Return sccs) ∧
  ((∃ sccs, tarjans limit rng g use_rng = Return sccs) ∨
   (limit < DAGraph_len g ∧ tarjans limit rng g use_rng = Raise RecursionError)) ∧
  (direct_cyclic g = true → is_cyclic limit rng g use_rng = Return true).
Proof.
  intros Hg%built_graph_inv Hrng. split_and!.
  - intros sccs Hrun. pose proof (tarjans_returns _ _ _ _ _ Hg Hrng Hrun) as Hc.
    split; [done|]. split; [intros x y; by apply together_mutual|].
    exists (if direct_cyclic g then true
            else bool_decide (length sccs ≠ DAGraph_len g)).
    pose proof (is_cyclic_true g sccs Hg Hc) as Htrue.
    pose proof (components_count g sccs Hc) as [_ Hcount].
    pose proof (is_cyclic_unfold _ _ _ _ _ Hrun) as Hcyc.
    split_and!; try done.
    + by apply (is_cyclic_returns g limit rng use_rng).
    + intros Hno. apply not_true_is_false. intros Hb. apply Htrue in Hb.
      assert (∃ x, tc (edge g) x x) as [x Hx].
      { apply (components_cycle g sccs Hg Hc). destruct Hb as [?|?%Hcount]; eauto. }
      apply tc_nsteps in Hx as (n & Hn & Hx). destruct n as [|n]; [lia|].
      inversion Hx as [|? ? y ? Hxy _]; subst. by apply (Hno x y).
  - intros Hlimit.
    destruct (tarjans_components g limit rng use_rng Hg Hlimit Hrng) as (sccs & ? & _).
    by exists sccs.
  - destruct (tarjans_ends g limit rng use_rng Hg Hrng) as [(sccs & ? & _)|?];
      [left; by exists sccs|by right].
  - intros Hflag. unfold is_cyclic. by rewrite Hflag.
Qed.

(** C4: whatever the randomization flag, whatever order the shuffle
    produces and whatever the bound on nested calls, two runs of
    [is_cyclic] that return, return the same boolean (the one that says
    whether the graph has a cycle), and two runs of [tarjans] that return,
    return the same partition of the keys: the same keys lie together, and
    each component of one run is, up to the order of its keys, a component
    of the other.  Runs that are allowed at least as many nested calls as
    the graph has vertices do return. *)
Theorem C4_result_independent_of_order g limit1 limit2 rng1 rng2 use_rng1 use_rng2 :
  built g → (∀ l, rng1 l ≡ₚ l) → (∀ l, rng2 l ≡ₚ l) →
  (∀ sccs1 sccs2,
     tarjans limit1 rng1 g use_rng1 = Return sccs1 →
     tarjans limit2 rng2 g use_rng2 = Return sccs2 →
     (∀ x y, together sccs1 x y ↔ together sccs2 x y) ∧
     (∀ c1, c1 ∈ sccs1 → ∃ c2, c2 ∈ sccs2 ∧ c1 ≡ₚ c2) ∧
     (∀ c2, c2 ∈ sccs2 → ∃ c1, c1 ∈ sccs1 ∧ c2 ≡ₚ c1)) ∧
  (∀ b1 b2,
     is_cyclic limit1 rng1 g use_rng1 = Return b1 →
     is_cyclic limit2 rng2 g use_rng2 = Return b2 →
     b1 = b2 ∧ (b1 = true ↔ ∃ x, tc (edge g) x x)) ∧
  (DAGraph_len g ≤ limit1 → DAGraph_len g ≤ limit2 →
     ∃ sccs1 sccs2 b,
       tarjans limit1 rng1 g use_rng1 = Return sccs1 ∧
       tarjans limit2 rng2 g use_rng2 = Return sccs2 ∧
       is_cyclic limit1 rng1 g use_rng1 = Return b ∧
       is_cyclic limit2 rng2 g use_rng2 = Return b).
Proof.
  intros Hg%built_graph_inv Hrng1 Hrng2. split_and!.
  - intros sccs1 sccs2 Hc1%tarjans_returns Hc2%tarjans_returns; try done.
    split_and!.
    + intros x y. by rewrite (together_mutual g sccs1), (together_mutual g sccs2).
    + intros c1. by apply (components_same g).
    + intros c2. by apply (components_same g).
  - intros b1 b2 Hb1%is_cyclic_returns Hb2%is_cyclic_returns; try done.
    split; [|done]. apply eq_true_iff_eq. by rewrite Hb1, Hb2.
  - intros Hlimit1 Hlimit2.
    destruct (tarjans_components g limit1 rng1 use_rng1 Hg Hlimit1 Hrng1)
      as (sccs1 & Hrun1 & Hc1).
    destruct (tarjans_components g limit2 rng2 use_rng2 Hg Hlimit2 Hrng2)
      as (sccs2 & Hrun2 & Hc2).
    pose proof (is_cyclic_unfold _ _ _ _ _ Hrun1) as Hcyc1.
    pose proof (is_cyclic_unfold _ _ _ _ _ Hrun2) as Hcyc2.
    exists sccs1, sccs2, (if direct_cyclic g then true
                          else bool_decide (length sccs1 ≠ DAGraph_len g)).
    pose proof (is_cyclic_returns _ _ _ _ _ Hg Hrng1 Hcyc1) as Hb1.
    pose proof (is_cyclic_returns _ _ _ _ _ Hg Hrng2 Hcyc2) as Hb2.
    split_and!; try done. rewrite Hcyc2. f_equal. apply eq_true_iff_eq.
    by rewrite Hb1, Hb2.
Qed.

End cycle_detection.

(** * The properties at the graphs of the examples *)

Lemma built_g_dag : built g_dag.
Proof. apply built_build, built_init. Qed.
Lemma built_g_cycle : built g_cycle.
Proof. apply built_build, built_init. Qed.
Lemma built_g_two : built g_two.
Proof. apply built_build, built_init. Qed.
Lemma built_g_loop : built g_loop.
Proof. apply built_build, built_init. Qed.
Lemma built_g_diamond : built g_diamond.
Proof. apply built_build, built_init. Qed.
Lemma built_g_ab : built g_ab.
Proof. apply built_build, built_init. Qed.

Lemma g_dag_acyclic : ∀ k, acyclic_from g_dag k ∧ acyclic_to g_dag k.
Proof.
  apply (is_cyclic_false_acyclic g_dag 3 id false).
  - apply built_graph_inv, built_g_dag.
  - done.
  - vm_compute. reflexivity.
Qed.

(** Where [add_edges] does treat an argument as one key: an [int] key, and
    a [str] key of length one (the keys of [test_alternate_api]). *)
Lemma add_edges_int_key {V} (g : DAGraph Z V) (dst k : Z) :
  add_edges dst [ArgKey k] g = add_edge dst k g.
Proof. by apply add_edges_key. Qed.

Lemma add_edges_char_key {V} (g : DAGraph string V) (dst : string) (c : Ascii.ascii) :
  add_edges dst [ArgKey (String c EmptyString)] g
  = add_edge dst (String c EmptyString) g.
Proof. rewrite add_edges_flat. cbn. apply m_for_singleton. Qed.

(** [test_alternate_api]: both calling conventions give the same graph. *)
Lemma test_alternate_api :
  let g := build (vertex <$> ["a"; "b"; "c"; "d"; "e"; "f"; "g"]) DAGraph_init in
  add_edges "a" (ArgKey <$> ["b"; "c"; "d"; "e"; "f"]) g
  = add_edges "a" [ArgList ["b"; "c"; "d"; "e"; "f"]] g ∧
  get_direct_predecessors (after (add_edges "a" [ArgList ["b"; "c"; "d"; "e"; "f"]] g)) "a"
  = Return (elements ({["b"; "c"; "d"; "e"; "f"]} : gset string)).
Proof. split; vm_compute; reflexivity. Qed.

(** C5: [add_edges] iterates every argument that is an [Iterable], and a
    [str] key is one.  In the graph with the keys "a", "b" and "ab",
    [add_edge("a", "ab")] adds the edge ab → a, while
    [add_edges("a", "ab")] adds a → a and b → a, sets the self-loop flag
    and adds no edge from "ab"; with the keys "binary" and "source1.o",
    [add_edge("binary", "source1.o")] returns and
    [add_edges("binary", "source1.o")] raises for the absent key "s". *)
Theorem C5_add_edges_iterates_str_key :
  outcome (add_edge "a" "ab" g_ab) = Return tt ∧
  edge (after (add_edge "a" "ab" g_ab)) "ab" "a" ∧
  direct_cyclic (after (add_edge "a" "ab" g_ab)) = false ∧
  outcome (add_edges "a" [ArgKey "ab"] g_ab) = Return tt ∧
  ¬ edge (after (add_edges "a" [ArgKey "ab"] g_ab)) "ab" "a" ∧
  edge (after (add_edges "a" [ArgKey "ab"] g_ab)) "a" "a" ∧
  edge (after (add_edges "a" [ArgKey "ab"] g_ab)) "b" "a" ∧
  direct_cyclic (after (add_edges "a" [ArgKey "ab"] g_ab)) = true ∧
  outcome (add_edge "binary" "source1.o" g_build) = Return tt ∧
  outcome (add_edges "binary" [ArgKey "source1.o"] g_build) = Raise (NotPresent "s").
Proof.
  split_and!; try (vm_compute; reflexivity); try by_compute.
Qed.

Lemma C8_witness :
  stack_inv s_ab ∧ stack_inv (after (push "c" s_ab)) ∧ stack_inv (after (pop s_ab)).
Proof.
  assert (stack_inv s_ab) as Hs.
  { split; [vm_compute; reflexivity|by_compute]. }
  split; [exact Hs|].
  destruct (C8_unique_stack_invariant s_ab "c" Hs) as (Hpush & Hpop & _).
  exact (conj Hpush Hpop).
Defined.

Lemma C6_witness :
  after (add_vertex "a" None g_dag) = g_dag ∧ after (add_edge "zz" "a" g_dag) = g_dag.
Proof.
  destruct (C6_failed_call_leaves_graph g_dag "a" None "zz" "a") as (Hv & He & _).
  split.
  - apply (Hv (DuplicateKey "a")). vm_compute. reflexivity.
  - apply (He (NotPresent "zz")). vm_compute. reflexivity.
Defined.

Lemma C9_witness :
  setitem "a" None g_dag = (Raise (DuplicateKey "a"), g_dag) ∧
  getitem g_dag "zz" = Raise (KeyError "zz").
Proof.
  destruct (C9_setitem_is_add_vertex g_dag "a" None) as (_ & _ & Hdup & _).
  destruct (C9_setitem_is_add_vertex g_dag "zz" None) as (_ & _ & _ & Hget).
  split.
  - apply Hdup. by_compute.
  - apply Hget. by_compute.
Defined.

Lemma C7_witness :
  built g_cycle ∧
  ∀ k vx x,
    vertices g_cycle !! k = Some vx → x ∈ successors vx ∨ x ∈ predecessors vx →
    ∃ vx', vertices g_cycle !! x = Some vx' ∧ key vx' = x.
Proof.
  split; [exact built_g_cycle|].
  exact (proj2 (C7_edge_symmetry g_cycle built_g_cycle)).
Defined.

Lemma C10_witness :
  built g_ab ∧
  outcome (add_edges "a" [ArgList ["b"; "zz"; "ab"]] g_ab) = Raise (NotPresent "zz") ∧
  ∃ pre e post,
    concat (arg_keys <$> [ArgList ["b"; "zz"; "ab"]]) = pre ++ e :: post ∧
    outcome (add_edge "a" e (after (m_for pre (add_edge "a") g_ab)))
      = Raise (NotPresent "zz") ∧
    after (add_edges "a" [ArgList ["b"; "zz"; "ab"]] g_ab)
      = after (m_for pre (add_edge "a") g_ab) ∧
    ∀ x, x ∈ pre →
      edge (after (add_edges "a" [ArgList ["b"; "zz"; "ab"]] g_ab)) x "a" ∧
      back_edge (after (add_edges "a" [ArgList ["b"; "zz"; "ab"]] g_ab)) "a" x.
Proof.
  assert (outcome (add_edges "a" [ArgList ["b"; "zz"; "ab"]] g_ab)
          = Raise (NotPresent "zz")) as Hraise by (vm_compute; reflexivity).
  split; [exact built_g_ab|]. split; [exact Hraise|].
  exact (C10_add_edges_keeps_earlier_edges g_ab "a" [ArgList ["b"; "zz"; "ab"]]
           (NotPresent "zz") built_g_ab Hraise).
Defined.

(** [add_edges("a", ["b", "zz", "ab"])] raises at "zz" and leaves the edge
    b → a in a graph that had none; "ab" is never reached. *)
Lemma add_edges_partial :
  edge (after (add_edges "a" [ArgList ["b"; "zz"; "ab"]] g_ab)) "b" "a" ∧
  ¬ edge g_ab "b" "a" ∧
  ¬ edge (after (add_edges "a" [ArgList ["b"; "zz"; "ab"]] g_ab)) "ab" "a".
Proof. split_and!; by_compute. Qed.

Lemma C2_witness :
  built g_dag ∧ "a" ∈ dom (vertices g_dag) ∧ acyclic_from g_dag "a" ∧
  ∃ n l, (∀ fuel, n ≤ fuel → get_all_successors fuel g_dag "a" = Return l) ∧
         NoDup l ∧ ("a" ∉ l) ∧ ∀ x, x ∈ l ↔ tc (edge g_dag) "a" x.
Proof.
  assert ("a" ∈ dom (vertices g_dag)) as Hin by by_compute.
  pose proof (proj1 (g_dag_acyclic "a")) as Hacyc.
  split; [exact built_g_dag|]. split; [exact Hin|]. split; [exact Hacyc|].
  exact (proj1 (C2_transitive_queries_on_acyclic_part g_dag "a" built_g_dag Hin) Hacyc).
Defined.

Lemma C3_witness :
  built g_dag ∧ "c" ∈ dom (vertices g_dag) ∧ acyclic_to g_dag "c" ∧
  ∃ n, ∀ fuel, n ≤ fuel → ∃ l, get_all_predecessors fuel g_dag "c" = Return l.
Proof.
  assert ("c" ∈ dom (vertices g_dag)) as Hin by by_compute.
  pose proof (proj2 (g_dag_acyclic "c")) as Hacyc.
  split; [exact built_g_dag|]. split; [exact Hin|]. split; [exact Hacyc|].
  exact (proj1 (proj2 (C3_transitive_queries_termination g_dag "c" built_g_dag Hin))
           Hacyc).
Defined.

(** C2, as stated, fails on a → b → a: [get_all_successors("a")] returns
    no list, however long it runs. *)
Lemma C2_counterexample :
  built g_two ∧ "a" ∈ dom (vertices g_two) ∧
  ∀ fuel, get_all_successors fuel g_two "a" = OutOfFuel.
Proof.
  split; [exact built_g_two|]. split; [by_compute|]. intros fuel.
  apply (get_all_successors_cyclic g_two "a" "a").
  - apply built_graph_inv, built_g_two.
  - by_compute.
  - done.
  - apply tc_l with "b"; [by_compute|]. apply tc_once. by_compute.
Qed.

(** C3, as stated, fails on a → a, where neither query ends; and no
    visited set is kept: in the diamond, where three keys can be reached
    from "a", three rounds of the loop are not enough and the fourth
    finishes it, "d" being taken from the work list twice. *)
Lemma C3_counterexample :
  built g_loop ∧ "a" ∈ dom (vertices g_loop) ∧
  (∀ fuel, get_all_successors fuel g_loop "a" = OutOfFuel) ∧
  (∀ fuel, get_all_predecessors fuel g_loop "a" = OutOfFuel) ∧
  built g_diamond ∧
  get_all_successors 3 g_diamond "a" = OutOfFuel ∧
  ∃ l, get_all_successors 4 g_diamond "a" = Return l ∧ length l = 3.
Proof.
  assert (graph_inv g_loop) as Hg by apply built_graph_inv, built_g_loop.
  assert ("a" ∈ dom (vertices g_loop)) as Hin by by_compute.
  assert (tc (edge g_loop) "a" "a") as Hloop by (apply tc_once; by_compute).
  split_and!.
  - exact built_g_loop.
  - exact Hin.
  - intros fuel. by apply (get_all_successors_cyclic g_loop "a" "a").
  - intros fuel. by apply (get_all_predecessors_cyclic g_loop "a" "a").
  - exact built_g_diamond.
  - vm_compute. reflexivity.
  - eexists. split; vm_compute; reflexivity.
Qed.

Lemma C1_witness :
  built g_cycle ∧ (∀ l : list string, reverse l ≡ₚ l) ∧ DAGraph_len g_cycle ≤ 3 ∧
  ∃ sccs,
    tarjans 3 reverse g_cycle true = Return sccs ∧
    components g_cycle sccs ∧
    (∀ x y, together sccs x y ↔ x ∈ dom (vertices g_cycle) ∧ mutual g_cycle x y) ∧
    ∃ b,
      is_cyclic 3 reverse g_cycle true = Return b ∧
      (b = true ↔ ∃ x, tc (edge g_cycle) x x) ∧
      (b = true ↔ has_self_loop g_cycle ∨ length sccs < DAGraph_len g_cycle) ∧
      (length sccs < DAGraph_len g_cycle ↔ ∃ c, c ∈ sccs ∧ 1 < length c) ∧
      (no_edges g_cycle → b = false).
Proof.
  assert (DAGraph_len g_cycle ≤ 3) as Hlen by (vm_compute; lia).
  split; [exact built_g_cycle|]. split; [exact reverse_Permutation|].
  split; [exact Hlen|].
  destruct (C1_is_cyclic_counts_components g_cycle 3 reverse true
              built_g_cycle reverse_Permutation) as (Hret & Hruns & _).
  destruct (Hruns Hlen) as [sccs Hrun].
  exists sccs. exact (conj Hrun (Hret sccs Hrun)).
Defined.

Lemma C4_witness :
  built g_cycle ∧ (∀ l : list string, id l ≡ₚ l) ∧
  (∀ l : list string, reverse l ≡ₚ l) ∧
  DAGraph_len g_cycle ≤ 3 ∧ DAGraph_len g_cycle ≤ 5 ∧
  ∃ sccs1 sccs2 b,
    tarjans 3 id g_cycle false = Return sccs1 ∧
    tarjans 5 reverse g_cycle true = Return sccs2 ∧
    is_cyclic 3 id g_cycle false = Return b ∧
    is_cyclic 5 reverse g_cycle true = Return b ∧
    (∀ x y, together sccs1 x y ↔ together sccs2 x y) ∧
    (b = true ↔ ∃ x, tc (edge g_cycle) x x).
Proof.
  assert (DAGraph_len g_cycle ≤ 3) as Hlen3 by (vm_compute; lia).
  assert (DAGraph_len g_cycle ≤ 5) as Hlen5 by (vm_compute; lia).
  assert (∀ l : list string, id l ≡ₚ l) as Hid by (intros l; reflexivity).
  split; [exact built_g_cycle|]. split; [exact Hid|].
  split; [exact reverse_Permutation|]. split; [exact Hlen3|]. split; [exact Hlen5|].
  destruct (C4_result_independent_of_order g_cycle 3 5 id reverse false true
              built_g_cycle Hid reverse_Permutation) as (Hpart & Hbool & Hruns).
  destruct (Hruns Hlen3 Hlen5) as (sccs1 & sccs2 & b & Hrun1 & Hrun2 & Hcyc1 & Hcyc2).
  exists sccs1, sccs2, b.
  exact (conj Hrun1 (conj Hrun2 (conj Hcyc1 (conj Hcyc2
           (conj (proj1 (Hpart sccs1 sccs2 Hrun1 Hrun2))
                 (proj2 (Hbool b b Hcyc1 Hcyc2))))))).
Defined.

(** What [is_cyclic] and [tarjans] return on the example graphs.  With two
    nested calls allowed the cycle of three keys raises [RecursionError],
    as the long chain of [test_reaching_recursion_depth] does; and whether
    a run with few nested calls allowed raises depends on the order of the
    roots: on a → b → c with one call allowed, the order c, b, a returns
    and the order c, a, b raises. *)
Lemma tarjans_examples :
  is_cyclic 3 id g_cycle false = Return true ∧
  is_cyclic 3 reverse g_cycle true = Return true ∧
  is_cyclic 3 id g_dag false = Return false ∧
  is_cyclic 0 id g_loop false = Return true ∧
  is_cyclic 2 id g_cycle false = Raise RecursionError ∧
  (∃ sccs, tarjans 3 id g_dag false = Return sccs ∧ length sccs = 3) ∧
  tarjans 1 (λ _, ["c"; "b"; "a"]) g_dag true = Return [["c"]; ["b"]; ["a"]] ∧
  tarjans 1 (λ _, ["c"; "a"; "b"]) g_dag true = Raise RecursionError.
Proof.
  split_and!; try (vm_compute; reflexivity).
  eexists. split; vm_compute; reflexivity.
Qed.

(** * Further properties of the code *)

Section stack_properties.
Context {K : Type} {eqK : EqDecision K} {cntK : Countable K}.
Implicit Types (s : UniqueStack K) (x y : K) (l : list K).

(** X1: for an element that is not in the stack, [push(x)] followed by
    [pop()] returns [x] and leaves the stack, deque and set, as it was. *)
Theorem X1_push_then_pop s x :
  x ∉ stackset s → (push x ;;m pop) s = (Return x, s).
Proof.
  intros Hx. unfold m_bind. rewrite push_fresh by done. unfold pop. cbn.
  destruct s as [d ss]. unfold with_stackset, with_stack. cbn in *. do 2 f_equal.
  apply set_eq. intros y. rewrite elem_of_difference, elem_of_union, elem_of_singleton.
  split; [naive_solver|]. intros Hy. split; [by right|]. by intros ->.
Qed.

(** X2: [peek()] returns the element that [pop()] would return, and both
    raise [IndexError] exactly on the stack of length 0, which [pop]
    leaves as it is. *)
Theorem X2_peek_is_next_pop s :
  (∀ x, peek s = Return x ↔ outcome (pop s) = Return x) ∧
  (UniqueStack_len s = 0 ↔ peek s = Raise IndexError) ∧
  (UniqueStack_len s = 0 ↔ pop s = (Raise IndexError, s)).
Proof.
  unfold peek, pop, UniqueStack_len, outcome. destruct (stack s) as [|a d]; cbn.
  - split_and!; [intros x; split; by intros ?|done|done].
  - split_and!; [intros x; split; by intros [= ->]|split; by intros ?..].
Qed.

(** X3: on a stack that satisfies the invariant, [len] is the size of the
    membership set and [in] tells membership in the sequence; a [pop()] that
    returns [x] makes the stack one shorter, [x] is no longer [in] it and
    nothing else changes its membership. *)
Theorem X3_pop_removes s x :
  stack_inv s → outcome (pop s) = Return x →
  UniqueStack_len s = size (stackset s) ∧
  (∀ y, UniqueStack_contains s y = true ↔ y ∈ stack s) ∧
  UniqueStack_contains s x = true ∧
  UniqueStack_contains (after (pop s)) x = false ∧
  S (UniqueStack_len (after (pop s))) = UniqueStack_len s ∧
  ∀ y, y ≠ x →
    UniqueStack_contains (after (pop s)) y = UniqueStack_contains s y.
Proof.
  intros Hs Hpop. pose proof (stack_inv_pop s Hs) as Hs'.
  pose proof Hs as [Hset Hnd].
  assert (∀ s' y, stack_inv s' → UniqueStack_contains s' y = true ↔ y ∈ stack s') as Hin.
  { intros s' y Hinv. unfold UniqueStack_contains. rewrite bool_decide_eq_true.
    by apply stack_inv_elem. }
  unfold pop, outcome in *. destruct (stack s) as [|a d] eqn:Hd; [done|].
  cbn in Hpop. injection Hpop as ->. apply NoDup_cons in Hnd as [Hx Hnd].
  cbn [after snd] in *. split_and!.
  - unfold UniqueStack_len. rewrite Hd, Hset. by rewrite size_list_to_set by by constructor.
  - intros y. rewrite (Hin s y Hs). by rewrite Hd.
  - apply (Hin s x Hs). rewrite Hd. by left.
  - apply not_true_is_false. rewrite (Hin _ x Hs'). done.
  - unfold UniqueStack_len. cbn. by rewrite Hd.
  - intros y Hy. apply eq_true_iff_eq. rewrite (Hin _ y Hs'), (Hin s y Hs), Hd. cbn.
    rewrite elem_of_cons. naive_solver.
Qed.

(** X4: a stack built from a sequence has the last element of the sequence
    on top: when [UniqueStack(l + [x])] succeeds, so does [UniqueStack(l)],
    and [pop()] on the first returns [x] and leaves the second. *)
Theorem X4_init_then_pop l x s :
  UniqueStack_init (Some (l ++ [x])) = Return s →
  ∃ s', UniqueStack_init (Some l) = Return s' ∧ pop s = (Return x, s').
Proof.
  rewrite !UniqueStack_init_Some. destruct (decide (NoDup (l ++ [x]))) as [Hnd|]; [|done].
  intros [= <-]. apply NoDup_app in Hnd as (Hl & Hx & _).
  rewrite decide_True by done. eexists. split; [done|].
  unfold pop. cbn. rewrite reverse_app. cbn. unfold with_stackset, with_stack. cbn.
  do 2 f_equal. apply set_eq. intros y.
  rewrite elem_of_difference, !elem_of_list_to_set, elem_of_app,
    list_elem_of_singleton, elem_of_singleton.
  split; [naive_solver|]. intros Hy. split; [by left|]. intros ->.
  apply (Hx x Hy). by left.
Qed.

End stack_properties.

Section graph_properties.
Context {K : Type} {eqK : EqDecision K} {cntK : Countable K} {iterK : KeyIter K} {V : Type}.
Implicit Types (g : DAGraph K V) (k dst src a b : K).

Lemma contains_dom g k : DAGraph_contains g k = true ↔ k ∈ dom (vertices g).
Proof. unfold DAGraph_contains. by rewrite bool_decide_eq_true. Qed.

Lemma contains_false g k : DAGraph_contains g k = false ↔ k ∉ dom (vertices g).
Proof. unfold DAGraph_contains. by rewrite bool_decide_eq_false. Qed.

(** X5: [add_vertex(key, value)] for a key that is not [in] the graph
    returns; afterwards [graph[key]] is [value], the key is [in] the graph
    with no successor and no predecessor, [len] is one more, and the value
    and the membership of every other key are as before. *)
Theorem X5_add_vertex_then_read g k v :
  DAGraph_contains g k = false →
  outcome (add_vertex k v g) = Return tt ∧
  getitem (after (add_vertex k v g)) k = Return v ∧
  DAGraph_contains (after (add_vertex k v g)) k = true ∧
  get_direct_successors (after (add_vertex k v g)) k = Return [] ∧
  get_direct_predecessors (after (add_vertex k v g)) k = Return [] ∧
  DAGraph_len (after (add_vertex k v g)) = S (DAGraph_len g) ∧
  ∀ k', k' ≠ k →
    getitem (after (add_vertex k v g)) k' = getitem g k' ∧
    DAGraph_contains (after (add_vertex k v g)) k' = DAGraph_contains g k'.
Proof.
  intros Hk%contains_false. rewrite add_vertex_absent by done. cbn [outcome after fst snd].
  split_and!.
  - done.
  - unfold getitem, vertex_at. cbn. by rewrite lookup_insert_eq.
  - apply contains_dom. cbn. rewrite dom_insert_L. set_solver.
  - unfold get_direct_successors, vertex_at. cbn. rewrite lookup_insert_eq. cbn.
    by rewrite elements_empty.
  - unfold get_direct_predecessors, vertex_at. cbn. rewrite lookup_insert_eq. cbn.
    by rewrite elements_empty.
  - unfold DAGraph_len. cbn. apply map_size_insert_None. by apply not_elem_of_dom.
  - intros k' Hk'. split.
    + unfold getitem, vertex_at. cbn. by rewrite lookup_insert_ne.
    + apply eq_true_iff_eq. rewrite !contains_dom. cbn. rewrite dom_insert_L. set_solver.
Qed.

Lemma add_edge_same_vertices g dst src :
  dom (vertices (after (add_edge dst src g))) = dom (vertices g) ∧
  ∀ k, getitem (after (add_edge dst src g)) k = getitem g k.
Proof.
  destruct (decide (src ∈ dom (vertices g))) as [Hs|Hs];
    [|by rewrite add_edge_no_src].
  destruct (decide (dst ∈ dom (vertices g))) as [Hd|Hd];
    [|by rewrite add_edge_no_dst].
  apply elem_of_dom in Hs as [vs Hs]. apply elem_of_dom in Hd as [vd Hd].
  rewrite (add_edge_present _ _ _ _ _ Hs Hd). cbn [after snd].
  split; [apply edge_added_dom|].
  intros k. unfold getitem, vertex_at, edge_added. cbn. rewrite !lookup_alter.
  repeat case_decide; simplify_eq; rewrite ?Hs, ?Hd; try done.
  all: by destruct (vertices g !! _).
Qed.

(** X6: [add_edge] and [add_edges], whether they return or raise, add or
    remove no key and change no value: the key set, [len] and every
    [graph[key]] are as before. *)
Theorem X6_edges_leave_vertices g dst src srcs :
  (dom (vertices (after (add_edge dst src g))) = dom (vertices g) ∧
   DAGraph_len (after (add_edge dst src g)) = DAGraph_len g ∧
   ∀ k, getitem (after (add_edge dst src g)) k = getitem g k) ∧
  (dom (vertices (after (add_edges dst srcs g))) = dom (vertices g) ∧
   DAGraph_len (after (add_edges dst srcs g)) = DAGraph_len g ∧
   ∀ k, getitem (after (add_edges dst srcs g)) k = getitem g k).
Proof.
  assert (∀ g', dom (vertices g') = dom (vertices g) → DAGraph_len g' = DAGraph_len g)
    as Hlen.
  { intros g' Hdom. unfold DAGraph_len. by rewrite <-!size_dom, Hdom. }
  split.
  - destruct (add_edge_same_vertices g dst src) as [Hdom Hval]. auto.
  - assert (dom (vertices (after (add_edges dst srcs g))) = dom (vertices g) ∧
            ∀ k, getitem (after (add_edges dst srcs g)) k = getitem g k) as [Hdom Hval].
    { rewrite add_edges_flat.
      apply (m_for_after (λ g', dom (vertices g') = dom (vertices g) ∧
                                ∀ k, getitem g' k = getitem g k)); [|done].
      intros x g' [Hdom Hval].
      destruct (add_edge_same_vertices g' dst x) as [Hdom' Hval'].
      split; [congruence|]. intros k. by rewrite Hval'. }
    auto.
Qed.

(** X8: in a graph built through the methods, the two direct queries on
    a key of the graph return lists without repeats that hold exactly the
    targets of the edges from the key, resp. the sources of the edges to
    it; so [b] is a direct successor of [a] exactly when [a] is a direct
    predecessor of [b]. *)
Theorem X8_direct_queries g k :
  built g → DAGraph_contains g k = true →
  ∃ ls lp,
    get_direct_successors g k = Return ls ∧ NoDup ls ∧ (∀ x, x ∈ ls ↔ edge g k x) ∧
    get_direct_predecessors g k = Return lp ∧ NoDup lp ∧ (∀ x, x ∈ lp ↔ edge g x k).
Proof.
  intros Hg%built_graph_inv [vx Hk]%contains_dom%elem_of_dom.
  exists (elements (successors vx)), (elements (predecessors vx)).
  unfold get_direct_successors, get_direct_predecessors, vertex_at. rewrite Hk. cbn.
  split_and!; try done; try apply NoDup_elements.
  - intros x. rewrite elem_of_elements. unfold edge, succs_of. by rewrite Hk.
  - intros x. rewrite elem_of_elements, <-(back_edge_edge g k x Hg).
    unfold back_edge, preds_of. by rewrite Hk.
Qed.

Lemma add_edge_effect g dst src :
  graph_inv g → src ∈ dom (vertices g) → dst ∈ dom (vertices g) →
  outcome (add_edge dst src g) = Return tt ∧
  (∀ a b, edge (after (add_edge dst src g)) a b ↔ edge g a b ∨ (a = src ∧ b = dst)) ∧
  (direct_cyclic (after (add_edge dst src g)) = true ↔
     direct_cyclic g = true ∨ src = dst).
Proof.
  intros Hg [vs Hs]%elem_of_dom [vd Hd]%elem_of_dom.
  rewrite (add_edge_present _ _ _ _ _ Hs Hd). cbn [outcome after fst snd].
  pose proof (inv_key _ Hg _ _ Hs) as Hks. pose proof (inv_key _ Hg _ _ Hd) as Hkd.
  split_and!; [done| |].
  - intros a b. unfold edge. rewrite (edge_added_succs _ _ _ _ _ Hs Hd Hks Hkd).
    case_decide; set_solver.
  - unfold edge_added. cbn. case_decide; naive_solver.
Qed.

Lemma add_edge_twice g dst src :
  after (add_edge dst src (after (add_edge dst src g))) = after (add_edge dst src g).
Proof.
  destruct (decide (src ∈ dom (vertices g))) as [Hs|Hs].
  2:{ rewrite (add_edge_no_src g) by done. cbn [after snd]. by rewrite add_edge_no_src. }
  destruct (decide (dst ∈ dom (vertices g))) as [Hd|Hd].
  2:{ rewrite (add_edge_no_dst g) by done. cbn [after snd]. by rewrite add_edge_no_dst. }
  apply elem_of_dom in Hs as [vs Hs]. apply elem_of_dom in Hd as [vd Hd].
  rewrite (add_edge_present _ _ _ _ _ Hs Hd). cbn [after snd].
  set (g1 := edge_added vs vd dst src g).
  assert (src ∈ dom (vertices g1)) as [vs1 Hs1]%elem_of_dom.
  { unfold g1. rewrite edge_added_dom. apply elem_of_dom. eauto. }
  assert (dst ∈ dom (vertices g1)) as [vd1 Hd1]%elem_of_dom.
  { unfold g1. rewrite edge_added_dom. apply elem_of_dom. eauto. }
  destruct (edge_added_key g dst src vs vd Hs Hd src vs1 Hs1) as (vs' & Hvs' & Hks).
  destruct (edge_added_key g dst src vs vd Hs Hd dst vd1 Hd1) as (vd' & Hvd' & Hkd).
  assert (vs' = vs) as -> by congruence. assert (vd' = vd) as -> by congruence.
  rewrite (add_edge_present _ _ _ _ _ Hs1 Hd1). cbn [after snd].
  unfold edge_added at 1. rewrite Hks, Hkd. unfold g1, edge_added. cbn. f_equal.
  - by case_decide.
  - apply map_eq. intros i. rewrite !lookup_alter.
    assert (∀ (X Y : gset K), X ∪ (X ∪ Y) = X ∪ Y) as Hidem by set_solver.
    repeat case_decide; simplify_eq; rewrite ?Hs, ?Hd; cbn; try done.
    all: unfold with_predecessors, with_successors; cbn; by rewrite ?Hidem.
Qed.

(** X9: in a graph built through the methods, [add_edge(dst, src)] between
    two keys of the graph returns and adds the edge src → dst and no
    other; it sets the self-loop flag exactly when [src == dst]; and doing
    it a second time changes nothing. *)
Theorem X9_add_edge_effect g dst src :
  built g → DAGraph_contains g src = true → DAGraph_contains g dst = true →
  outcome (add_edge dst src g) = Return tt ∧
  (∀ a b, edge (after (add_edge dst src g)) a b ↔ edge g a b ∨ (a = src ∧ b = dst)) ∧
  (direct_cyclic (after (add_edge dst src g)) = true ↔
     direct_cyclic g = true ∨ src = dst) ∧
  add_edge dst src (after (add_edge dst src g))
  = (Return tt, after (add_edge dst src g)).
Proof.
  intros Hg%built_graph_inv Hs%contains_dom Hd%contains_dom.
  destruct (add_edge_effect g dst src Hg Hs Hd) as (Hret & Hedge & Hflag).
  split_and!; try done.
  pose proof (add_edge_twice g dst src) as Htwice.
  destruct (add_edge_same_vertices g dst src) as [Hdom _].
  destruct (add_edge_effect (after (add_edge dst src g)) dst src) as (Hret' & _).
  { by apply graph_inv_add_edge. }
  { by rewrite Hdom. }
  { by rewrite Hdom. }
  destruct (add_edge dst src (after (add_edge dst src g))) as [r g2].
  cbn in *. by subst.
Qed.

(** X10: [add_edges] with nothing to add (no argument, or only empty
    iterables) returns and leaves the graph as it is, whether or not [dst]
    is a key of the graph: [dst] is only looked at by [add_edge]. *)
Theorem X10_add_edges_nothing g dst srcs :
  concat (arg_keys <$> srcs) = [] → add_edges dst srcs g = (Return tt, g).
Proof. intros Hnil. by rewrite add_edges_flat, Hnil. Qed.

Lemma add_edges_present_keys g dst (ks : list K) :
  graph_inv g → dst ∈ dom (vertices g) → (∀ x, x ∈ ks → x ∈ dom (vertices g)) →
  outcome (m_for ks (add_edge dst) g) = Return tt ∧
  graph_inv (after (m_for ks (add_edge dst) g)) ∧
  dom (vertices (after (m_for ks (add_edge dst) g))) = dom (vertices g) ∧
  (∀ a b, edge (after (m_for ks (add_edge dst) g)) a b ↔
          edge g a b ∨ (b = dst ∧ a ∈ ks)) ∧
  (direct_cyclic (after (m_for ks (add_edge dst) g)) = true ↔
     direct_cyclic g = true ∨ dst ∈ ks).
Proof.
  revert g. induction ks as [|x ks IH]; intros g Hg Hd Hks.
  - cbn. split_and!; try done.
    + intros a b. split; [by left|]. intros [?|[_ ?%elem_of_nil]]; done.
    + split; [by left|]. intros [?|?%elem_of_nil]; done.
  - assert (x ∈ dom (vertices g)) as Hx by (apply Hks; by left).
    destruct (add_edge_effect g dst x Hg Hx Hd) as (Hret & Hedge & Hflag).
    pose proof (graph_inv_add_edge g dst x Hg) as Hg1.
    destruct (add_edge_same_vertices g dst x) as [Hdom _].
    cbn [m_for]. unfold m_bind.
    destruct (add_edge dst x g) as [r g1] eqn:Hcall. cbn in Hret, Hedge, Hflag, Hg1, Hdom.
    subst r.
    destruct (IH g1 Hg1) as (Hret' & Hg' & Hdom' & Hedge' & Hflag').
    { by rewrite Hdom. }
    { intros y Hy. rewrite Hdom. apply Hks. by right. }
    split_and!; try done.
    + congruence.
    + intros a b. rewrite Hedge', Hedge, elem_of_cons. naive_solver.
    + rewrite Hflag', Hflag, elem_of_cons. naive_solver.
Qed.

(** X11: in a graph built through the methods, when [dst] and every key
    that [add_edges(dst, *srcs)] hands to [add_edge] are keys of the graph,
    the call returns and adds exactly the edges from those keys to [dst];
    the self-loop flag is set exactly when [dst] is among them. *)
Theorem X11_add_edges_effect g dst srcs :
  built g → DAGraph_contains g dst = true →
  (∀ x, x ∈ concat (arg_keys <$> srcs) → DAGraph_contains g x = true) →
  outcome (add_edges dst srcs g) = Return tt ∧
  (∀ a b, edge (after (add_edges dst srcs g)) a b ↔
          edge g a b ∨ (b = dst ∧ a ∈ concat (arg_keys <$> srcs))) ∧
  (direct_cyclic (after (add_edges dst srcs g)) = true ↔
     direct_cyclic g = true ∨ dst ∈ concat (arg_keys <$> srcs)).
Proof.
  intros Hg%built_graph_inv Hd%contains_dom Hks. rewrite add_edges_flat.
  destruct (add_edges_present_keys g dst (concat (arg_keys <$> srcs)) Hg Hd)
    as (? & _ & _ & ? & ?); [|done].
  intros x Hx. by apply contains_dom, Hks.
Qed.

(** X12: [items()] lists every key of the graph once: it has no repeats,
    a key is in it exactly when it is [in] the graph, and its length is
    [len] of the graph. *)
Theorem X12_items g :
  NoDup (items g) ∧
  (∀ k, k ∈ items g ↔ DAGraph_contains g k = true) ∧
  length (items g) = DAGraph_len g.
Proof.
  unfold items, DAGraph_len. split_and!.
  - apply NoDup_elements.
  - intros k. by rewrite elem_of_elements, contains_dom.
  - by rewrite <-size_dom.
Qed.

Lemma grows_refl g : grows g g.
Proof. by split_and!. Qed.

Lemma grows_trans g1 g2 g3 : grows g1 g2 → grows g2 g3 → grows g1 g3.
Proof.
  intros (Hk12 & He12 & Hf12) (Hk23 & He23 & Hf23). split_and!; [|by auto..].
  intros k Hk. destruct (Hk12 k Hk) as [Hk2 Hv2]. destruct (Hk23 k Hk2) as [Hk3 Hv3].
  split; [done|congruence].
Qed.

Lemma add_vertex_grows g k v : graph_inv g → grows g (after (add_vertex k v g)).
Proof.
  intros Hg. destruct (decide (k ∈ dom (vertices g))) as [Hk|Hk].
  { rewrite add_vertex_present by done. apply grows_refl. }
  rewrite add_vertex_absent by done. cbn [after snd]. split_and!; [| |done].
  - intros k' Hk'%contains_dom. assert (k' ≠ k) by (by intros ->). split.
    + apply contains_dom. cbn. rewrite dom_insert_L. set_solver.
    + unfold getitem, vertex_at. cbn. by rewrite lookup_insert_ne.
  - intros a b Hab. unfold edge. rewrite succs_of_insert. case_decide; [|done].
    subst. unfold edge in Hab. rewrite succs_of_absent in Hab by done. set_solver.
Qed.

Lemma add_edge_grows_graph g dst src :
  graph_inv g → grows g (after (add_edge dst src g)).
Proof.
  intros Hg. destruct (add_edge_same_vertices g dst src) as [Hdom Hval].
  split_and!.
  - intros k Hk%contains_dom. split; [|done]. apply contains_dom. by rewrite Hdom.
  - intros a b Hab. destruct (add_edge_grows g dst src Hg a) as [Hs _].
    unfold edge in *. set_solver.
  - destruct (decide (src ∈ dom (vertices g))) as [Hs|Hs];
      [|by rewrite add_edge_no_src].
    destruct (decide (dst ∈ dom (vertices g))) as [Hd|Hd];
      [|by rewrite add_edge_no_dst].
    intros Hflag. apply (add_edge_effect g dst src Hg Hs Hd). by left.
Qed.

Lemma add_edges_grows g dst srcs :
  graph_inv g → grows g (after (add_edges dst srcs g)).
Proof.
  intros Hg. rewrite add_edges_flat.
  apply (m_for_after (λ g', graph_inv g' ∧ grows g g')); [|split; [done|apply grows_refl]].
  intros x g' [Hg' Hgrow]. split; [by apply graph_inv_add_edge|].
  eapply grows_trans; [done|]. by apply add_edge_grows_graph.
Qed.

Lemma perform_grows g (c : call (K:=K) (V:=V)) :
  graph_inv g → grows g (after (perform c g)).
Proof.
  intros Hg. destruct c; cbn [perform].
  - by apply add_vertex_grows.
  - by apply add_vertex_grows.
  - by apply add_edge_grows_graph.
  - by apply add_edges_grows.
Qed.

Lemma built_perform g (c : call (K:=K) (V:=V)) : built g → built (after (perform c g)).
Proof. intros Hg. destruct c; by constructor. Qed.

(** X7: no call removes anything: after any call of [add_vertex],
    [graph[key] = value], [add_edge] or [add_edges], returned or raised,
    every key of the graph is still in it with its value, every edge is
    still there, and the self-loop flag, once set, stays set. *)
Theorem X7_nothing_is_removed g (c : call (K:=K) (V:=V)) :
  built g →
  (∀ k, DAGraph_contains g k = true →
        DAGraph_contains (after (perform c g)) k = true ∧
        getitem (after (perform c g)) k = getitem g k) ∧
  (∀ a b, edge g a b → edge (after (perform c g)) a b) ∧
  (direct_cyclic g = true → direct_cyclic (after (perform c g)) = true).
Proof. intros Hg%built_graph_inv. by apply perform_grows. Qed.

End graph_properties.

Section cycle_properties.
Context {K : Type} {eqK : EqDecision K} {cntK : Countable K} {iterK : KeyIter K} {V : Type}.
Implicit Types (g : DAGraph K V) (k dst src a b : K).

(** X13: in a graph built through the methods the transitive queries
    never fail on a key met on the way: for a key of the graph they return
    or run on, and they raise [KeyError] only for a start key that is not in
    the graph, as the direct queries do. *)
Theorem X13_queries_and_missing_keys g k fuel :
  built g →
  (DAGraph_contains g k = true →
     (∀ e, get_all_successors fuel g k ≠ Raise e) ∧
     (∀ e, get_all_predecessors fuel g k ≠ Raise e)) ∧
  (DAGraph_contains g k = false →
     get_all_successors fuel g k = Raise (KeyError k) ∧
     get_all_predecessors fuel g k = Raise (KeyError k) ∧
     get_direct_successors g k = Raise (KeyError k) ∧
     get_direct_predecessors g k = Raise (KeyError k)).
Proof.
  intros Hg%built_graph_inv. split.
  - intros Hk%contains_dom. pose proof Hk as [vx Hvx]%elem_of_dom.
    unfold get_all_successors, get_all_predecessors, vertex_at. rewrite Hvx. cbn.
    rewrite all_successors_loop_walk, all_predecessors_loop_walk. split; intros e.
    + destruct (walk (succ_adj g) fuel (reverse (elements (successors vx))) ∅)
        as [r|e'|] eqn:Hw; [done| |done].
      exfalso. revert Hw. apply walk_never_raises.
      intros v x Hv%elem_of_reverse%elem_of_elements Hvx'%rtc_succ_adj.
      apply succ_adj_defined. apply (rtc_edge_dom g v x Hg); [|done].
      apply (inv_closed _ Hg k). unfold succs_of. rewrite Hvx. set_solver.
    + destruct (walk (pred_adj g) fuel (reverse (elements (predecessors vx))) ∅)
        as [r|e'|] eqn:Hw; [done| |done].
      exfalso. revert Hw. apply walk_never_raises.
      intros v x Hv%elem_of_reverse%elem_of_elements Hvx'%rtc_pred_adj; [|done].
      apply pred_adj_defined. apply (rtc_edge_dom_r g x v Hg); [|done].
      apply (inv_closed _ Hg k). unfold preds_of. rewrite Hvx. set_solver.
  - intros Hk%contains_false%not_elem_of_dom.
    unfold get_all_successors, get_all_predecessors, get_direct_successors,
      get_direct_predecessors, vertex_at. by rewrite Hk.
Qed.

(** X14: when [is_cyclic] returns false, both transitive queries end for
    every key of the graph, with the keys reachable from it, resp. the
    keys that reach it, along one or more edges. *)
Theorem X14_acyclic_queries_end g limit rng use_rng k :
  built g → (∀ l, rng l ≡ₚ l) →
  is_cyclic limit rng g use_rng = Return false →
  DAGraph_contains g k = true →
  ∃ n ls lp,
    (∀ fuel, n ≤ fuel →
       get_all_successors fuel g k = Return ls ∧
       get_all_predecessors fuel g k = Return lp) ∧
    (∀ x, x ∈ ls ↔ tc (edge g) k x) ∧
    (∀ x, x ∈ lp ↔ tc (edge g) x k).
Proof.
  intros Hg%built_graph_inv Hrng Hfalse Hk%contains_dom.
  destruct (is_cyclic_false_acyclic g limit rng use_rng Hg Hrng Hfalse k) as [Hfrom Hto].
  destruct (get_all_successors_acyclic g k Hg Hk Hfrom) as (n1 & ls & Hs & _ & _ & Hls).
  destruct (get_all_predecessors_acyclic g k Hg Hk Hto) as (n2 & lp & Hp & _ & _ & Hlp).
  exists (n1 `max` n2), ls, lp. split_and!; try done.
  intros fuel Hfuel. split; [apply Hs|apply Hp]; lia.
Qed.

(** X15: when [is_cyclic] returns false, [b] is among
    [get_all_successors(a)] exactly when [a] is among
    [get_all_predecessors(b)], and the direct successors of [a] are among
    [get_all_successors(a)]. *)
Theorem X15_successors_and_predecessors_agree g limit rng use_rng a b :
  built g → (∀ l, rng l ≡ₚ l) →
  is_cyclic limit rng g use_rng = Return false →
  DAGraph_contains g a = true → DAGraph_contains g b = true →
  ∃ n la lb,
    (∀ fuel, n ≤ fuel →
       get_all_successors fuel g a = Return la ∧
       get_all_predecessors fuel g b = Return lb) ∧
    (b ∈ la ↔ a ∈ lb) ∧
    (∀ ld x, get_direct_successors g a = Return ld → x ∈ ld → x ∈ la).
Proof.
  intros Hg%built_graph_inv Hrng Hfalse Ha%contains_dom Hb%contains_dom.
  destruct (is_cyclic_false_acyclic g limit rng use_rng Hg Hrng Hfalse a) as [Hfrom _].
  destruct (is_cyclic_false_acyclic g limit rng use_rng Hg Hrng Hfalse b) as [_ Hto].
  destruct (get_all_successors_acyclic g a Hg Ha Hfrom) as (n1 & la & Hs & _ & _ & Hla).
  destruct (get_all_predecessors_acyclic g b Hg Hb Hto) as (n2 & lb & Hp & _ & _ & Hlb).
  exists (n1 `max` n2), la, lb. split_and!.
  - intros fuel Hfuel. split; [apply Hs|apply Hp]; lia.
  - by rewrite Hla, Hlb.
  - intros ld x. pose proof Ha as [vx Hvx]%elem_of_dom.
    unfold get_direct_successors, vertex_at. rewrite Hvx. cbn. intros [= <-].
    rewrite elem_of_elements, Hla. intros Hx. apply tc_once.
    unfold edge, succs_of. by rewrite Hvx.
Qed.

(** X16: when [is_cyclic] returns true, there is a key of the graph for
    which neither transitive query ever returns. *)
Theorem X16_cyclic_queries_run_on g limit rng use_rng :
  built g → (∀ l, rng l ≡ₚ l) →
  is_cyclic limit rng g use_rng = Return true →
  ∃ k, DAGraph_contains g k = true ∧
    ∀ fuel, get_all_successors fuel g k = OutOfFuel ∧
            get_all_predecessors fuel g k = OutOfFuel.
Proof.
  intros Hg%built_graph_inv Hrng Htrue.
  destruct (proj1 (is_cyclic_returns g limit rng use_rng true Hg Hrng Htrue) eq_refl)
    as [x Hx].
  assert (x ∈ dom (vertices g)) as Hin.
  { apply tc_nsteps in Hx as (n & Hn & Hx). destruct n as [|n]; [lia|].
    inversion Hx as [|? ? y ? Hxy _]; subst. by destruct (edge_dom _ _ _ Hg Hxy). }
  exists x. split; [by apply contains_dom|]. intros fuel. split.
  - by apply (get_all_successors_cyclic g x x).
  - by apply (get_all_predecessors_cyclic g x x).
Qed.

Lemma tc_rank g (rank : K → nat) x y :
  (∀ a b, edge g a b → rank b < rank a) → tc (edge g) x y → rank y < rank x.
Proof.
  intros Hrank. induction 1 as [x y Hxy|x y z Hxy _ IH]; [by apply Hrank|].
  specialize (Hrank x y Hxy). lia.
Qed.

Lemma tc_grows (R R' : relation K) x y :
  (∀ a b, R a b → R' a b) → tc R x y → tc R' x y.
Proof.
  intros HR. induction 1 as [x y Hxy|x y z Hxy _ IH].
  - apply tc_once. by apply HR.
  - eapply tc_l; [|exact IH]. by apply HR.
Qed.

(** X18: no call makes a cyclic graph acyclic: when [is_cyclic] has
    returned true, it returns true, if it returns, after any further call
    of [add_vertex], [graph[key] = value], [add_edge] or [add_edges]. *)
Theorem X18_cyclic_stays_cyclic g (c : call (K:=K) (V:=V))
    limit1 limit2 rng1 rng2 use_rng1 use_rng2 (b : bool) :
  built g → (∀ l, rng1 l ≡ₚ l) → (∀ l, rng2 l ≡ₚ l) →
  is_cyclic limit1 rng1 g use_rng1 = Return true →
  is_cyclic limit2 rng2 (after (perform c g)) use_rng2 = Return b →
  b = true.
Proof.
  intros Hb Hrng1 Hrng2 Htrue Hafter. pose proof (built_graph_inv g Hb) as Hg.
  pose proof (built_graph_inv _ (built_perform g c Hb)) as Hg'.
  apply (is_cyclic_returns _ _ _ _ _ Hg' Hrng2 Hafter).
  destruct (proj1 (is_cyclic_returns _ _ _ _ _ Hg Hrng1 Htrue) eq_refl) as [x Hx].
  exists x. destruct (perform_grows g c Hg) as (_ & Hedges & _).
  by apply (tc_grows (edge g)).
Qed.

Lemma rtc_new_edge g g' src dst a b :
  (∀ x y, edge g' x y ↔ edge g x y ∨ (x = src ∧ y = dst)) →
  rtc (edge g') a b →
  rtc (edge g) a b ∨ (rtc (edge g) a src ∧ rtc (edge g) dst b).
Proof.
  intros Hedge. induction 1 as [a|a a' b Haa' _ IH]; [by left|].
  apply Hedge in Haa' as [Hold|[-> ->]].
  - destruct IH as [?|[? ?]]; [left; by eapply rtc_l|right].
    split; [by eapply rtc_l|done].
  - right. split; [done|]. by destruct IH as [?|[_ ?]].
Qed.

(** X19: on a graph for which [is_cyclic] returns false, a successful
    [add_edge(dst, src)] makes [is_cyclic] return true exactly when [src]
    could already be reached from [dst] (in no step or more): an edge
    closes a cycle only through a path that was there. *)
Theorem X19_edge_that_closes_a_cycle g dst src
    limit1 limit2 rng1 rng2 use_rng1 use_rng2 (b : bool) :
  built g → (∀ l, rng1 l ≡ₚ l) → (∀ l, rng2 l ≡ₚ l) →
  is_cyclic limit1 rng1 g use_rng1 = Return false →
  outcome (add_edge dst src g) = Return tt →
  is_cyclic limit2 rng2 (after (add_edge dst src g)) use_rng2 = Return b →
  b = true ↔ rtc (edge g) dst src.
Proof.
  intros Hb Hrng1 Hrng2 Hfalse Hret Hafter. pose proof (built_graph_inv g Hb) as Hg.
  pose proof (graph_inv_add_edge g dst src Hg) as Hg'.
  assert (src ∈ dom (vertices g) ∧ dst ∈ dom (vertices g)) as [Hs Hd].
  { destruct (decide (src ∈ dom (vertices g))) as [Hs|Hs];
      [|by rewrite add_edge_no_src in Hret].
    destruct (decide (dst ∈ dom (vertices g))) as [Hd|Hd];
      [done|by rewrite add_edge_no_dst in Hret]. }
  destruct (add_edge_effect g dst src Hg Hs Hd) as (_ & Hedge & _).
  assert (∀ x, ¬ tc (edge g) x x) as Hno.
  { intros x Hx. assert (false = true); [|done].
    apply (is_cyclic_returns _ _ _ _ _ Hg Hrng1 Hfalse). eauto. }
  rewrite (is_cyclic_returns _ _ _ _ _ Hg' Hrng2 Hafter). split.
  - intros [x Hx]. apply tc_nsteps in Hx as (n & Hn & Hx). destruct n as [|n]; [lia|].
    inversion Hx as [|? ? y ? Hxy Hyx]; subst. apply rtc_nsteps_2 in Hyx.
    apply (rtc_new_edge g _ src dst) in Hyx; [|done].
    apply Hedge in Hxy as [Hold|[-> ->]].
    + destruct Hyx as [Hyx|[Hys Hdx]].
      * destruct (Hno x). by eapply tc_rtc_r; [apply tc_once|].
      * etrans; [exact Hdx|]. by eapply rtc_l.
    + by destruct Hyx as [?|[? _]].
  - intros Hpath. exists src. eapply tc_rtc_r.
    + apply tc_once, Hedge. by right.
    + eapply rtc_subrel; [|exact Hpath]. intros x y Hxy. apply Hedge. by left.
Qed.

(** X20: what [tarjans] returns are the strongly connected components:
    every key of the graph lies in exactly one of the lists, no list is
    empty, and two keys lie in one list exactly when each can be reached
    from the other. *)
Theorem X20_tarjans_returns_components g limit rng use_rng sccs :
  built g → (∀ l, rng l ≡ₚ l) →
  tarjans limit rng g use_rng = Return sccs →
  NoDup (concat sccs) ∧
  (∀ x, x ∈ concat sccs ↔ DAGraph_contains g x = true) ∧
  (∀ c, c ∈ sccs → c ≠ []) ∧
  (∀ x y, together sccs x y ↔ DAGraph_contains g x = true ∧ mutual g x y).
Proof.
  intros Hg%built_graph_inv Hrng Hrun.
  pose proof (tarjans_returns _ _ _ _ _ Hg Hrng Hrun) as Hc.
  pose proof Hc as (Hnd & Hall & Hscc). split_and!.
  - done.
  - intros x. by rewrite Hall, contains_dom.
  - intros c Hin. by destruct (Hscc c Hin).
  - intros x y. by rewrite (together_mutual g sccs x y Hc), contains_dom.
Qed.

End cycle_properties.

(** ** The order of the components *)

Section tarjan_order.
Context {K : Type} {eqK : EqDecision K} {cntK : Countable K} {V : Type}.
Context (g : DAGraph K V) (Hg : graph_inv g).
Implicit Types (st : tarjan_state K) (v w x y : K).

Lemma prefix_closed_nil : prefix_closed g [].
Proof.
  intros before later x y Heq Hx. symmetry in Heq.
  apply app_eq_nil in Heq as [-> _]. by apply elem_of_nil in Hx.
Qed.

Lemma prefix_closed_snoc (L : list (list K)) c :
  prefix_closed g L →
  (∀ x y, x ∈ concat (L ++ [c]) → edge g x y → y ∈ concat (L ++ [c])) →
  prefix_closed g (L ++ [c]).
Proof.
  intros HL Hall before later x y Heq Hx Hxy.
  destruct later as [|c' later _] using rev_ind.
  - rewrite app_nil_r in Heq. subst before. by eapply Hall.
  - rewrite app_assoc in Heq. apply app_inj_tail in Heq as [HLeq _].
    by apply (HL before later x y).
Qed.

Lemma prefix_closed_dependencies sccs : prefix_closed g sccs → dependencies_first g sccs.
Proof.
  intros HL before c later x y Heq Hx Hxy.
  assert (y ∈ concat (before ++ [c])) as Hy.
  { apply (HL (before ++ [c]) later x y); [by rewrite <-app_assoc| |done].
    rewrite concat_app, elem_of_app. right. cbn. by rewrite app_nil_r. }
  rewrite concat_app, elem_of_app in Hy. cbn in Hy. rewrite app_nil_r in Hy.
  by destruct Hy; [right|left].
Qed.

(** Where [scc_list] changes. *)
Lemma pop_scc_scc_list fuel v acc st :
  scc_list (after (pop_scc fuel v acc st)) = scc_list st.
Proof.
  revert acc st. induction fuel as [|fuel IH]; intros acc st; [done|].
  cbn [pop_scc]. unfold m_bind, on_stack.
  destruct (pop (tstack st)) as [[w| |] s']; [|done..].
  case_decide; [done|]. by rewrite IH.
Qed.

Lemma close_component_scc_list v st st' :
  close_component v st = (Return tt, st') →
  scc_list st' = scc_list st ∨ ∃ c, scc_list st' = scc_list st ++ [c].
Proof.
  unfold close_component, m_bind, node_at.
  destruct (node_st st !! v) as [[iv lv]|]; [|done]. case_decide.
  - unfold m_get.
    pose proof (pop_scc_scc_list (S (UniqueStack_len (tstack st))) v [] st) as Hpop.
    destruct (pop_scc _ v [] st) as [[c| |] st1]; [|done..]. cbn [after snd] in Hpop.
    unfold m_modify. intros [= <-]. right. exists c. cbn. by rewrite Hpop.
  - intros [= <-]. by left.
Qed.

Lemma visit_successor_scc_list rec v w st st' :
  visit_successor rec v w st = (Return tt, st') →
  scc_list st' = scc_list st ∨
  ((w ∉ dom (node_st st)) ∧ ∃ st1, rec w st = (Return tt, st1) ∧ scc_list st' = scc_list st1).
Proof.
  unfold visit_successor, m_bind, m_get.
  destruct (decide (w ∉ dom (node_st st))) as [Hw|Hw].
  - destruct (rec w st) as [[[]| |] st1] eqn:Hrec; [|done..].
    unfold node_at. destruct (node_st st1 !! v) as [[iv lv]|]; [|done].
    destruct (node_st st1 !! w) as [[iw lw]|]; [|done].
    intros [= <-]. right. split; [done|]. by exists st1.
  - destruct (UniqueStack_contains (tstack st) w).
    + unfold node_at. destruct (node_st st !! v) as [[iv lv]|]; [|done].
      destruct (node_st st !! w) as [[iw lw]|]; [|done].
      intros [= <-]. by left.
    + intros [= <-]. by left.
Qed.

Lemma loop_order depth v st0 (l : list K) above lv st seen st' :
  (∀ w st st', tinv g st → w ∈ dom (vertices g) → w ∉ dom (node_st st) →
     prefix_closed g (scc_list st) → strongconnect depth g w st = (Return tt, st') →
     prefix_closed g (scc_list st')) →
  tinv g st0 → v ∈ dom (vertices g) → v ∉ dom (node_st st0) →
  loop_inv g v st0 above lv st seen → (∀ w, w ∈ l → edge g v w) →
  prefix_closed g (scc_list st) →
  m_for l (visit_successor (strongconnect depth g) v) st = (Return tt, st') →
  prefix_closed g (scc_list st').
Proof.
  intros IH Hinv0 Hv Hfresh. revert above lv st seen.
  induction l as [|w l IHl]; intros above lv st seen Hloop Hl Hord Hrun.
  - by injection Hrun as <-.
  - cbn [m_for] in Hrun. unfold m_bind in Hrun.
    assert (edge g v w) as Hvw by (apply Hl; by left).
    destruct (visit_successor_spec g Hg depth v w st0 above lv st seen)
      as [(st1 & above1 & lv1 & Hrun1 & Hloop1)|(_ & st1 & Hrun1)]; try done.
    { intros. by apply strongconnect_ends. }
    + rewrite Hrun1 in Hrun. apply (IHl above1 lv1 st1 (seen ++ [w])); try done.
      { intros w' Hw'. apply Hl. by right. }
      destruct (visit_successor_scc_list _ _ _ _ _ Hrun1) as [->|(Hw & st2 & Hrec & ->)];
        [done|].
      apply (IH w st st2); try done.
      * apply Hloop.
      * by destruct (edge_dom g v w Hg Hvw).
    + by rewrite Hrun1 in Hrun.
Qed.

Lemma strongconnect_order depth v st st' :
  tinv g st → v ∈ dom (vertices g) → v ∉ dom (node_st st) →
  prefix_closed g (scc_list st) → strongconnect depth g v st = (Return tt, st') →
  prefix_closed g (scc_list st').
Proof.
  revert v st st'. induction depth as [|depth IH]; intros v st st' Hinv Hv Hfresh Hord Hrun;
    [done|].
  destruct (strongconnect_ends g Hg (S depth) v st Hinv Hv Hfresh)
    as [(st'' & Hrun' & Hpost)|(_ & st'' & Hrun')]; [|congruence].
  assert (st'' = st') as -> by congruence. clear Hrun'.
  pose proof Hv as [vx Hvx]%elem_of_dom.
  rewrite (strongconnect_enter g depth v st vx) in Hrun; [|..|done].
  2:{ rewrite (stack_inv_elem _ _ (ti_stack _ _ Hinv)). intros Hs.
      apply Hfresh, (ti_visited _ _ Hinv). by left. }
  unfold m_bind in Hrun.
  destruct (m_for (elements (successors vx)) (visit_successor (strongconnect depth g) v)
              (entered v st)) as [[[]| |] st1] eqn:Hloop; [|done..].
  assert (prefix_closed g (scc_list st1)) as Hord1.
  { apply (loop_order depth v st (elements (successors vx)) [] (idx st) (entered v st) []
             st1); try done.
    - by apply loop_inv_entered.
    - intros w Hw%elem_of_elements. unfold edge, succs_of. by rewrite Hvx. }
  destruct (close_component_scc_list v st1 st' Hrun) as [->|[c Hc]]; [done|].
  rewrite Hc. apply prefix_closed_snoc; [done|]. rewrite <-Hc.
  apply (ti_closed _ _ (sp_inv _ _ _ _ Hpost)).
Qed.

Lemma roots_order limit (l : list K) st st' :
  tinv g st → stk st = [] → (∀ e, e ∈ l → e ∈ dom (vertices g)) →
  prefix_closed g (scc_list st) →
  m_for l (root g limit) st = (Return tt, st') → prefix_closed g (scc_list st').
Proof.
  revert st. induction l as [|e l IH]; intros st Hinv Hemp Hl Hord Hrun.
  - by injection Hrun as <-.
  - cbn [m_for] in Hrun. unfold m_bind in Hrun.
    destruct (roots_spec g Hg limit [e] st Hinv Hemp)
      as [(st1 & Hrun1 & Hinv1 & Hemp1 & _)|(_ & st1 & Hrun1)].
    { intros e' ->%list_elem_of_singleton. apply Hl. by left. }
    + rewrite m_for_singleton in Hrun1. rewrite Hrun1 in Hrun.
      apply (IH st1); try done.
      { intros e' He'. apply Hl. by right. }
      unfold root, m_bind, m_get in Hrun1.
      destruct (decide (e ∉ dom (node_st st))) as [He|He].
      * apply (strongconnect_order limit e st st1); try done. apply Hl. by left.
      * by injection Hrun1 as <-.
    + rewrite m_for_singleton in Hrun1. by rewrite Hrun1 in Hrun.
Qed.

Lemma tarjans_order limit rng use_rng sccs :
  rng (elements (dom (vertices g))) ≡ₚ elements (dom (vertices g)) →
  tarjans limit rng g use_rng = Return sccs → prefix_closed g sccs.
Proof.
  intros Hrng. unfold tarjans.
  assert (UniqueStack_init (K:=K) None = Return (mkUniqueStack [] ∅)) as ->.
  { unfold UniqueStack_init. cbn [stack stackset length].
    by rewrite size_empty, decide_False by lia. }
  cbn [result_bind].
  set (elems := if use_rng then rng (elements (dom (vertices g)))
                else elements (dom (vertices g))).
  assert (elems ≡ₚ elements (dom (vertices g))) as Hperm.
  { unfold elems. by destruct use_rng. }
  destruct (m_for elems (root g limit) (mkTarjan ∅ 0 (mkUniqueStack [] ∅) []))
    as [[[]| |] st'] eqn:Hrun; pose proof Hrun as Hrun'; unfold root in Hrun';
    rewrite Hrun'; [|done..].
  cbn. intros [= <-].
  apply (roots_order limit elems (mkTarjan ∅ 0 (mkUniqueStack [] ∅) []) st'); try done.
  - by apply tinv_initial.
  - intros e. rewrite Hperm. by rewrite elem_of_elements.
  - apply prefix_closed_nil.
Qed.

End tarjan_order.

Section order_properties.
Context {K : Type} {eqK : EqDecision K} {cntK : Countable K} {iterK : KeyIter K} {V : Type}.
Implicit Types (g : DAGraph K V) (sccs : list (list K)).

(** X21: [tarjans] lists the components with the successors first: every
    edge that leaves a key of one of the returned lists leads to a key of
    the same list or of a list before it, so that, up to any place of the
    returned list, the keys are closed under the edges. *)
Theorem X21_tarjans_successors_first g limit rng use_rng sccs :
  built g → (∀ l, rng l ≡ₚ l) →
  tarjans limit rng g use_rng = Return sccs →
  ∀ before c later x y,
    sccs = before ++ c :: later → x ∈ c → edge g x y →
    y ∈ c ∨ ∃ c', c' ∈ before ∧ y ∈ c'.
Proof.
  intros Hg%built_graph_inv Hrng Hrun before c later x y Heq Hx Hxy.
  pose proof (tarjans_order g Hg limit rng use_rng sccs (Hrng _) Hrun) as Hord.
  destruct (prefix_closed_dependencies g sccs Hord before c later x y Heq Hx Hxy)
    as [?|Hy]; [by left|right].
  by apply elem_of_concat_part.
Qed.

Lemma singletons_concat sccs :
  (∀ c, c ∈ sccs → length c = 1) → sccs = (λ k, [k]) <$> concat sccs.
Proof.
  induction sccs as [|c sccs IH]; intros Hone; [done|].
  assert (length c = 1) as Hc by (apply Hone; by left).
  destruct c as [|k [|? ?]]; try done. cbn. f_equal. apply IH.
  intros c' Hc'. apply Hone. by right.
Qed.

(** X22: when [is_cyclic] returns false, [tarjans] returns one list of
    one key for every key of the graph, and the keys come in an order in
    which every key stands after all its successors. *)
Theorem X22_acyclic_order g limit rng use_rng :
  built g → (∀ l, rng l ≡ₚ l) →
  is_cyclic limit rng g use_rng = Return false →
  ∃ order,
    tarjans limit rng g use_rng = Return ((λ k, [k]) <$> order) ∧
    order ≡ₚ items g ∧
    ∀ before k later y, order = before ++ k :: later → edge g k y → y ∈ before.
Proof.
  intros Hg%built_graph_inv Hrng Hfalse.
  assert (∀ x, ¬ tc (edge g) x x) as Hno.
  { intros x Hx. assert (false = true); [|done].
    apply (is_cyclic_returns _ _ _ _ _ Hg Hrng Hfalse). eauto. }
  pose proof Hfalse as Hrun. unfold is_cyclic in Hrun.
  destruct (direct_cyclic g); [done|].
  destruct (tarjans limit rng g use_rng) as [sccs| |] eqn:Htar; [|done..].
  cbn in Hrun. injection Hrun as Hlen. apply bool_decide_eq_false in Hlen.
  apply dec_stable in Hlen.
  pose proof (tarjans_returns _ _ _ _ _ Hg Hrng Htar) as Hc.
  pose proof Hc as (Hnd & Hall & Hscc).
  assert (∀ c, c ∈ sccs → length c = 1) as Hone.
  { apply concat_length_parts.
    - intros c Hin. by destruct (Hscc c Hin).
    - by rewrite (components_length g sccs Hc). }
  pose proof (singletons_concat sccs Hone) as Hsing.
  exists (concat sccs). split_and!.
  - by rewrite <-Hsing.
  - apply NoDup_Permutation; [done|apply NoDup_elements|].
    intros x. unfold items. by rewrite Hall, elem_of_elements.
  - intros before k later y Heq Hky.
    pose proof (tarjans_order g Hg limit rng use_rng sccs (Hrng _) Htar) as Hord.
    destruct (prefix_closed_dependencies g sccs Hord ((λ k, [k]) <$> before) [k]
                ((λ k, [k]) <$> later) k y) as [Hy|Hy].
    + rewrite Hsing, Heq. by rewrite fmap_app.
    + by left.
    + done.
    + apply list_elem_of_singleton in Hy as ->. destruct (Hno k). by apply tc_once.
    + clear -Hy. induction before as [|b before IH]; [done|].
      cbn in Hy. apply elem_of_cons in Hy as [->|Hy]; [by left|right; by apply IH].
Qed.

End order_properties.

(** ** The nested calls of [strongconnect] *)

Section tarjan_depth.
Context {K : Type} {eqK : EqDecision K} {cntK : Countable K} {V : Type}.
Context (g : DAGraph K V) (Hg : graph_inv g).
Implicit Types (st : tarjan_state K) (v w x y : K).

Lemma visit_successor_raises rec v w st st' :
  visit_successor rec v w st = (Raise RecursionError, st') →
  (w ∉ dom (node_st st)) ∧ rec w st = (Raise RecursionError, st').
Proof.
  unfold visit_successor, m_bind, m_get.
  destruct (decide (w ∉ dom (node_st st))) as [Hw|Hw].
  - destruct (rec w st) as [[[]|e|] st1] eqn:Hrec; [| |done].
    + unfold node_at. destruct (node_st st1 !! v) as [[iv lv]|]; [|done].
      by destruct (node_st st1 !! w) as [[iw lw]|].
    + by intros [= -> ->].
  - destruct (UniqueStack_contains (tstack st) w); [|done].
    unfold node_at. destruct (node_st st !! v) as [[iv lv]|]; [|done].
    by destruct (node_st st !! w) as [[iw lw]|].
Qed.

Lemma loop_never_deep depth v st0 (l : list K) above lv st seen st' :
  (∀ w st st', tinv g st → w ∈ dom (vertices g) → w ∉ dom (node_st st) → edge g v w →
     strongconnect depth g w st ≠ (Raise RecursionError, st')) →
  tinv g st0 → v ∈ dom (vertices g) → v ∉ dom (node_st st0) →
  loop_inv g v st0 above lv st seen → (∀ w, w ∈ l → edge g v w) →
  m_for l (visit_successor (strongconnect depth g) v) st ≠ (Raise RecursionError, st').
Proof.
  intros IH Hinv0 Hv Hfresh. revert above lv st seen.
  induction l as [|w l IHl]; intros above lv st seen Hloop Hl; [done|].
  cbn [m_for]. unfold m_bind.
  assert (edge g v w) as Hvw by (apply Hl; by left).
  destruct (visit_successor_spec g Hg depth v w st0 above lv st seen)
    as [(st1 & above1 & lv1 & Hrun1 & Hloop1)|(_ & st1 & Hrun1)]; try done.
  { intros. by apply strongconnect_ends. }
  - rewrite Hrun1. apply (IHl above1 lv1 st1 (seen ++ [w])); [done|].
    intros w' Hw'. apply Hl. by right.
  - rewrite Hrun1. apply visit_successor_raises in Hrun1 as [Hw Hrec].
    exfalso. apply (IH w st st1); try done.
    + apply Hloop.
    + by destruct (edge_dom g v w Hg Hvw).
Qed.

(** With every edge leading to a key of smaller rank, a call
    [strongconnect(v)] nests no deeper than the rank of [v]. *)
Lemma strongconnect_never_deep (rank : K → nat) depth v st st' :
  (∀ a b, edge g a b → rank b < rank a) →
  tinv g st → v ∈ dom (vertices g) → v ∉ dom (node_st st) → rank v < depth →
  strongconnect depth g v st ≠ (Raise RecursionError, st').
Proof.
  intros Hrank. revert v st st'.
  induction depth as [|depth IH]; intros v st st' Hinv Hv Hfresh Hlt; [lia|].
  pose proof Hv as [vx Hvx]%elem_of_dom.
  rewrite (strongconnect_enter g depth v st vx); [|..|done].
  2:{ rewrite (stack_inv_elem _ _ (ti_stack _ _ Hinv)). intros Hs.
      apply Hfresh, (ti_visited _ _ Hinv). by left. }
  assert (∀ w, w ∈ elements (successors vx) → edge g v w) as Hsucc.
  { intros w Hw%elem_of_elements. unfold edge, succs_of. by rewrite Hvx. }
  pose proof (loop_inv_entered g v st Hinv Hv Hfresh) as Hent.
  unfold m_bind.
  destruct (loop_spec g Hg depth v st (elements (successors vx)) [] (idx st)
              (entered v st) [])
    as [(st1 & above & lv & Hloop & Hinvl)|(_ & st1 & Hloop)]; try done.
  { intros. by apply strongconnect_ends. }
  - rewrite Hloop.
    destruct (close_component_spec g v st st1 above lv vx Hinv Hvx Hinvl)
      as (st2 & Hclose & _).
    by rewrite Hclose.
  - exfalso. revert Hloop.
    apply (loop_never_deep depth v st (elements (successors vx)) [] (idx st)
             (entered v st) []); try done.
    intros w st2 st3 Hinv2 Hw Hfresh2 Hvw. apply IH; try done.
    specialize (Hrank v w Hvw). lia.
Qed.

Lemma roots_never_deep (rank : K → nat) limit (l : list K) st st' :
  (∀ a b, edge g a b → rank b < rank a) →
  (∀ k, k ∈ dom (vertices g) → rank k < limit) →
  tinv g st → stk st = [] → (∀ e, e ∈ l → e ∈ dom (vertices g)) →
  m_for l (root g limit) st ≠ (Raise RecursionError, st').
Proof.
  intros Hrank Hlimit. revert st.
  induction l as [|e l IH]; intros st Hinv Hemp Hl; [done|].
  cbn [m_for]. unfold m_bind.
  assert (e ∈ dom (vertices g)) as He by (apply Hl; by left).
  destruct (roots_spec g Hg limit [e] st Hinv Hemp)
    as [(st1 & Hrun1 & Hinv1 & Hemp1 & _)|(_ & st1 & Hrun1)].
  { by intros e' ->%list_elem_of_singleton. }
  - rewrite m_for_singleton in Hrun1. rewrite Hrun1. apply IH; try done.
    intros e' He'. apply Hl. by right.
  - rewrite m_for_singleton in Hrun1. rewrite Hrun1. exfalso.
    unfold root, m_bind, m_get in Hrun1.
    destruct (decide (e ∉ dom (node_st st))) as [Hfresh|Hfresh]; [|done].
    revert Hrun1. apply (strongconnect_never_deep rank); try done. by apply Hlimit.
Qed.

Lemma tarjans_ranked (rank : K → nat) limit rng use_rng :
  (∀ a b, edge g a b → rank b < rank a) →
  (∀ k, k ∈ dom (vertices g) → rank k < limit) →
  rng (elements (dom (vertices g))) ≡ₚ elements (dom (vertices g)) →
  ∃ sccs, tarjans limit rng g use_rng = Return sccs.
Proof.
  intros Hrank Hlimit Hrng.
  destruct (tarjans_spec g Hg limit rng use_rng Hrng) as [(sccs & Hrun & _)|[_ Hrun]];
    [by exists sccs|].
  exfalso. revert Hrun. unfold tarjans.
  assert (UniqueStack_init (K:=K) None = Return (mkUniqueStack [] ∅)) as ->.
  { unfold UniqueStack_init. cbn [stack stackset length].
    by rewrite size_empty, decide_False by lia. }
  cbn [result_bind].
  set (elems := if use_rng then rng (elements (dom (vertices g)))
                else elements (dom (vertices g))).
  assert (elems ≡ₚ elements (dom (vertices g))) as Hperm.
  { unfold elems. by destruct use_rng. }
  destruct (m_for elems (root g limit) (mkTarjan ∅ 0 (mkUniqueStack [] ∅) []))
    as [[[]|e|] st'] eqn:Hrun; pose proof Hrun as Hrun'; unfold root in Hrun';
    rewrite Hrun'; [done| |done].
  cbn. intros [= ->]. revert Hrun. apply (roots_never_deep rank); try done.
  - by apply tinv_initial.
  - intros e. rewrite Hperm. by rewrite elem_of_elements.
Qed.

End tarjan_depth.

Section depth_properties.
Context {K : Type} {eqK : EqDecision K} {cntK : Countable K} {iterK : KeyIter K} {V : Type}.
Implicit Types (g : DAGraph K V) (st : tarjan_state K) (v w x y : K).

(** X17: a graph in which every edge leads to a key of smaller rank, for
    some ranking of the keys by natural numbers, is reported acyclic:
    [is_cyclic] returns false, when the nested calls allowed are at least
    the number of vertices, or more than the rank of every key (the tree of
    [test_complicated_cyclic], where [i] points to [i / 2], has such a
    ranking: the number of halvings that lead from [i] to 0). *)
Theorem X17_ranked_graph_is_acyclic g (rank : K → nat) limit rng use_rng :
  built g → (∀ l, rng l ≡ₚ l) →
  (∀ a b, edge g a b → rank b < rank a) →
  DAGraph_len g ≤ limit ∨ (∀ k, DAGraph_contains g k = true → rank k < limit) →
  is_cyclic limit rng g use_rng = Return false.
Proof.
  intros Hg%built_graph_inv Hrng Hrank Hlimit.
  assert (∃ sccs, tarjans limit rng g use_rng = Return sccs) as [sccs Hrun].
  { destruct Hlimit as [Hlimit|Hlimit].
    - destruct (tarjans_components g limit rng use_rng Hg Hlimit Hrng) as (sccs & ? & _).
      by exists sccs.
    - apply (tarjans_ranked g Hg rank); [done| |done].
      intros k Hk. apply Hlimit. by apply contains_dom. }
  pose proof (is_cyclic_unfold _ _ _ _ _ Hrun) as Hcyc.
  destruct (if direct_cyclic g then true
            else bool_decide (length sccs ≠ DAGraph_len g)) eqn:Hb; [|done].
  exfalso. destruct (proj1 (is_cyclic_returns g limit rng use_rng true Hg Hrng Hcyc) eq_refl)
    as [x Hx].
  apply (tc_rank g rank) in Hx; [lia|done].
Qed.

Lemma strongconnect_deep_path g depth v (path : list K) st :
  only_path g v path → NoDup (v :: path) →
  (∀ x, x ∈ v :: path →
     x ∈ dom (vertices g) ∧ (x ∉ dom (node_st st)) ∧ x ∉ stackset (tstack st)) →
  depth ≤ length path →
  ∃ st', strongconnect depth g v st = (Raise RecursionError, st').
Proof.
  revert v path st. induction depth as [|depth IH]; intros v path st Hpath Hnd Hnew Hlen.
  { by exists st. }
  destruct path as [|w path]; [cbn in Hlen; lia|]. destruct Hpath as [Hvw Hpath].
  destruct (Hnew v) as (Hv & Hfresh & Hoff); [by left|].
  pose proof Hv as [vx Hvx]%elem_of_dom.
  assert (successors vx = {[w]}) as Hsucc.
  { unfold succs_of in Hvw. by rewrite Hvx in Hvw. }
  apply NoDup_cons in Hnd as [Hv_notin Hnd].
  destruct (IH w path (entered v st)) as [st1 Hrec]; try done.
  { intros x Hx. assert (x ≠ v) by (by intros ->).
    destruct (Hnew x) as (? & ? & ?); [by right|]. split_and!; [done|..].
    - unfold entered. cbn. rewrite dom_insert_L. set_solver.
    - unfold entered. cbn. set_solver. }
  { cbn in Hlen. lia. }
  exists st1. rewrite (strongconnect_enter g depth v st vx) by done.
  rewrite Hsucc, elements_singleton. cbn [m_for]. unfold m_bind.
  assert (visit_successor (strongconnect depth g) v w (entered v st)
          = (Raise RecursionError, st1)) as ->; [|done].
  unfold visit_successor, m_bind, m_get. rewrite decide_True, Hrec; [done|].
  destruct (Hnew w) as (_ & Hw & _); [right; by left|].
  unfold entered. cbn. rewrite dom_insert_L.
  assert (w ≠ v) by (intros ->; apply Hv_notin; by left). set_solver.
Qed.

(** X23: when the first key [tarjans] starts from has a path before it
    on which every key has the next one as its only successor, and the path
    has at least as many edges as nested calls are allowed, [tarjans]
    raises [RecursionError], and so does [is_cyclic] unless the self-loop
    flag is set (the long chain of [test_reaching_recursion_depth]). *)
Theorem X23_long_path_raises g limit (rng : list K → list K) (use_rng : bool)
    v (path rest : list K) :
  only_path g v path → NoDup (v :: path) →
  (∀ x, x ∈ v :: path → DAGraph_contains g x = true) →
  limit ≤ length path →
  (if use_rng then rng (items g) else items g) = v :: rest →
  tarjans limit rng g use_rng = Raise RecursionError ∧
  (direct_cyclic g = false → is_cyclic limit rng g use_rng = Raise RecursionError).
Proof.
  intros Hpath Hnd Hin Hlen Helems.
  assert (tarjans limit rng g use_rng = Raise RecursionError) as Hrun.
  { unfold tarjans.
    assert (UniqueStack_init (K:=K) None = Return (mkUniqueStack [] ∅)) as ->.
    { unfold UniqueStack_init. cbn [stack stackset length].
      by rewrite size_empty, decide_False by lia. }
    cbn [result_bind]. unfold items in Helems. rewrite Helems.
    destruct (strongconnect_deep_path g limit v path
                (mkTarjan ∅ 0 (mkUniqueStack [] ∅) [])) as [st' Hsc]; try done.
    { intros x Hx. split_and!; [|cbn; set_solver..].
      apply contains_dom. by apply Hin. }
    cbn [m_for]. unfold m_bind, m_get. rewrite decide_True by (cbn; set_solver).
    by rewrite Hsc. }
  split; [done|]. intros Hflag. unfold is_cyclic. by rewrite Hflag, Hrun.
Qed.

End depth_properties.

Section query_properties.
Context {K : Type} {eqK : EqDecision K} {cntK : Countable K} {iterK : KeyIter K} {V : Type}.
Implicit Types (g : DAGraph K V) (k x : K).

Lemma walk_fuel_mono (adj : K → result K (gset K)) fuel m stk acc r :
  walk adj fuel stk acc = Return r → walk adj (fuel + m) stk acc = Return r.
Proof.
  revert stk acc. induction fuel as [|fuel IH]; intros stk acc;
    destruct stk as [|elem stk]; cbn [walk Nat.add]; try done.
  - by destruct m.
  - destruct (adj elem); cbn; [apply IH|done..].
Qed.

Lemma get_all_successors_mono fuel m g k l :
  get_all_successors fuel g k = Return l → get_all_successors (fuel + m) g k = Return l.
Proof.
  unfold get_all_successors. destruct (vertex_at g k) as [vx| |]; cbn; [|done..].
  rewrite !all_successors_loop_walk.
  destruct (walk (succ_adj g) fuel _ ∅) as [r| |] eqn:Hw; [|done..].
  by rewrite (walk_fuel_mono _ _ m _ _ _ Hw).
Qed.

Lemma get_all_predecessors_mono fuel m g k l :
  get_all_predecessors fuel g k = Return l →
  get_all_predecessors (fuel + m) g k = Return l.
Proof.
  unfold get_all_predecessors. destruct (vertex_at g k) as [vx| |]; cbn; [|done..].
  rewrite !all_predecessors_loop_walk.
  destruct (walk (pred_adj g) fuel _ ∅) as [r| |] eqn:Hw; [|done..].
  by rewrite (walk_fuel_mono _ _ m _ _ _ Hw).
Qed.

Lemma query_key g k l fuel :
  get_all_successors fuel g k = Return l ∨ get_all_predecessors fuel g k = Return l →
  k ∈ dom (vertices g).
Proof.
  unfold get_all_successors, get_all_predecessors, vertex_at. rewrite elem_of_dom.
  destruct (vertices g !! k); [done|]. by intros [?|?].
Qed.

(** X24: whenever a transitive query returns, on any graph built through
    the methods, what it returns is right: a list without repeats of
    exactly the keys reachable from the start key by one or more successor
    (resp. predecessor) edges; they are keys of the graph, and the start
    key is not among them. *)
Theorem X24_query_result_is_right g k fuel l :
  built g →
  (get_all_successors fuel g k = Return l →
     NoDup l ∧ (k ∉ l) ∧ (∀ x, x ∈ l ↔ tc (edge g) k x) ∧
     ∀ x, x ∈ l → DAGraph_contains g x = true) ∧
  (get_all_predecessors fuel g k = Return l →
     NoDup l ∧ (k ∉ l) ∧ (∀ x, x ∈ l ↔ tc (edge g) x k) ∧
     ∀ x, x ∈ l → DAGraph_contains g x = true).
Proof.
  intros Hg%built_graph_inv. split; intros Hret.
  - assert (k ∈ dom (vertices g)) as Hk by (eapply query_key; by left).
    assert (acyclic_from g k) as Hacyc.
    { intros x Hkx Hxx.
      by rewrite (get_all_successors_cyclic g k x fuel Hg Hk Hkx Hxx) in Hret. }
    destruct (get_all_successors_acyclic g k Hg Hk Hacyc) as (n & l' & Hl' & Hnd & Hkl & Hiff).
    assert (l = l') as <-.
    { apply (get_all_successors_mono _ n) in Hret.
      rewrite Hl' in Hret by lia. congruence. }
    split_and!; try done. intros x Hx%Hiff%tc_rtc.
    apply contains_dom. by apply (rtc_edge_dom g k x).
  - assert (k ∈ dom (vertices g)) as Hk by (eapply query_key; by right).
    assert (acyclic_to g k) as Hacyc.
    { intros x Hkx Hxx.
      by rewrite (get_all_predecessors_cyclic g k x fuel Hg Hk Hkx Hxx) in Hret. }
    destruct (get_all_predecessors_acyclic g k Hg Hk Hacyc)
      as (n & l' & Hl' & Hnd & Hkl & Hiff).
    assert (l = l') as <-.
    { apply (get_all_predecessors_mono _ n) in Hret.
      rewrite Hl' in Hret by lia. congruence. }
    split_and!; try done. intros x Hx%Hiff%tc_rtc.
    apply contains_dom. by apply (rtc_edge_dom_r g x k).
Qed.

(** X25: in a graph built through the methods the self-loop flag is set
    exactly when some key is among its own direct successors, and exactly
    when some key is among its own direct predecessors. *)
Theorem X25_flag_and_self_loops g :
  built g →
  (direct_cyclic g = true ↔ ∃ k l, get_direct_successors g k = Return l ∧ k ∈ l) ∧
  (direct_cyclic g = true ↔ ∃ k l, get_direct_predecessors g k = Return l ∧ k ∈ l).
Proof.
  intros Hg%built_graph_inv. rewrite (inv_flag _ Hg). unfold has_self_loop. split.
  - split.
    + intros [k Hk]. pose proof (edge_dom _ _ _ Hg Hk) as [[vx Hvx]%elem_of_dom _].
      exists k, (elements (successors vx)).
      unfold get_direct_successors, vertex_at. rewrite Hvx. split; [done|].
      apply elem_of_elements. unfold edge, succs_of in Hk. by rewrite Hvx in Hk.
    + intros (k & l & Hl & Hk). exists k. revert Hl.
      unfold get_direct_successors, vertex_at, edge, succs_of.
      destruct (vertices g !! k) as [vx|]; [|done]. cbn. intros [= <-].
      by apply elem_of_elements.
  - split.
    + intros [k Hk]. pose proof (edge_dom _ _ _ Hg Hk) as [Hin _].
      pose proof Hin as [vx Hvx]%elem_of_dom.
      exists k, (elements (predecessors vx)).
      unfold get_direct_predecessors, vertex_at. rewrite Hvx. split; [done|].
      apply elem_of_elements. apply (inv_sym _ Hg k k Hin Hin) in Hk.
      unfold preds_of in Hk. by rewrite Hvx in Hk.
    + intros (k & l & Hl & Hk). exists k. revert Hl.
      unfold get_direct_predecessors, vertex_at.
      destruct (vertices g !! k) as [vx|] eqn:Hvx; [|done]. cbn. intros [= <-].
      assert (k ∈ dom (vertices g)) as Hin by (apply elem_of_dom; eauto).
      apply (inv_sym _ Hg k k Hin Hin). unfold preds_of. rewrite Hvx.
      by apply elem_of_elements.
Qed.

End query_properties.

(** ** The constructor and [push] *)

Section stack_construction.
Context {K : Type} {eqK : EqDecision K} {cntK : Countable K}.
Implicit Types (s : UniqueStack K) (x y : K) (l : list K).

Lemma pushes_fresh l s :
  NoDup l → (∀ x, x ∈ l → x ∉ stackset s) →
  m_for l push s
  = (Return tt, mkUniqueStack (reverse l ++ stack s) (list_to_set l ∪ stackset s)).
Proof.
  revert s. induction l as [|x l IH]; intros s Hnd Hnew.
  - cbn. unfold m_ret. destruct s as [d ks]. cbn. f_equal. f_equal.
    apply set_eq. set_solver.
  - apply NoDup_cons in Hnd as [Hx Hnd]. cbn [m_for]. unfold m_bind.
    rewrite push_fresh by (apply Hnew; by left). rewrite IH; [|done|].
    + cbn [stack stackset]. f_equal. f_equal.
      * by rewrite reverse_cons, <-app_assoc.
      * apply set_eq. set_solver.
    + intros y Hy. cbn [stackset]. assert (y ≠ x) by (by intros ->).
      specialize (Hnew y (ltac:(by right))). set_solver.
Qed.

Lemma pushes_repeat l s :
  ¬ NoDup l ∨ (∃ x, x ∈ l ∧ x ∈ stackset s) →
  outcome (m_for l push s) = Raise NotUnique.
Proof.
  revert s. induction l as [|x l IH]; intros s Hrep.
  - destruct Hrep as [Hnd|(x & Hx & _)]; [destruct Hnd; constructor|].
    by apply elem_of_nil in Hx.
  - cbn [m_for]. unfold m_bind. destruct (decide (x ∈ stackset s)) as [Hx|Hx].
    { by rewrite push_present. }
    rewrite push_fresh by done. apply IH. cbn [stackset].
    destruct Hrep as [Hnd|(y & Hy & Hys)].
    + destruct (decide (x ∈ l)) as [Hxl|Hxl].
      * right. exists x. split; [done|set_solver].
      * left. intros Hl. apply Hnd. by constructor.
    + right. exists y. apply elem_of_cons in Hy as [->|Hy]; [done|].
      split; [done|set_solver].
Qed.

(** X26: constructing a stack from an iterable is pushing its elements
    one by one onto the empty stack: both return the same stack, and both
    raise the exception for a repeated element on the same inputs. *)
Theorem X26_init_is_repeated_push l :
  ∃ s0, UniqueStack_init None = Return s0 ∧
    (∀ s, UniqueStack_init (Some l) = Return s ↔ m_for l push s0 = (Return tt, s)) ∧
    (UniqueStack_init (Some l) = Raise NotUnique ↔
     outcome (m_for l push s0) = Raise NotUnique).
Proof.
  exists (mkUniqueStack [] ∅). split.
  { unfold UniqueStack_init. cbn [stack stackset length].
    by rewrite size_empty, decide_False by lia. }
  rewrite UniqueStack_init_Some. destruct (decide (NoDup l)) as [Hnd|Hnd].
  - rewrite (pushes_fresh l (mkUniqueStack [] ∅) Hnd) by (cbn; set_solver).
    cbn [stack stackset outcome fst]. rewrite app_nil_r, (right_id_L ∅ (∪)).
    split; [|done]. intros s. split; intros [= <-]; done.
  - rewrite (surjective_pairing (m_for l push (mkUniqueStack [] ∅))).
    fold (outcome (m_for l push (mkUniqueStack [] ∅))).
    rewrite (pushes_repeat l (mkUniqueStack [] ∅)) by (by left).
    split; [|done]. intros s. split; intros [=].
Qed.

End stack_construction.

(** ** The further properties on the example graphs *)

Lemma edges_forall {K : Type} {eqK : EqDecision K} {cntK : Countable K} {V : Type}
    (g : DAGraph K V) (P : K → K → Prop) :
  Forall (λ a, Forall (P a) (elements (succs_of g a))) (items g) →
  ∀ a b, edge g a b → P a b.
Proof.
  intros Hall a b Hab. unfold edge in Hab.
  assert (a ∈ items g) as Ha.
  { unfold items. apply elem_of_elements, elem_of_dom. unfold succs_of in Hab.
    destruct (vertices g !! a); [done|set_solver]. }
  rewrite Forall_forall in Hall. specialize (Hall a Ha). rewrite Forall_forall in Hall.
  by apply Hall, elem_of_elements.
Qed.

Lemma stack_inv_s_ab : stack_inv s_ab.
Proof. split; [vm_compute; reflexivity|by_compute]. Qed.

Lemma id_Permutation : ∀ l : list string, id l ≡ₚ l.
Proof. done. Qed.

Lemma X1_witness :
  ("c" ∉ stackset s_ab) ∧ (push "c" ;;m pop) s_ab = (Return "c", s_ab).
Proof.
  assert ("c" ∉ stackset s_ab) as Hc by by_compute.
  exact (conj Hc (X1_push_then_pop s_ab "c" Hc)).
Defined.

Lemma X3_witness :
  stack_inv s_ab ∧ outcome (pop s_ab) = Return "b" ∧
  UniqueStack_contains (after (pop s_ab)) "b" = false ∧
  S (UniqueStack_len (after (pop s_ab))) = UniqueStack_len s_ab.
Proof.
  assert (outcome (pop s_ab) = Return "b") as Hpop by (vm_compute; reflexivity).
  destruct (X3_pop_removes s_ab "b" stack_inv_s_ab Hpop) as (_ & _ & _ & Hgone & Hlen & _).
  exact (conj stack_inv_s_ab (conj Hpop (conj Hgone Hlen))).
Defined.

Lemma X4_witness :
  UniqueStack_init (Some (["a"] ++ ["b"])) = Return s_ab ∧
  ∃ s', UniqueStack_init (Some ["a"]) = Return s' ∧ pop s_ab = (Return "b", s').
Proof.
  assert (UniqueStack_init (Some (["a"] ++ ["b"])) = Return s_ab) as Hinit
    by (vm_compute; reflexivity).
  exact (conj Hinit (X4_init_then_pop ["a"] "b" s_ab Hinit)).
Defined.

Lemma X5_witness :
  DAGraph_contains g_dag "d" = false ∧
  getitem (after (add_vertex "d" (Some tt) g_dag)) "d" = Return (Some tt) ∧
  DAGraph_len (after (add_vertex "d" (Some tt) g_dag)) = S (DAGraph_len g_dag).
Proof.
  assert (DAGraph_contains g_dag "d" = false) as Hd by (vm_compute; reflexivity).
  destruct (X5_add_vertex_then_read g_dag "d" (Some tt) Hd) as (_ & Hget & _ & _ & _ & Hlen & _).
  exact (conj Hd (conj Hget Hlen)).
Defined.

Lemma X7_witness :
  built g_dag ∧
  ∀ a b, edge g_dag a b → edge (after (perform (AddEdge "a" "c") g_dag)) a b.
Proof.
  destruct (X7_nothing_is_removed g_dag (AddEdge "a" "c") built_g_dag) as (_ & Hedges & _).
  exact (conj built_g_dag Hedges).
Defined.

Lemma X8_witness :
  built g_dag ∧ DAGraph_contains g_dag "a" = true ∧
  ∃ ls lp,
    get_direct_successors g_dag "a" = Return ls ∧ NoDup ls ∧
    (∀ x, x ∈ ls ↔ edge g_dag "a" x) ∧
    get_direct_predecessors g_dag "a" = Return lp ∧ NoDup lp ∧
    (∀ x, x ∈ lp ↔ edge g_dag x "a").
Proof.
  assert (DAGraph_contains g_dag "a" = true) as Ha by (vm_compute; reflexivity).
  exact (conj built_g_dag (conj Ha (X8_direct_queries g_dag "a" built_g_dag Ha))).
Defined.

Lemma X9_witness :
  built g_dag ∧ DAGraph_contains g_dag "c" = true ∧ DAGraph_contains g_dag "a" = true ∧
  ∀ a b, edge (after (add_edge "a" "c" g_dag)) a b ↔
         edge g_dag a b ∨ (a = "c" ∧ b = "a").
Proof.
  assert (DAGraph_contains g_dag "c" = true) as Hc by (vm_compute; reflexivity).
  assert (DAGraph_contains g_dag "a" = true) as Ha by (vm_compute; reflexivity).
  destruct (X9_add_edge_effect g_dag "a" "c" built_g_dag Hc Ha) as (_ & Hedges & _).
  exact (conj built_g_dag (conj Hc (conj Ha Hedges))).
Defined.

Lemma X10_witness :
  concat (arg_keys <$> [ArgList []; ArgKey ""]) = [] ∧
  add_edges "zz" [ArgList []; ArgKey ""] g_dag = (Return tt, g_dag).
Proof.
  assert (concat (arg_keys <$> [ArgList []; ArgKey ""]) = []) as Hnone
    by (vm_compute; reflexivity).
  exact (conj Hnone (X10_add_edges_nothing g_dag "zz" [ArgList []; ArgKey ""] Hnone)).
Defined.

Lemma X11_witness :
  built g_ab ∧ DAGraph_contains g_ab "a" = true ∧
  (∀ x, x ∈ concat (arg_keys <$> [ArgKey "ab"; ArgList ["ab"]]) →
        DAGraph_contains g_ab x = true) ∧
  (direct_cyclic (after (add_edges "a" [ArgKey "ab"; ArgList ["ab"]] g_ab)) = true ↔
     direct_cyclic g_ab = true ∨ "a" ∈ concat (arg_keys <$> [ArgKey "ab"; ArgList ["ab"]])).
Proof.
  assert (DAGraph_contains g_ab "a" = true) as Ha by (vm_compute; reflexivity).
  assert (∀ x, x ∈ concat (arg_keys <$> [ArgKey "ab"; ArgList ["ab"]]) →
               DAGraph_contains g_ab x = true) as Hin.
  { apply (proj1 (Forall_forall (λ x, DAGraph_contains g_ab x = true) ["a"; "b"; "ab"])).
    by_compute. }
  destruct (X11_add_edges_effect g_ab "a" [ArgKey "ab"; ArgList ["ab"]] built_g_ab Ha Hin)
    as (_ & _ & Hflag).
  exact (conj built_g_ab (conj Ha (conj Hin Hflag))).
Defined.

Lemma X13_witness :
  built g_dag ∧ get_all_successors 5 g_dag "zz" = Raise (KeyError "zz").
Proof.
  destruct (X13_queries_and_missing_keys g_dag "zz" 5 built_g_dag) as [_ Hmissing].
  assert (DAGraph_contains g_dag "zz" = false) as Hzz by (vm_compute; reflexivity).
  exact (conj built_g_dag (proj1 (Hmissing Hzz))).
Defined.

Lemma X14_witness :
  built g_dag ∧ (∀ l : list string, id l ≡ₚ l) ∧
  is_cyclic 3 id g_dag false = Return false ∧ DAGraph_contains g_dag "a" = true ∧
  ∃ n ls lp,
    (∀ fuel, n ≤ fuel →
       get_all_successors fuel g_dag "a" = Return ls ∧
       get_all_predecessors fuel g_dag "a" = Return lp) ∧
    (∀ x, x ∈ ls ↔ tc (edge g_dag) "a" x) ∧
    (∀ x, x ∈ lp ↔ tc (edge g_dag) x "a").
Proof.
  assert (is_cyclic 3 id g_dag false = Return false) as Hfalse by (vm_compute; reflexivity).
  assert (DAGraph_contains g_dag "a" = true) as Ha by (vm_compute; reflexivity).
  exact (conj built_g_dag (conj id_Permutation (conj Hfalse (conj Ha
           (X14_acyclic_queries_end g_dag 3 id false "a" built_g_dag id_Permutation
              Hfalse Ha))))).
Defined.

Lemma X15_witness :
  built g_dag ∧ (∀ l : list string, id l ≡ₚ l) ∧
  is_cyclic 3 id g_dag false = Return false ∧
  DAGraph_contains g_dag "a" = true ∧ DAGraph_contains g_dag "c" = true ∧
  ∃ n la lb,
    (∀ fuel, n ≤ fuel →
       get_all_successors fuel g_dag "a" = Return la ∧
       get_all_predecessors fuel g_dag "c" = Return lb) ∧
    ("c" ∈ la ↔ "a" ∈ lb) ∧
    (∀ ld x, get_direct_successors g_dag "a" = Return ld → x ∈ ld → x ∈ la).
Proof.
  assert (is_cyclic 3 id g_dag false = Return false) as Hfalse by (vm_compute; reflexivity).
  assert (DAGraph_contains g_dag "a" = true) as Ha by (vm_compute; reflexivity).
  assert (DAGraph_contains g_dag "c" = true) as Hc by (vm_compute; reflexivity).
  exact (conj built_g_dag (conj id_Permutation (conj Hfalse (conj Ha (conj Hc
           (X15_successors_and_predecessors_agree g_dag 3 id false "a" "c" built_g_dag
              id_Permutation Hfalse Ha Hc)))))).
Defined.

Lemma X16_witness :
  built g_cycle ∧ (∀ l : list string, id l ≡ₚ l) ∧
  is_cyclic 3 id g_cycle false = Return true ∧
  ∃ k, DAGraph_contains g_cycle k = true ∧
    ∀ fuel, get_all_successors fuel g_cycle k = OutOfFuel ∧
            get_all_predecessors fuel g_cycle k = OutOfFuel.
Proof.
  assert (is_cyclic 3 id g_cycle false = Return true) as Htrue by (vm_compute; reflexivity).
  exact (conj built_g_cycle (conj id_Permutation (conj Htrue
           (X16_cyclic_queries_run_on g_cycle 3 id false built_g_cycle id_Permutation
              Htrue)))).
Defined.

Lemma X17_witness :
  built g_dag ∧ (∀ l : list string, id l ≡ₚ l) ∧
  (∀ a b, edge g_dag a b → rank_dag b < rank_dag a) ∧
  (∀ k, DAGraph_contains g_dag k = true → rank_dag k < 3) ∧
  is_cyclic 3 id g_dag false = Return false.
Proof.
  assert (∀ a b, edge g_dag a b → rank_dag b < rank_dag a) as Hrank.
  { apply (edges_forall g_dag (λ a b, rank_dag b < rank_dag a)). by_compute. }
  assert (∀ k, DAGraph_contains g_dag k = true → rank_dag k < 3) as Hlimit.
  { intros k _. unfold rank_dag. repeat case_decide; lia. }
  exact (conj built_g_dag (conj id_Permutation (conj Hrank (conj Hlimit
           (X17_ranked_graph_is_acyclic g_dag rank_dag 3 id false built_g_dag
              id_Permutation Hrank (or_intror Hlimit)))))).
Defined.

Lemma X18_witness :
  built g_cycle ∧ (∀ l : list string, id l ≡ₚ l) ∧
  is_cyclic 3 id g_cycle false = Return true ∧
  is_cyclic 4 id (after (perform (vertex "d") g_cycle)) false = Return true ∧
  true = true.
Proof.
  assert (is_cyclic 3 id g_cycle false = Return true) as Htrue by (vm_compute; reflexivity).
  assert (is_cyclic 4 id (after (perform (vertex "d") g_cycle)) false = Return true)
    as Hafter by (vm_compute; reflexivity).
  exact (conj built_g_cycle (conj id_Permutation (conj Htrue (conj Hafter
           (X18_cyclic_stays_cyclic g_cycle (vertex "d") 3 4 id id false false true
              built_g_cycle id_Permutation id_Permutation Htrue Hafter))))).
Defined.

Lemma X19_witness :
  built g_dag ∧ (∀ l : list string, id l ≡ₚ l) ∧
  is_cyclic 3 id g_dag false = Return false ∧
  outcome (add_edge "a" "c" g_dag) = Return tt ∧
  is_cyclic 3 id (after (add_edge "a" "c" g_dag)) false = Return true ∧
  (true = true ↔ rtc (edge g_dag) "a" "c").
Proof.
  assert (is_cyclic 3 id g_dag false = Return false) as Hfalse by (vm_compute; reflexivity).
  assert (outcome (add_edge "a" "c" g_dag) = Return tt) as Hret by (vm_compute; reflexivity).
  assert (is_cyclic 3 id (after (add_edge "a" "c" g_dag)) false = Return true)
    as Hafter by (vm_compute; reflexivity).
  exact (conj built_g_dag (conj id_Permutation (conj Hfalse (conj Hret (conj Hafter
           (X19_edge_that_closes_a_cycle g_dag "a" "c" 3 3 id id false false true
              built_g_dag id_Permutation id_Permutation Hfalse Hret Hafter)))))).
Defined.

Lemma X20_witness :
  built g_two ∧ (∀ l : list string, id l ≡ₚ l) ∧
  tarjans 2 id g_two false = Return [["b"; "a"]] ∧
  ∀ x y, together [["b"; "a"]] x y ↔ DAGraph_contains g_two x = true ∧ mutual g_two x y.
Proof.
  assert (tarjans 2 id g_two false = Return [["b"; "a"]]) as Hrun
    by (vm_compute; reflexivity).
  destruct (X20_tarjans_returns_components g_two 2 id false [["b"; "a"]] built_g_two
              id_Permutation Hrun) as (_ & _ & _ & Hsame).
  exact (conj built_g_two (conj id_Permutation (conj Hrun Hsame))).
Defined.

Lemma X21_witness :
  built g_dag ∧ (∀ l : list string, id l ≡ₚ l) ∧
  tarjans 3 id g_dag false = Return [["c"]; ["b"]; ["a"]] ∧
  ∀ before c later x y,
    [["c"]; ["b"]; ["a"]] = before ++ c :: later → x ∈ c → edge g_dag x y →
    y ∈ c ∨ ∃ c', c' ∈ before ∧ y ∈ c'.
Proof.
  assert (tarjans 3 id g_dag false = Return [["c"]; ["b"]; ["a"]]) as Hrun
    by (vm_compute; reflexivity).
  exact (conj built_g_dag (conj id_Permutation (conj Hrun
           (X21_tarjans_successors_first g_dag 3 id false [["c"]; ["b"]; ["a"]]
              built_g_dag id_Permutation Hrun)))).
Defined.

Lemma X22_witness :
  built g_dag ∧ (∀ l : list string, id l ≡ₚ l) ∧
  is_cyclic 3 id g_dag false = Return false ∧
  ∃ order,
    tarjans 3 id g_dag false = Return ((λ k, [k]) <$> order) ∧
    order ≡ₚ items g_dag ∧
    ∀ before k later y, order = before ++ k :: later → edge g_dag k y → y ∈ before.
Proof.
  assert (is_cyclic 3 id g_dag false = Return false) as Hfalse by (vm_compute; reflexivity).
  exact (conj built_g_dag (conj id_Permutation (conj Hfalse
           (X22_acyclic_order g_dag 3 id false built_g_dag id_Permutation Hfalse)))).
Defined.

Lemma X23_witness :
  only_path g_cycle "a" ["b"; "c"] ∧ NoDup ["a"; "b"; "c"] ∧
  (∀ x, x ∈ ["a"; "b"; "c"] → DAGraph_contains g_cycle x = true) ∧
  2 ≤ length ["b"; "c"] ∧
  (if true then (λ _, ["a"; "b"; "c"]) (items g_cycle) else items g_cycle)
    = "a" :: ["b"; "c"] ∧
  tarjans 2 (λ _, ["a"; "b"; "c"]) g_cycle true = Raise RecursionError.
Proof.
  assert (only_path g_cycle "a" ["b"; "c"]) as Hpath.
  { cbn [only_path]. split_and!; [vm_compute; reflexivity..|exact I]. }
  assert (NoDup ["a"; "b"; "c"]) as Hnd by by_compute.
  assert (∀ x, x ∈ ["a"; "b"; "c"] → DAGraph_contains g_cycle x = true) as Hin.
  { apply (proj1 (Forall_forall (λ x, DAGraph_contains g_cycle x = true) ["a"; "b"; "c"])).
    by_compute. }
  assert (2 ≤ length ["b"; "c"]) as Hlen by (cbn; lia).
  assert ((if true then (λ _, ["a"; "b"; "c"]) (items g_cycle) else items g_cycle)
          = "a" :: ["b"; "c"]) as Helems by reflexivity.
  exact (conj Hpath (conj Hnd (conj Hin (conj Hlen (conj Helems
           (proj1 (X23_long_path_raises g_cycle 2 (λ _, ["a"; "b"; "c"]) true "a"
                     ["b"; "c"] ["b"; "c"] Hpath Hnd Hin Hlen Helems))))))).
Defined.

Lemma X24_witness :
  built g_diamond ∧ get_all_successors 10 g_diamond "a" = Return ["c"; "b"; "d"] ∧
  ∀ x, x ∈ ["c"; "b"; "d"] ↔ tc (edge g_diamond) "a" x.
Proof.
  assert (get_all_successors 10 g_diamond "a" = Return ["c"; "b"; "d"]) as Hret
    by (vm_compute; reflexivity).
  destruct (X24_query_result_is_right g_diamond "a" 10 ["c"; "b"; "d"] built_g_diamond)
    as [Hsucc _].
  destruct (Hsucc Hret) as (_ & _ & Hiff & _).
  exact (conj built_g_diamond (conj Hret Hiff)).
Defined.

Lemma X25_witness :
  built g_loop ∧
  (direct_cyclic g_loop = true ↔
     ∃ k l, get_direct_successors g_loop k = Return l ∧ k ∈ l).
Proof.
  exact (conj built_g_loop (proj1 (X25_flag_and_self_loops g_loop built_g_loop))).
Defined.
